(** * Monte Carlo neutral-particle transport (omp3/neutral.c): a shallow embedding

    The development follows [src/omp3/neutral.c] function by function,
    [src/omp3/bright.c] for its kernels (the distance to the next facet, the
    collision, the facet encounter, the cross-section lookup), and
    [src/main.c] for the time step loop of the driver.

    Modelling conventions.
    - A C [double] is read in exact arithmetic, as a real number ([R]); the
      geometry kernels, the scattering of a particle and the clock of the
      driver are written once over an arithmetic interface ([Arith],
      [ArithSqrt]) so that the same text can also be run on IEEE binary64
      numbers ([float]), operation by operation, where a division by zero
      yields an infinity and the square root of a negative number is not a
      number.
    - A C [int] is an integer ([Z]): signed overflow is undefined behaviour
      in C, and the index computations do not reach it for indices that are
      inside their arrays; the 64-bit counters are far from wrapping.
    - A C array is a list, read with [read]: an access outside the array is
      undefined behaviour in C and yields [Undefined] here.
    - A block of the particle store is a structure of arrays of width
      [BLOCK_SIZE]; every kernel touches lane [ip] of each array only, so a
      block is represented as the list of its lanes, a lane gathering entry
      [ip] of every array.
    - Loops that the source leaves unbounded ([while (1)], the table search)
      take a fuel argument and yield [Timeout] when it runs out.
    - Macros and types declared in headers that are not part of the sources
      at hand ([BLOCK_SIZE], [MASS_NO], [OPEN_BOUND_CORRECTION], the Threefry
      generator, ...) are parameters.
    - The build is the one without [TALLY_OUT] and [MANUAL_ATOMIC]: every
      kernel adds to the tally itself, with an atomic update. *)

From Stdlib Require Import Floats.
From Stdlib Require Import ZArith List Bool Reals Lra Lia.
Import ListNotations.

(** ** Outcomes of a C computation *)

Inductive result (A : Type) : Type :=
| Ok (a : A)
| Undefined
| Terminated
| Timeout.

Arguments Ok {A} a.
Arguments Undefined {A}.
Arguments Terminated {A}.
Arguments Timeout {A}.

Definition bind {A B : Type} (m : result A) (k : A -> result B) : result B :=
  match m with
  | Ok a => k a
  | Undefined => Undefined
  | Terminated => Terminated
  | Timeout => Timeout
  end.

Notation "x <- m ;; k" := (bind m (fun x => k))
  (at level 61, m at next level, right associativity).
Notation "' p <- m ;; k" := (bind m (fun p => k))
  (at level 61, p pattern, m at next level, right associativity).

(** [a[i]] for a C array [a]. *)
Definition read {A : Type} (a : list A) (i : Z) : result A :=
  if (i <? 0)%Z then Undefined
  else match nth_error a (Z.to_nat i) with
       | Some v => Ok v
       | None => Undefined
       end.

(** [a[i] += v] for a C array of doubles read as reals. *)
Fixpoint add_at (a : list R) (n : nat) (v : R) : result (list R) :=
  match a, n with
  | [], _ => Undefined
  | h :: t, O => Ok ((h + v)%R :: t)
  | h :: t, S m => t' <- add_at t m v ;; Ok (h :: t')
  end.

(** ** Arithmetic on doubles *)

Class Arith (D : Type) : Type := {
  d0 : D;
  d1 : D;
  dsub : D -> D -> D;
  dmul : D -> D -> D;
  ddiv : D -> D -> D;
  dlt : D -> D -> bool;
  dge : D -> D -> bool;
  dgt : D -> D -> bool
}.

Declare Scope dbl_scope.
Delimit Scope dbl_scope with dbl.
Notation "x - y" := (dsub x y) : dbl_scope.
Notation "x * y" := (dmul x y) : dbl_scope.
Notation "x / y" := (ddiv x y) : dbl_scope.
Notation "x <? y" := (dlt x y) : dbl_scope.
Notation "x >=? y" := (dge x y) (at level 70) : dbl_scope.
Notation "x >? y" := (dgt x y) (at level 70) : dbl_scope.

Definition Rltb (x y : R) : bool := if Rlt_dec x y then true else false.
Definition Rgeb (x y : R) : bool := if Rge_dec x y then true else false.
Definition Rgtb (x y : R) : bool := if Rgt_dec x y then true else false.

(** Exact arithmetic. *)
#[export] Instance R_arith : Arith R := {|
  d0 := 0%R; d1 := 1%R;
  dsub := Rminus; dmul := Rmult; ddiv := Rdiv;
  dlt := Rltb; dge := Rgeb; dgt := Rgtb
|}.

(** IEEE 754 binary64 arithmetic. *)
#[export] Instance float_arith : Arith float := {|
  d0 := 0%float; d1 := 1%float;
  dsub := PrimFloat.sub;
  dmul := PrimFloat.mul; ddiv := PrimFloat.div;
  dlt := PrimFloat.ltb;
  dge := fun a b => PrimFloat.leb b a;
  dgt := fun a b => PrimFloat.ltb b a
|}.

(** What the scattering kernel and the clock of the driver use besides: the
    constants [2.0] and [0.5], the addition and the square root. *)
Class ArithSqrt (D : Type) : Type := {
  d2 : D;
  dhalf : D;
  dadd : D -> D -> D;
  dsqrt : D -> D
}.

Notation "x + y" := (dadd x y) : dbl_scope.

#[export] Instance R_sqrt : ArithSqrt R := {|
  d2 := 2%R; dhalf := (1 / 2)%R; dadd := Rplus; dsqrt := sqrt
|}.

#[export] Instance float_sqrt : ArithSqrt float := {|
  d2 := 2%float; dhalf := 0.5%float;
  dadd := PrimFloat.add; dsqrt := PrimFloat.sqrt
|}.

(** ** The geometry kernel *)

Section Geometry.
Context {D : Type} {AD : Arith D}.
Variable OPEN_BOUND_CORRECTION : D.
Local Open Scope dbl_scope.

(** neutral.c, [calc_distance_to_facet], lines 549-564: the time needed to
    reach the next facet along each axis. *)
Definition facet_times (x y : D) (pad x_off y_off : Z) (omega_x omega_y speed : D)
    (particle_cellx particle_celly : Z) (edgex edgey : list D) : result (D * D) :=
  let cellx := (particle_cellx - x_off + pad)%Z in
  let celly := (particle_celly - y_off + pad)%Z in
  let u_x_inv := d1 / (omega_x * speed) in
  let u_y_inv := d1 / (omega_y * speed) in
  dt_x <- (if omega_x >=? d0
           then e <- read edgex (cellx + 1)%Z ;; Ok ((e - x) * u_x_inv)
           else e <- read edgex cellx ;;
                Ok (((e - OPEN_BOUND_CORRECTION) - x) * u_x_inv)) ;;
  dt_y <- (if omega_y >=? d0
           then e <- read edgey (celly + 1)%Z ;; Ok ((e - y) * u_y_inv)
           else e <- read edgey celly ;;
                Ok (((e - OPEN_BOUND_CORRECTION) - y) * u_y_inv)) ;;
  Ok (dt_x, dt_y).

(** neutral.c, [calc_distance_to_facet]: the pair of its two results,
    [( *distance_to_facet, *x_facet )]. *)
Definition calc_distance_to_facet (global_nx : Z) (x y : D) (pad x_off y_off : Z)
    (omega_x omega_y speed : D) (particle_cellx particle_celly : Z)
    (edgex edgey : list D) : result (D * bool) :=
  '(dt_x, dt_y) <- facet_times x y pad x_off y_off omega_x omega_y speed
                     particle_cellx particle_celly edgex edgey ;;
  let x_facet := dt_x <? dt_y in
  let mag_u0 := speed in
  Ok (if x_facet then dt_x * mag_u0 else dt_y * mag_u0, x_facet).

End Geometry.

(** ** The scattering of a particle *)

Section Scattering.
Context {D : Type} {AD : Arith D} {SD : ArithSqrt D}.
Variable MASS_NO : D.
Local Open Scope dbl_scope.

(** neutral.c, [collision_event], lines 380-400: the elastic scattering of a
    particle of energy [energy] and direction [(omega_x, omega_y)], [rn1]
    being the random number [rn1[1]]; the new direction and the new
    energy. *)
Definition scatter (energy omega_x omega_y rn1 : D) : D * D * D :=
  let mu_cm := d1 - d2 * rn1 in
  let e_new :=
    energy * (MASS_NO * MASS_NO + d2 * MASS_NO * mu_cm + d1) /
    ((MASS_NO + d1) * (MASS_NO + d1)) in
  let cos_theta :=
    dhalf * (MASS_NO + d1) * dsqrt (e_new / energy) -
    dhalf * (MASS_NO - d1) * dsqrt (energy / e_new) in
  let sin_theta := dsqrt (d1 - cos_theta * cos_theta) in
  let omega_x_new := omega_x * cos_theta - omega_y * sin_theta in
  let omega_y_new := omega_x * sin_theta + omega_y * cos_theta in
  (omega_x_new, omega_y_new, e_new).

End Scattering.

Module Bright.
Section Geometry.
Context {D : Type} {AD : Arith D}.
Variable OPEN_BOUND_CORRECTION : D.
Variable PAD : Z.
Local Open Scope dbl_scope.

(** bright.c, [calc_distance_to_facet]; the cell is one index,
    [celly * global_nx + cellx], and C's [%] and [/] truncate. *)
Definition calc_distance_to_facet (global_nx : Z) (x y : D) (x_off y_off : Z)
    (omega_x omega_y particle_velocity : D) (cell : Z)
    (edgex edgey : list D) : result (D * bool) :=
  let cellx := (Z.rem cell global_nx - x_off + PAD)%Z in
  let celly := (Z.quot cell global_nx - y_off + PAD)%Z in
  let u_x_inv := d1 / (omega_x * particle_velocity) in
  let u_y_inv := d1 / (omega_y * particle_velocity) in
  dt_x <- (if omega_x >? d0
           then e <- read edgex (cellx + 1)%Z ;; Ok ((e - x) * u_x_inv)
           else e <- read edgex cellx ;;
                Ok (((e - OPEN_BOUND_CORRECTION) - x) * u_x_inv)) ;;
  dt_y <- (if omega_y >? d0
           then e <- read edgey (celly + 1)%Z ;; Ok ((e - y) * u_y_inv)
           else e <- read edgey celly ;;
                Ok (((e - OPEN_BOUND_CORRECTION) - y) * u_y_inv)) ;;
  let x_facet := dt_x <? dt_y in
  let mag_u0 := particle_velocity in
  distance_to_facet <-
    (if x_facet
     then (if omega_x >? d0
           then e <- read edgex (cellx + 1)%Z ;; Ok ((e - x) * mag_u0 * u_x_inv)
           else e <- read edgex cellx ;;
                Ok (((e - OPEN_BOUND_CORRECTION) - x) * mag_u0 * u_x_inv))
     else (if omega_y >? d0
           then e <- read edgey (celly + 1)%Z ;; Ok ((e - y) * mag_u0 * u_y_inv)
           else e <- read edgey celly ;;
                Ok (((e - OPEN_BOUND_CORRECTION) - y) * mag_u0 * u_y_inv))) ;;
  Ok (distance_to_facet, x_facet).

End Geometry.

(** bright.c handles one particle at a time; a particle is a structure, and
    its cell is the one index [celly * global_nx + cellx]. *)
Record Particle : Type := mkParticle {
  x : R;
  y : R;
  omega_x : R;
  omega_y : R;
  e : R;
  weight : R;
  dt_to_census : R;
  mfp_to_collision : R;
  cell : Z;
  dead : bool
}.

(** A cross-section table of bright.c: [key[nentries]], [value[nentries]]. *)
Record CrossSection : Type := {
  key : list R;
  value : list R;
  nentries : Z
}.

(** The neighbour that a particle is sent to. *)
Inductive Neighbour : Type :=
| NORTH
| EAST
| SOUTH
| WEST.

(** What bright.c takes from headers that are not at hand; [genrand] is the
    generator of mt19937.h, with its state of type [G]. *)
Record Headers (G : Type) : Type := {
  MASS_NO : R;
  AVOGADROS : R;
  MOLAR_MASS : R;
  BARNS : R;
  MIN_ENERGY_OF_INTEREST : R;
  genrand : G -> R * G
}.

Arguments MASS_NO {G} _.
Arguments AVOGADROS {G} _.
Arguments MOLAR_MASS {G} _.
Arguments BARNS {G} _.
Arguments MIN_ENERGY_OF_INTEREST {G} _.
Arguments genrand {G} _ _.

(** [a[i] -= v] for a C array of doubles read as reals. *)
Fixpoint sub_at (a : list R) (n : nat) (v : R) : result (list R) :=
  match a, n with
  | [], _ => Undefined
  | h :: t, O => Ok ((h - v)%R :: t)
  | h :: t, S m => t' <- sub_at t m v ;; Ok (h :: t')
  end.

Section Transport.
Context {G : Type}.
Variable K : Headers G.
Local Open Scope R_scope.

(** bright.c, [total_cs_for_energy], lines 542-545: the search loop.  The
    second comparison is evaluated only when the first fails, and the body
    reads [key[ind]] again, with the stride already halved. *)
Fixpoint cs_search (fuel : nat) (key : list R) (energy : R) (ind width : Z)
    : result Z :=
  match fuel with
  | O => Timeout
  | S fuel' =>
    k0 <- read key (ind - 1)%Z ;;
    again <- (if Rgtb k0 energy then Ok true
              else k <- read key ind ;; Ok (Rltb k energy)) ;;
    if (again : bool)
    then
      let width' := Z.max 1 (Z.quot width 2) in
      k <- read key ind ;;
      cs_search fuel' key energy
        (ind + (if Rgtb k energy then - width' else width'))%Z width'
    else Ok ind
  end.

(** bright.c, [total_cs_for_energy]. *)
Definition total_cs_for_energy (fuel : nat) (cs : CrossSection)
    (energy local_density : R) : result R :=
  let ind0 := Z.quot (nentries cs) 2 in
  let width0 := Z.quot ind0 2 in
  ind <- cs_search fuel (key cs) energy ind0 width0 ;;
  v0 <- read (value cs) (ind - 1)%Z ;;
  v1 <- read (value cs) ind ;;
  let microscopic_cs := (v0 + v1) / 2 in
  let macroscopic_cs :=
    (local_density * AVOGADROS K / MOLAR_MASS K) * (microscopic_cs * BARNS K) in
  Ok macroscopic_cs.

(** bright.c, [handle_collision].  The new energy is stored in the particle
    before the cosine of the scattering angle is computed from it. *)
Definition handle_collision (particle : Particle)
    (global_nx nx x_off y_off : Z)
    (cs_absorb cs_total distance_to_collision : R) (energy_tally : list R)
    (g : G) : result (Particle * list R * G) :=
  let particle :=
    mkParticle (x particle + distance_to_collision * omega_x particle)
      (y particle + distance_to_collision * omega_y particle)
      (omega_x particle) (omega_y particle) (e particle) (weight particle)
      (dt_to_census particle) (mfp_to_collision particle) (cell particle)
      (dead particle) in
  let p_absorb := cs_absorb / cs_total in
  let '(r, g) := genrand K g in
  let '(particle, de, g) :=
    if Rltb r p_absorb
    then
      let new_weight := weight particle * (1 - p_absorb) in
      let de := e particle * (weight particle - new_weight) in
      (mkParticle (x particle) (y particle) (omega_x particle)
         (omega_y particle) (e particle) new_weight (dt_to_census particle)
         (mfp_to_collision particle) (cell particle)
         (if Rltb (e particle) (MIN_ENERGY_OF_INTEREST K) then true
          else dead particle),
       de, g)
    else
      let '(r1, g) := genrand K g in
      let mu_cm := 1 - 2 * r1 in
      let e_new :=
        e particle * (MASS_NO K * MASS_NO K + 2 * MASS_NO K * mu_cm + 1) /
        ((MASS_NO K + 1) * (MASS_NO K + 1)) in
      let de := e_new - e particle in
      let particle :=
        mkParticle (x particle) (y particle) (omega_x particle)
          (omega_y particle) e_new (weight particle) (dt_to_census particle)
          (mfp_to_collision particle) (cell particle) (dead particle) in
      let cos_theta :=
        (1 / 2) * ((MASS_NO K + 1) * sqrt (e_new / e particle) -
                   (MASS_NO K - 1) * sqrt (e particle / e_new)) in
      let sin_theta := sin (acos cos_theta) in
      let omega_x_new :=
        omega_x particle * cos_theta - omega_y particle * sin_theta in
      let omega_y_new :=
        omega_x particle * sin_theta + omega_y particle * cos_theta in
      (mkParticle (x particle) (y particle) omega_x_new omega_y_new
         (e particle) (weight particle) (dt_to_census particle)
         (mfp_to_collision particle) (cell particle) (dead particle),
       de, g) in
  let cellx := (Z.rem (cell particle) global_nx - x_off)%Z in
  let celly := (Z.quot (cell particle) global_nx - y_off)%Z in
  let i := (celly * nx + cellx)%Z in
  tally <- (if (i <? 0)%Z then Undefined
            else sub_at energy_tally (Z.to_nat i) de) ;;
  Ok (particle, tally, g).

(** bright.c, [handle_facet_encounter], up to the call of
    [send_and_replace_particle]: the particle as the function has updated
    it, and the neighbour that it hands the particle to when it returns
    [TRUE]; [None] stands for the return of [FALSE]. *)
Definition handle_facet_encounter (global_nx global_ny nx ny x_off y_off : Z)
    (distance_to_facet : R) (x_facet : bool) (particle : Particle)
    : Particle * option Neighbour :=
  let cellx := Z.rem (cell particle) global_nx in
  let celly := Z.quot (cell particle) global_nx in
  let px := x particle + distance_to_facet * omega_x particle in
  let py := y particle + distance_to_facet * omega_y particle in
  let put (ox oy : R) (c : Z) :=
    mkParticle px py ox oy (e particle) (weight particle)
      (dt_to_census particle) (mfp_to_collision particle) c (dead particle) in
  if x_facet
  then
    if Rgtb (omega_x particle) 0
    then
      if (cellx >=? global_nx - 1)%Z
      then (put (- omega_x particle) (omega_y particle) (cell particle), None)
      else
        let cellx := (cellx + 1)%Z in
        let particle :=
          put (omega_x particle) (omega_y particle)
            (celly * global_nx + cellx)%Z in
        if (cellx >=? nx + x_off)%Z then (particle, Some EAST)
        else (particle, None)
    else if Rltb (omega_x particle) 0
    then
      if (cellx <=? 0)%Z
      then (put (- omega_x particle) (omega_y particle) (cell particle), None)
      else
        let cellx := (cellx - 1)%Z in
        let particle :=
          put (omega_x particle) (omega_y particle)
            (celly * global_nx + cellx)%Z in
        if (cellx <? x_off)%Z then (particle, Some WEST)
        else (particle, None)
    else (put (omega_x particle) (omega_y particle) (cell particle), None)
  else
    if Rgtb (omega_y particle) 0
    then
      if (celly >=? global_ny - 1)%Z
      then (put (omega_x particle) (- omega_y particle) (cell particle), None)
      else
        let celly := (celly + 1)%Z in
        let particle :=
          put (omega_x particle) (omega_y particle)
            (celly * global_nx + cellx)%Z in
        if (celly >=? ny + y_off)%Z then (particle, Some NORTH)
        else (particle, None)
    else if Rltb (omega_y particle) 0
    then
      if (celly <=? 0)%Z
      then (put (omega_x particle) (- omega_y particle) (cell particle), None)
      else
        let celly := (celly - 1)%Z in
        let particle :=
          put (omega_x particle) (omega_y particle)
            (celly * global_nx + cellx)%Z in
        if (celly <? y_off)%Z then (particle, Some SOUTH)
        else (particle, None)
    else (put (omega_x particle) (omega_y particle) (cell particle), None).

End Transport.
End Bright.

(** ** What the sources take from headers that are not at hand *)

Record Headers : Type := {
  BLOCK_SIZE : Z;
  MASS_NO : R;
  AVOGADROS : R;
  MOLAR_MASS : R;
  BARNS : R;
  eV_TO_J : R;
  PARTICLE_MASS : R;
  MIN_ENERGY_OF_INTEREST : R;
  OPEN_BOUND_CORRECTION : R;
  FACTOR : R;
  HALF_FACTOR : R;
  threefry4x64 : Z * Z * Z * Z -> Z * Z * Z * Z -> Z * Z * Z * Z
}.

(** The tag of a lane's next event. *)
Inductive Event : Type :=
| PARTICLE_DEAD
| PARTICLE_COLLISION
| PARTICLE_FACET
| PARTICLE_CENSUS.

Definition Event_eqb (a b : Event) : bool :=
  match a, b with
  | PARTICLE_DEAD, PARTICLE_DEAD => true
  | PARTICLE_COLLISION, PARTICLE_COLLISION => true
  | PARTICLE_FACET, PARTICLE_FACET => true
  | PARTICLE_CENSUS, PARTICLE_CENSUS => true
  | _, _ => false
  end.

(** A cross-section table: [keys[nentries]], [values[nentries]]. *)
Record CrossSection : Type := {
  keys : list R;
  values : list R;
  nentries : Z
}.

(** Lane [ip] of a particle block: [p_x] stands for [p_x[ip]], and so on. *)
Record Particle : Type := mkParticle {
  p_x : R;
  p_y : R;
  p_omega_x : R;
  p_omega_y : R;
  p_energy : R;
  p_weight : R;
  p_dt_to_census : R;
  p_mfp_to_collision : R;
  p_cellx : Z;
  p_celly : Z;
  p_dead : bool
}.

(** Lane [ip] of the per-thread arrays of [handle_particles]: [c_speed]
    stands for [speed[ip]], and so on. *)
Record Cache : Type := mkCache {
  c_x_facet : bool;
  c_absorb_cs_index : Z;
  c_scatter_cs_index : Z;
  c_cell_mfp : R;
  c_local_density : R;
  c_microscopic_cs_scatter : R;
  c_microscopic_cs_absorb : R;
  c_number_density : R;
  c_macroscopic_cs_scatter : R;
  c_macroscopic_cs_absorb : R;
  c_speed : R;
  c_energy_deposition : R;
  c_distance_to_facet : R;
  c_key : Z;
  c_next_event : Event
}.

Definition Lane : Type := (Particle * Cache)%type.

(** A pointer value, as far as a null test can tell. *)
Inductive pointer : Type :=
| NULL
| Address (a : positive).

(** [!p] for a pointer [p]. *)
Definition lnot_pointer (p : pointer) : bool :=
  match p with
  | NULL => true
  | Address _ => false
  end.

Section Transport.
Variable K : Headers.
Local Open Scope R_scope.

(** neutral.c, [generate_random_numbers]. *)
Definition generate_random_numbers (pkey master_key counter : Z) : R * R * R * R :=
  let '(r0, r1, r2, r3) :=
    threefry4x64 K (counter, 0%Z, 0%Z, 0%Z) (pkey, master_key, 0%Z, 0%Z) in
  (IZR r0 * FACTOR K + HALF_FACTOR K,
   IZR r1 * FACTOR K + HALF_FACTOR K,
   IZR r2 * FACTOR K + HALF_FACTOR K,
   IZR r3 * FACTOR K + HALF_FACTOR K).

(** neutral.c, [microscopic_cs_for_energy_binary], lines 609-612: the search
    loop, the second comparison being evaluated only when the first fails. *)
Fixpoint cs_search (fuel : nat) (keys : list R) (energy : R) (ind width : Z)
    : result Z :=
  match fuel with
  | O => Timeout
  | S fuel' =>
    k <- read keys ind ;;
    again <- (if Rltb energy k then Ok true
              else k1 <- read keys (ind + 1)%Z ;; Ok (Rgeb energy k1)) ;;
    if (again : bool)
    then cs_search fuel' keys energy
           (ind + (if Rltb energy k then - width else width))%Z
           (Z.max 1 (Z.quot width 2))
    else Ok ind
  end.

(** neutral.c, [microscopic_cs_for_energy_binary]: the interpolated value and
    the index stored through [cs_index]. *)
Definition microscopic_cs_for_energy_binary (fuel : nat) (cs : CrossSection)
    (energy : R) : result (R * Z) :=
  let ind0 := Z.quot (nentries cs) 2 in
  let width0 := Z.quot ind0 2 in
  ind <- cs_search fuel (keys cs) energy ind0 width0 ;;
  v0 <- read (values cs) ind ;;
  k0 <- read (keys cs) ind ;;
  k1 <- read (keys cs) (ind + 1)%Z ;;
  v1 <- read (values cs) (ind + 1)%Z ;;
  Ok (v0 + ((energy - k0) / (k1 - k0)) * (v1 - v0), ind).

(** neutral.c, [calculate_energy_deposition]. *)
Definition calculate_energy_deposition (path_length number_density
    microscopic_cs_absorb microscopic_cs_total energy weight : R) : R :=
  let average_exit_energy_absorb := 0 in
  let absorption_heating :=
    (microscopic_cs_absorb / microscopic_cs_total) * average_exit_energy_absorb in
  let average_exit_energy_scatter :=
    energy * ((MASS_NO K * MASS_NO K + MASS_NO K + 1) /
              ((MASS_NO K + 1) * (MASS_NO K + 1))) in
  let scattering_heating :=
    (1 - (microscopic_cs_absorb / microscopic_cs_total)) *
    average_exit_energy_scatter in
  let heating_response := energy - scattering_heating - absorption_heating in
  weight * path_length * (microscopic_cs_total * BARNS K) *
  heating_response * number_density.

(** neutral.c, [update_tallies] (the [omp atomic update] build). *)
Definition update_tallies (nx x_off y_off : Z) (inv_ntotal_particles
    energy_deposition : R) (energy_deposition_tally : list R)
    (cellx_ip celly_ip : Z) : result (list R) :=
  let cellx := (cellx_ip - x_off)%Z in
  let celly := (celly_ip - y_off)%Z in
  let i := (celly * nx + cellx)%Z in
  if (i <? 0)%Z then Undefined
  else add_at energy_deposition_tally (Z.to_nat i)
         (energy_deposition * inv_ntotal_particles).

(** neutral.c, [handle_particles], lines 198-208: the choice of the next
    event from the three distances. *)
Definition select_event (distance_to_collision distance_to_facet
    distance_to_census : R) : Event :=
  if Rltb distance_to_collision distance_to_facet &&
     Rltb distance_to_collision distance_to_census
  then PARTICLE_COLLISION
  else if Rltb distance_to_facet distance_to_census
  then PARTICLE_FACET
  else PARTICLE_CENSUS.

(** neutral.c, [handle_particles], lines 179-208: one lane of the
    classification pass.  A dead lane only has its tag set. *)
Definition calc_event (global_nx pad x_off y_off : Z) (edgex edgey : list R)
    (l : Lane) : result Lane :=
  let '(p, c) := l in
  if p_dead p
  then Ok (p, mkCache (c_x_facet c) (c_absorb_cs_index c) (c_scatter_cs_index c)
                (c_cell_mfp c) (c_local_density c) (c_microscopic_cs_scatter c)
                (c_microscopic_cs_absorb c) (c_number_density c)
                (c_macroscopic_cs_scatter c) (c_macroscopic_cs_absorb c)
                (c_speed c) (c_energy_deposition c) (c_distance_to_facet c)
                (c_key c) PARTICLE_DEAD)
  else
    let cell_mfp := 1 / (c_macroscopic_cs_scatter c + c_macroscopic_cs_absorb c) in
    '(distance_to_facet, x_facet) <-
      calc_distance_to_facet (OPEN_BOUND_CORRECTION K) global_nx (p_x p) (p_y p)
        pad x_off y_off (p_omega_x p) (p_omega_y p) (c_speed c)
        (p_cellx p) (p_celly p) edgex edgey ;;
    let distance_to_collision := p_mfp_to_collision p * cell_mfp in
    let distance_to_census := c_speed c * p_dt_to_census p in
    Ok (p, mkCache x_facet (c_absorb_cs_index c) (c_scatter_cs_index c)
             cell_mfp (c_local_density c) (c_microscopic_cs_scatter c)
             (c_microscopic_cs_absorb c) (c_number_density c)
             (c_macroscopic_cs_scatter c) (c_macroscopic_cs_absorb c)
             (c_speed c) (c_energy_deposition c) distance_to_facet
             (c_key c)
             (select_event distance_to_collision distance_to_facet
                distance_to_census)).

(** neutral.c, [collision_event] (the build without [TALLY_OUT]).  Its
    [found] argument is never written, so it is no part of the result. *)
Definition collision_event (fuel : nat) (nx x_off y_off : Z)
    (inv_ntotal_particles distance_to_collision local_density : R)
    (cs_scatter_table cs_absorb_table : CrossSection) (counter master_key : Z)
    (energy_deposition_tally : list R) (l : Lane) : result (Lane * list R) :=
  let '(p, c) := l in
  let energy_deposition :=
    c_energy_deposition c +
    calculate_energy_deposition distance_to_collision (c_number_density c)
      (c_microscopic_cs_absorb c)
      (c_microscopic_cs_scatter c + c_microscopic_cs_absorb c)
      (p_energy p) (p_weight p) in
  let x := p_x p + distance_to_collision * p_omega_x p in
  let y := p_y p + distance_to_collision * p_omega_y p in
  let p_absorb :=
    c_macroscopic_cs_absorb c /
    (c_macroscopic_cs_scatter c + c_macroscopic_cs_absorb c) in
  let '(rn0, rn1, rn2, rn3) :=
    generate_random_numbers (c_key c) master_key counter in
  '(weight, dead, omega_x, omega_y, energy, energy_deposition, tally) <-
    (if Rltb rn0 p_absorb
     then
       let weight := p_weight p * (1 - p_absorb) in
       if Rltb (p_energy p) (MIN_ENERGY_OF_INTEREST K)
       then
         tally <- update_tallies nx x_off y_off inv_ntotal_particles
                    energy_deposition energy_deposition_tally
                    (p_cellx p) (p_celly p) ;;
         Ok (weight, true, p_omega_x p, p_omega_y p, p_energy p, 0, tally)
       else
         Ok (weight, p_dead p, p_omega_x p, p_omega_y p, p_energy p,
             energy_deposition, energy_deposition_tally)
     else
       let mu_cm := 1 - 2 * rn1 in
       let e_new :=
         p_energy p * (MASS_NO K * MASS_NO K + 2 * MASS_NO K * mu_cm + 1) /
         ((MASS_NO K + 1) * (MASS_NO K + 1)) in
       let cos_theta :=
         (1 / 2) * (MASS_NO K + 1) * sqrt (e_new / p_energy p) -
         (1 / 2) * (MASS_NO K - 1) * sqrt (p_energy p / e_new) in
       let sin_theta := sqrt (1 - cos_theta * cos_theta) in
       let omega_x_new := p_omega_x p * cos_theta - p_omega_y p * sin_theta in
       let omega_y_new := p_omega_x p * sin_theta + p_omega_y p * cos_theta in
       Ok (p_weight p, p_dead p, omega_x_new, omega_y_new, e_new,
           energy_deposition, energy_deposition_tally)) ;;
  if (dead : bool)
  then
    Ok (mkParticle x y omega_x omega_y energy weight (p_dt_to_census p)
          (p_mfp_to_collision p) (p_cellx p) (p_celly p) dead,
        mkCache (c_x_facet c) (c_absorb_cs_index c) (c_scatter_cs_index c)
          (c_cell_mfp c) (c_local_density c) (c_microscopic_cs_scatter c)
          (c_microscopic_cs_absorb c) (c_number_density c)
          (c_macroscopic_cs_scatter c) (c_macroscopic_cs_absorb c)
          (c_speed c) energy_deposition (c_distance_to_facet c)
          (c_key c) (c_next_event c),
        tally)
  else
    '(microscopic_cs_scatter, scatter_cs_index) <-
      microscopic_cs_for_energy_binary fuel cs_scatter_table energy ;;
    '(microscopic_cs_absorb, absorb_cs_index) <-
      microscopic_cs_for_energy_binary fuel cs_absorb_table energy ;;
    let number_density := local_density * AVOGADROS K / MOLAR_MASS K in
    let macroscopic_cs_scatter :=
      number_density * microscopic_cs_scatter * BARNS K in
    let macroscopic_cs_absorb :=
      number_density * microscopic_cs_absorb * BARNS K in
    let mfp_to_collision := (- ln rn3) / macroscopic_cs_scatter in
    let dt_to_census := p_dt_to_census p - distance_to_collision / c_speed c in
    let speed := sqrt ((2 * energy * eV_TO_J K) / PARTICLE_MASS K) in
    Ok (mkParticle x y omega_x omega_y energy weight dt_to_census
          mfp_to_collision (p_cellx p) (p_celly p) dead,
        mkCache (c_x_facet c) absorb_cs_index scatter_cs_index
          (c_cell_mfp c) (c_local_density c) microscopic_cs_scatter
          microscopic_cs_absorb number_density
          macroscopic_cs_scatter macroscopic_cs_absorb
          speed energy_deposition (c_distance_to_facet c)
          (c_key c) (c_next_event c),
        tally).

(** neutral.c, [facet_event], lines 455-464: reflection at the mesh boundary
    or the step to the neighbouring cell.  Each statement reads what the
    preceding one has stored. *)
Definition facet_cross (global_nx global_ny : Z) (x_facet : bool)
    (omega_x omega_y : R) (cellx celly : Z) : R * R * Z * Z :=
  if x_facet
  then
    let omega_x1 :=
      if (cellx >=? global_nx - 1)%Z || (cellx <=? 0)%Z
      then - omega_x else omega_x in
    let cellx1 :=
      (cellx + (if Rgtb omega_x1 0 && (cellx <? global_nx - 1)%Z
                then 1 else 0))%Z in
    let cellx2 :=
      (cellx1 + (if Rltb omega_x1 0 && (cellx1 >? 0)%Z then -1 else 0))%Z in
    (omega_x1, omega_y, cellx2, celly)
  else
    let omega_y1 :=
      if (celly >=? global_ny - 1)%Z || (celly <=? 0)%Z
      then - omega_y else omega_y in
    let celly1 :=
      (celly + (if Rgtb omega_y1 0 && (celly <? global_ny - 1)%Z
                then 1 else 0))%Z in
    let celly2 :=
      (celly1 + (if Rltb omega_y1 0 && (celly1 >? 0)%Z then -1 else 0))%Z in
    (omega_x, omega_y1, cellx, celly2).

(** neutral.c, [facet_event] (the build without [TALLY_OUT]). *)
Definition facet_event (global_nx global_ny nx x_off y_off : Z)
    (inv_ntotal_particles : R) (density : list R)
    (energy_deposition_tally : list R) (l : Lane) : result (Lane * list R) :=
  let '(p, c) := l in
  let energy_deposition :=
    c_energy_deposition c +
    calculate_energy_deposition (c_distance_to_facet c) (c_number_density c)
      (c_microscopic_cs_absorb c)
      (c_microscopic_cs_scatter c + c_microscopic_cs_absorb c)
      (p_energy p) (p_weight p) in
  tally <- update_tallies nx x_off y_off inv_ntotal_particles
             energy_deposition energy_deposition_tally
             (p_cellx p) (p_celly p) ;;
  let mfp_to_collision :=
    p_mfp_to_collision p - (c_distance_to_facet c / c_cell_mfp c) in
  let dt_to_census :=
    p_dt_to_census p - (c_distance_to_facet c / c_speed c) in
  let x := p_x p + c_distance_to_facet c * p_omega_x p in
  let y := p_y p + c_distance_to_facet c * p_omega_y p in
  let '(omega_x, omega_y, cellx_ip, celly_ip) :=
    facet_cross global_nx global_ny (c_x_facet c)
      (p_omega_x p) (p_omega_y p) (p_cellx p) (p_celly p) in
  let cellx := (cellx_ip - x_off)%Z in
  let celly := (celly_ip - y_off)%Z in
  local_density <- read density (celly * nx + cellx)%Z ;;
  let number_density := local_density * AVOGADROS K / MOLAR_MASS K in
  Ok (mkParticle x y omega_x omega_y (p_energy p) (p_weight p) dt_to_census
        mfp_to_collision cellx_ip celly_ip (p_dead p),
      mkCache (c_x_facet c) (c_absorb_cs_index c) (c_scatter_cs_index c)
        (c_cell_mfp c) local_density (c_microscopic_cs_scatter c)
        (c_microscopic_cs_absorb c) number_density
        (number_density * c_microscopic_cs_scatter c * BARNS K)
        (number_density * c_microscopic_cs_absorb c * BARNS K)
        (c_speed c) 0 (c_distance_to_facet c) (c_key c) (c_next_event c),
      tally).

(** neutral.c, [census_event]. *)
Definition census_event (nx x_off y_off : Z)
    (inv_ntotal_particles distance_to_census cell_mfp : R)
    (energy_deposition_tally : list R) (l : Lane) : result (Lane * list R) :=
  let '(p, c) := l in
  let x := p_x p + distance_to_census * p_omega_x p in
  let y := p_y p + distance_to_census * p_omega_y p in
  let mfp_to_collision := p_mfp_to_collision p - (distance_to_census / cell_mfp) in
  let energy_deposition :=
    c_energy_deposition c +
    calculate_energy_deposition distance_to_census (c_number_density c)
      (c_microscopic_cs_absorb c)
      (c_microscopic_cs_scatter c + c_microscopic_cs_absorb c)
      (p_energy p) (p_weight p) in
  tally <- update_tallies nx x_off y_off inv_ntotal_particles
             energy_deposition energy_deposition_tally
             (p_cellx p) (p_celly p) ;;
  Ok (mkParticle x y (p_omega_x p) (p_omega_y p) (p_energy p) (p_weight p) 0
        mfp_to_collision (p_cellx p) (p_celly p) (p_dead p),
      mkCache (c_x_facet c) (c_absorb_cs_index c) (c_scatter_cs_index c)
        (c_cell_mfp c) (c_local_density c) (c_microscopic_cs_scatter c)
        (c_microscopic_cs_absorb c) (c_number_density c)
        (c_macroscopic_cs_scatter c) (c_macroscopic_cs_absorb c)
        (c_speed c) energy_deposition (c_distance_to_facet c)
        (c_key c) (c_next_event c),
      tally).

(** ** The block event loop *)

(** A [for (ip = 0; ip < BLOCK_SIZE; ++ip)] loop over the lanes of a block,
    lane after lane, threading what the loop body shares between lanes. *)
Fixpoint for_lanes {S : Type} (body : S -> Lane -> result (Lane * S)) (s : S)
    (lanes : list Lane) : result (list Lane * S) :=
  match lanes with
  | [] => Ok ([], s)
  | l :: ls =>
    '(l', s1) <- body s l ;;
    '(ls', s2) <- for_lanes body s1 ls ;;
    Ok (l' :: ls', s2)
  end.

(** neutral.c, [handle_particles], lines 122-163: one lane of the cache
    initialisation; the state is [(ip, nparticles)]. *)
Definition init_lane (fuel : nat) (nx pad x_off y_off : Z) (initial : bool)
    (dt : R) (density : list R) (cs_scatter_table cs_absorb_table : CrossSection)
    (master_key counter bid : Z) (s : Z * Z) (l : Lane) : result (Lane * (Z * Z)) :=
  let '(ip, nparticles) := s in
  let '(p, c) := l in
  if p_dead p then Ok (l, ((ip + 1)%Z, nparticles))
  else
    let cellx := (p_cellx p - x_off + pad)%Z in
    let celly := (p_celly p - y_off + pad)%Z in
    local_density <- read density (celly * (nx + 2 * pad) + cellx)%Z ;;
    '(microscopic_cs_scatter, scatter_cs_index) <-
      microscopic_cs_for_energy_binary fuel cs_scatter_table (p_energy p) ;;
    '(microscopic_cs_absorb, absorb_cs_index) <-
      microscopic_cs_for_energy_binary fuel cs_absorb_table (p_energy p) ;;
    let number_density := local_density * AVOGADROS K / MOLAR_MASS K in
    let macroscopic_cs_scatter :=
      number_density * microscopic_cs_scatter * BARNS K in
    let macroscopic_cs_absorb :=
      number_density * microscopic_cs_absorb * BARNS K in
    let speed := sqrt ((2 * p_energy p * eV_TO_J K) / PARTICLE_MASS K) in
    let pid := (bid * BLOCK_SIZE K + ip)%Z in
    let '(dt_to_census, mfp_to_collision) :=
      if initial
      then
        let '(rn0, _, _, _) := generate_random_numbers pid master_key counter in
        (dt, (- ln rn0) / macroscopic_cs_scatter)
      else (p_dt_to_census p, p_mfp_to_collision p) in
    Ok ((mkParticle (p_x p) (p_y p) (p_omega_x p) (p_omega_y p) (p_energy p)
           (p_weight p) dt_to_census mfp_to_collision (p_cellx p) (p_celly p)
           (p_dead p),
         mkCache false absorb_cs_index scatter_cs_index 0 local_density
           microscopic_cs_scatter microscopic_cs_absorb number_density
           macroscopic_cs_scatter macroscopic_cs_absorb speed 0
           (c_distance_to_facet c) pid (c_next_event c)),
        ((ip + 1)%Z, (nparticles + 1)%Z)).

(** The counters [(ncompleted, nf, nc)] of the classification pass. *)
Definition count_event (s : Z * Z * Z) (e : Event) : Z * Z * Z :=
  let '(ncompleted, nf, nc) := s in
  match e with
  | PARTICLE_DEAD => ((ncompleted + 1)%Z, nf, nc)
  | PARTICLE_COLLISION => (ncompleted, nf, (nc + 1)%Z)
  | PARTICLE_FACET => (ncompleted, (nf + 1)%Z, nc)
  | PARTICLE_CENSUS => ((ncompleted + 1)%Z, nf, nc)
  end.

Definition calc_event_lane (global_nx pad x_off y_off : Z) (edgex edgey : list R)
    (s : Z * Z * Z) (l : Lane) : result (Lane * (Z * Z * Z)) :=
  l' <- calc_event global_nx pad x_off y_off edgex edgey l ;;
  Ok (l', count_event s (c_next_event (snd l'))).

(** neutral.c, [handle_particles], lines 222-240: one lane of the collision
    pass. *)
Definition collision_lane (fuel : nat) (nx x_off y_off : Z)
    (inv_ntotal_particles : R) (cs_scatter_table cs_absorb_table : CrossSection)
    (counter master_key : Z) (energy_deposition_tally : list R) (l : Lane)
    : result (Lane * list R) :=
  if negb (Event_eqb (c_next_event (snd l)) PARTICLE_COLLISION)
  then Ok (l, energy_deposition_tally)
  else
    let distance_to_collision :=
      p_mfp_to_collision (fst l) * c_cell_mfp (snd l) in
    collision_event fuel nx x_off y_off inv_ntotal_particles
      distance_to_collision (c_local_density (snd l))
      cs_scatter_table cs_absorb_table counter master_key
      energy_deposition_tally l.

(** neutral.c, [handle_particles], lines 247-251: the check made after the
    collision pass.  [found] is what the expression [found] evaluates to. *)
Fixpoint check_found (n : nat) (found : pointer) : result unit :=
  match n with
  | O => Ok tt
  | S m => if lnot_pointer found then Terminated else check_found m found
  end.

(** neutral.c, [handle_particles], lines 276-289: one lane of the facet
    pass. *)
Definition facet_lane (global_nx global_ny nx x_off y_off : Z)
    (inv_ntotal_particles : R) (density : list R)
    (energy_deposition_tally : list R) (l : Lane) : result (Lane * list R) :=
  if negb (Event_eqb (c_next_event (snd l)) PARTICLE_FACET)
  then Ok (l, energy_deposition_tally)
  else facet_event global_nx global_ny nx x_off y_off inv_ntotal_particles
         density energy_deposition_tally l.

(** neutral.c, [handle_particles], lines 295-308: one lane of the census
    pass. *)
Definition census_lane (nx x_off y_off : Z) (inv_ntotal_particles : R)
    (energy_deposition_tally : list R) (l : Lane) : result (Lane * list R) :=
  if negb (Event_eqb (c_next_event (snd l)) PARTICLE_CENSUS)
  then Ok (l, energy_deposition_tally)
  else
    let distance_to_census := c_speed (snd l) * p_dt_to_census (fst l) in
    census_event nx x_off y_off inv_ntotal_particles distance_to_census
      (c_cell_mfp (snd l)) energy_deposition_tally l.

(** What one thread holds while it works on a block. *)
Record BlockState : Type := mkBlockState {
  lanes : list Lane;
  counter : Z;
  tally : list R;
  nfacets : Z;
  ncollisions : Z
}.

(** The read-only arguments of [handle_particles]. *)
Record Problem : Type := mkProblem {
  global_nx : Z;
  global_ny : Z;
  nx : Z;
  ny : Z;
  pad : Z;
  x_off : Z;
  y_off : Z;
  density : list R;
  edgex : list R;
  edgey : list R;
  cs_scatter_table : CrossSection;
  cs_absorb_table : CrossSection;
  master_key : Z;
  ntotal_particles : Z
}.

(** neutral.c, [handle_particles], line 65. *)
Definition inv_ntotal_particles (m : Problem) : R :=
  1 / IZR (ntotal_particles m).

(** neutral.c, [handle_particles], lines 171-290: the body of [while (1)].
    The boolean tells whether the loop goes on ([false] for [break]);
    [found] is the array declared in the body, an object with an address. *)
Definition outer_iteration (fuel : nat) (m : Problem) (found : positive)
    (st : BlockState) : result (bool * BlockState) :=
  '(lanes1, (ncompleted, nf, nc)) <-
    for_lanes (calc_event_lane (global_nx m) (pad m) (x_off m) (y_off m)
                 (edgex m) (edgey m))
      (0%Z, 0%Z, 0%Z) (lanes st) ;;
  let nfacets1 := (nfacets st + nf)%Z in
  let ncollisions1 := (ncollisions st + nc)%Z in
  if (ncompleted =? BLOCK_SIZE K)%Z
  then Ok (false, mkBlockState lanes1 (counter st) (tally st)
                    nfacets1 ncollisions1)
  else
    '(lanes2, tally2) <-
      for_lanes (collision_lane fuel (nx m) (x_off m) (y_off m)
                   (inv_ntotal_particles m) (cs_scatter_table m)
                   (cs_absorb_table m) (counter st) (master_key m))
        (tally st) lanes1 ;;
    let counter1 := (counter st + 1)%Z in
    _ <- check_found (Z.to_nat (BLOCK_SIZE K)) (Address found) ;;
    '(lanes3, tally3) <-
      for_lanes (facet_lane (global_nx m) (global_ny m) (nx m) (x_off m)
                   (y_off m) (inv_ntotal_particles m) (density m))
        tally2 lanes2 ;;
    Ok (true, mkBlockState lanes3 counter1 tally3 nfacets1 ncollisions1).

(** neutral.c, [handle_particles], lines 170-291: [while (1)]. *)
Fixpoint event_loop (iterations fuel : nat) (m : Problem) (found : positive)
    (st : BlockState) : result BlockState :=
  match iterations with
  | O => Timeout
  | S n =>
    '(again, st1) <- outer_iteration fuel m found st ;;
    if (again : bool) then event_loop n fuel m found st1 else Ok st1
  end.

(** The states in which the head of the loop is reached, from a first one. *)
Inductive loop_head (fuel : nat) (m : Problem) (found : positive)
    (st0 : BlockState) : BlockState -> Prop :=
| head_first : loop_head fuel m found st0 st0
| head_next st st1 :
    loop_head fuel m found st0 st ->
    outer_iteration fuel m found st = Ok (true, st1) ->
    loop_head fuel m found st0 st1.

(** neutral.c, [handle_particles], lines 118-165: the first state of the
    loop for block [bid]. *)
Definition init_block (fuel : nat) (m : Problem) (initial : bool) (dt : R)
    (bid : Z) (tally0 : list R) (nfacets0 ncollisions0 nparticles0 : Z)
    (lanes0 : list Lane) : result (BlockState * Z) :=
  let counter0 := 0%Z in
  '(lanes1, (_, nparticles1)) <-
    for_lanes (init_lane fuel (nx m) (pad m) (x_off m) (y_off m) initial dt
                 (density m) (cs_scatter_table m) (cs_absorb_table m)
                 (master_key m) counter0 bid)
      (0%Z, nparticles0) lanes0 ;;
  Ok (mkBlockState lanes1 (counter0 + 1)%Z tally0 nfacets0 ncollisions0,
      nparticles1).

(** neutral.c, [handle_particles], lines 100-310: the work on block [bid]. *)
Definition handle_block (iterations fuel : nat) (m : Problem) (found : positive)
    (initial : bool) (dt : R) (bid : Z) (tally0 : list R)
    (nfacets0 ncollisions0 nparticles0 : Z) (lanes0 : list Lane)
    : result (BlockState * Z) :=
  '(st0, nparticles1) <-
    init_block fuel m initial dt bid tally0 nfacets0 ncollisions0 nparticles0
      lanes0 ;;
  st1 <- event_loop iterations fuel m found st0 ;;
  '(lanes2, tally2) <-
    for_lanes (census_lane (nx m) (x_off m) (y_off m) (inv_ntotal_particles m))
      (tally st1) (lanes st1) ;;
  Ok (mkBlockState lanes2 (counter st1) tally2 (nfacets st1) (ncollisions st1),
      nparticles1).

(** ** The transport driver *)

(** neutral.c, [handle_particles], lines 62-63, 81 and 100-101: the blocks
    that thread [tid] of [nthreads] works on, [nb] being the number of
    blocks. *)
Definition thread_blocks (nthreads nb tid : Z) : list Z :=
  let nb_per_thread := Z.quot nb nthreads in
  let thread_block_off := (tid * nb_per_thread)%Z in
  map (fun b => (thread_block_off + Z.of_nat b)%Z)
      (seq 0 (Z.to_nat nb_per_thread)).

(** The blocks that the parallel region of [handle_particles] works on,
    thread after thread. *)
Definition processed_blocks (nthreads nparticles_to_process : Z) : list Z :=
  let nb := Z.quot nparticles_to_process (BLOCK_SIZE K) in
  flat_map (thread_blocks nthreads nb)
           (map Z.of_nat (seq 0 (Z.to_nat nthreads))).

(** [particles[bid] = block]. *)
Fixpoint store_block (particles : list (list Particle)) (n : nat)
    (block : list Particle) : result (list (list Particle)) :=
  match particles, n with
  | [], _ => Undefined
  | _ :: t, O => Ok (block :: t)
  | h :: t, S k => t' <- store_block t k block ;; Ok (h :: t')
  end.

(** What the threads of [handle_particles] share, and the sums of their
    reduction variables. *)
Record Shared : Type := mkShared {
  particles : list (list Particle);
  energy_deposition_tally : list R;
  sum_nfacets : Z;
  sum_ncollisions : Z;
  sum_nparticles : Z
}.

(** neutral.c, [handle_particles], lines 100-310: the loop of one thread
    over its blocks; [cache] is the content of the thread's own arrays. *)
Fixpoint thread_loop (iterations fuel : nat) (m : Problem) (found : positive)
    (initial : bool) (dt : R) (bids : list Z) (cache : list Cache)
    (sh : Shared) : result Shared :=
  match bids with
  | [] => Ok sh
  | bid :: rest =>
    block <- read (particles sh) bid ;;
    '(st, nparticles1) <-
      handle_block iterations fuel m found initial dt bid
        (energy_deposition_tally sh) (sum_nfacets sh) (sum_ncollisions sh)
        (sum_nparticles sh) (combine block cache) ;;
    particles1 <- store_block (particles sh) (Z.to_nat bid)
                    (map fst (lanes st)) ;;
    thread_loop iterations fuel m found initial dt rest (map snd (lanes st))
      (mkShared particles1 (tally st) (nfacets st) (ncollisions st)
         nparticles1)
  end.

(** neutral.c, [handle_particles].  The block ranges of the threads are
    disjoint and the additions to the tally commute in exact arithmetic, so
    the threads are run one after the other; [cache0 tid] is what the arrays
    of thread [tid] hold when it starts. *)
Fixpoint run_threads (iterations fuel : nat) (m : Problem) (found : positive)
    (initial : bool) (dt : R) (nthreads nb : Z) (cache0 : Z -> list Cache)
    (tids : list Z) (sh : Shared) : result Shared :=
  match tids with
  | [] => Ok sh
  | tid :: rest =>
    sh1 <- thread_loop iterations fuel m found initial dt
             (thread_blocks nthreads nb tid) (cache0 tid) sh ;;
    run_threads iterations fuel m found initial dt nthreads nb cache0 rest sh1
  end.

Definition handle_particles (iterations fuel : nat) (m : Problem)
    (found : positive) (initial : bool) (dt : R) (nthreads : Z)
    (cache0 : Z -> list Cache) (nparticles_to_process : Z)
    (particles0 : list (list Particle)) (tally0 : list R)
    (facets collisions : Z) : result (list (list Particle) * list R * Z * Z) :=
  let nb := Z.quot nparticles_to_process (BLOCK_SIZE K) in
  sh <- run_threads iterations fuel m found initial dt nthreads nb cache0
          (map Z.of_nat (seq 0 (Z.to_nat nthreads)))
          (mkShared particles0 tally0 0 0 0) ;;
  Ok (particles sh, energy_deposition_tally sh,
      (facets + sum_nfacets sh)%Z, (collisions + sum_ncollisions sh)%Z).

(** neutral.c, [solve_transport_2d]. *)
Definition solve_transport_2d (iterations fuel : nat) (m : Problem)
    (found : positive) (dt : R) (nthreads : Z) (cache0 : Z -> list Cache)
    (nparticles : Z) (particles0 : list (list Particle)) (tally0 : list R)
    (facet_events collision_events : Z)
    : result (list (list Particle) * list R * Z * Z) :=
  if (nparticles =? 0)%Z
  then Ok (particles0, tally0, facet_events, collision_events)
  else handle_particles iterations fuel m found true dt nthreads cache0
         nparticles particles0 tally0 facet_events collision_events.

(** ** Particle injection *)

(** neutral.c, [inject_particles], lines 703-708: the search of the cell
    that holds a coordinate, [n] cells being left to try from cell [i]. *)
Fixpoint find_cell (n : nat) (i : Z) (edge : list R) (pad off : Z) (pos : R)
    : result Z :=
  match n with
  | O => Ok 0%Z
  | S n' =>
    e0 <- read edge (i + pad)%Z ;;
    inside <- (if Rgeb pos e0
               then e1 <- read edge (i + pad + 1)%Z ;; Ok (Rltb pos e1)
               else Ok false) ;;
    if (inside : bool) then Ok (off + i)%Z
    else find_cell n' (i + 1)%Z edge pad off pos
  end.

(** neutral.c, [inject_particles], lines 690-733: particle [pid]. *)
Definition inject_particle (local_nx local_ny pad : Z)
    (local_particle_left_off local_particle_bottom_off local_particle_width
     local_particle_height : R) (x_off y_off : Z) (dt : R)
    (edgex edgey : list R) (initial_energy : R) (pid : Z) : result Particle :=
  let '(rn0, rn1, rn2, _) := generate_random_numbers pid 0 0 in
  let x := local_particle_left_off + rn0 * local_particle_width in
  let y := local_particle_bottom_off + rn1 * local_particle_height in
  cellx <- find_cell (Z.to_nat local_nx) 0 edgex pad x_off x ;;
  celly <- find_cell (Z.to_nat local_ny) 0 edgey pad y_off y ;;
  let theta := 2 * PI * rn2 in
  Ok (mkParticle x y (cos theta) (sin theta) initial_energy 1 dt 0
        cellx celly false).

Fixpoint inject_lanes (inject : Z -> result Particle) (b : Z) (k : Z)
    (n : nat) : result (list Particle) :=
  match n with
  | O => Ok []
  | S n' =>
    p <- inject (b * BLOCK_SIZE K + k)%Z ;;
    ps <- inject_lanes inject b (k + 1)%Z n' ;;
    Ok (p :: ps)
  end.

Fixpoint inject_blocks (inject : Z -> result Particle) (b : Z) (n : nat)
    : result (list (list Particle)) :=
  match n with
  | O => Ok []
  | S n' =>
    blk <- inject_lanes inject b 0 (Z.to_nat (BLOCK_SIZE K)) ;;
    blks <- inject_blocks inject (b + 1)%Z n' ;;
    Ok (blk :: blks)
  end.

(** neutral.c, [inject_particles]; the allocation is taken to succeed. *)
Definition inject_particles (nparticles local_nx local_ny pad : Z)
    (local_particle_left_off local_particle_bottom_off local_particle_width
     local_particle_height : R) (x_off y_off : Z) (dt : R)
    (edgex edgey : list R) (initial_energy : R)
    : result (list (list Particle)) :=
  if negb (Z.rem nparticles (BLOCK_SIZE K) =? 0)%Z then Terminated
  else
    let nb := Z.quot nparticles (BLOCK_SIZE K) in
    inject_blocks
      (inject_particle local_nx local_ny pad local_particle_left_off
         local_particle_bottom_off local_particle_width local_particle_height
         x_off y_off dt edgex edgey initial_energy)
      0 (Z.to_nat nb).

End Transport.

(** ** The reduction of the tally *)

(** neutral.c, [validate], lines 627-630: the loop that adds [n] entries of
    the tally, from entry [i] on, to [local_energy_tally]. *)
Fixpoint sum_tally (n : nat) (i : Z) (energy_deposition_tally : list R)
    (local_energy_tally : R) : result R :=
  match n with
  | O => Ok local_energy_tally
  | S n' =>
    v <- read energy_deposition_tally i ;;
    sum_tally n' (i + 1)%Z energy_deposition_tally (local_energy_tally + v)%R
  end.

(** neutral.c, [validate], lines 627-630: the local reduction of the tally
    of an [nx] by [ny] mesh. *)
Definition local_energy_tally (nx ny : Z) (energy_deposition_tally : list R)
    : result R :=
  sum_tally (Z.to_nat (nx * ny)) 0 energy_deposition_tally 0%R.

(** ** The time step loop of the driver *)

Section Driver.
Context {D : Type} {AD : Arith D} {SD : ArithSqrt D}.
Context {State : Type}.
Local Open Scope dbl_scope.

(** main.c, lines 94-105: one call of [solve_transport_2d], on the state of
    the simulation.  The call lists its arguments in another order than
    neutral.c declares them, so the step is left as a parameter. *)
Variable solve : State -> result State.

(** main.c, lines 82-140: [for (tt = 1; tt <= niters; ++tt)], with [n]
    iterations to go; the result holds [tt] and [elapsed_sim_time] as the
    loop leaves them.  The clock is written over the arithmetic interface:
    the program adds doubles. *)
Fixpoint timestep_loop (n : nat) (tt : Z) (dt sim_end elapsed_sim_time : D)
    (s : State) : result (Z * D * State) :=
  match n with
  | O => Ok (tt, elapsed_sim_time, s)
  | S n' =>
    s1 <- solve s ;;
    let elapsed_sim_time := elapsed_sim_time + dt in
    if elapsed_sim_time >=? sim_end
    then Ok (tt, elapsed_sim_time, s1)
    else timestep_loop n' (tt + 1)%Z dt sim_end elapsed_sim_time s1
  end.

(** main.c, lines 79-140. *)
Definition main_loop (niters : Z) (dt sim_end : D) (s : State)
    : result (Z * D * State) :=
  timestep_loop (Z.to_nat niters) 1 dt sim_end d0 s.

End Driver.

(** ** The vocabulary of the properties *)

Local Open Scope R_scope.

(** A computation that does not end in [TERMINATE]. *)
Definition not_terminated {A : Type} (r : result A) : Prop := r <> Terminated.

(** The keys of a table grow strictly with the index. *)
Definition strictly_increasing (ks : list R) : Prop :=
  forall i j ki kj,
    (i < j)%Z -> read ks i = Ok ki -> read ks j = Ok kj -> ki < kj.

(** In the search of a table, the total length of the jumps that are still
    to come while the stride is at least 2. *)
Definition jump_room (w : Z) : Z := if (w <=? 1)%Z then 0%Z else (2 * w - 2)%Z.

(** A bound on the number of iterations that the search of a table of [n]
    keys has left at index [ind] with stride [w], the energy being in bin
    [t]. *)
Definition search_measure (n t ind w : Z) : Z :=
  if (w =? 1)%Z then Z.abs (ind - t) else (n + w)%Z.

(** What the loop maintains for a live lane: the two counters of the claim,
    and the positivity of the quantities they are computed from. *)
Definition lane_invariant (l : Lane) : Prop :=
  p_dead (fst l) = false ->
  0 <= p_mfp_to_collision (fst l) /\
  0 <= p_dt_to_census (fst l) /\
  0 < p_energy (fst l) /\
  0 < c_speed (snd l) /\
  0 < c_local_density (snd l) /\
  0 < c_microscopic_cs_scatter (snd l) /\
  0 <= c_microscopic_cs_absorb (snd l) /\
  0 < c_macroscopic_cs_scatter (snd l) /\
  0 <= c_macroscopic_cs_absorb (snd l).

(** The direction of a particle has norm 1. *)
Definition unit_direction (p : Particle) : Prop :=
  p_omega_x p * p_omega_x p + p_omega_y p * p_omega_y p = 1.

(** The test of the norm of a direction in binary64 arithmetic:
    [|omega_x * omega_x + omega_y * omega_y - 1| <= tol]. *)
Definition unit_within (tol omega_x omega_y : float) : bool :=
  PrimFloat.leb
    (PrimFloat.abs (omega_x * omega_x + omega_y * omega_y - 1)%float) tol.

(** The cell of a particle is a cell of the global mesh. *)
Definition in_mesh (m : Problem) (p : Particle) : Prop :=
  (0 <= p_cellx p < global_nx m)%Z /\ (0 <= p_celly p < global_ny m)%Z.

(** The number of lanes of a block that carry a given tag. *)
Definition count_tag (e : Event) (ls : list Lane) : Z :=
  Z.of_nat (length (filter (fun l => Event_eqb (c_next_event (snd l)) e) ls)).

(** What the classification pass makes of a lane. *)
Definition lane_classified (K : Headers) (m : Problem) (l l1 : Lane) : Prop :=
  exists s s',
    calc_event_lane K (global_nx m) (pad m) (x_off m) (y_off m) (edgex m)
      (edgey m) s l = Ok (l1, s').

(** What an iteration of the loop that goes on makes of a lane: the lane
    goes through the classification pass, the collision pass and the facet
    pass. *)
Definition lane_step (K : Headers) (fuel : nat) (m : Problem) (ctr : Z)
    (l l3 : Lane) : Prop :=
  exists s s' t1 t1' t2 t2' l1 l2,
    calc_event_lane K (global_nx m) (pad m) (x_off m) (y_off m) (edgex m)
      (edgey m) s l = Ok (l1, s') /\
    collision_lane K fuel (nx m) (x_off m) (y_off m) (inv_ntotal_particles m)
      (cs_scatter_table m) (cs_absorb_table m) ctr (master_key m) t1 l1
    = Ok (l2, t1') /\
    facet_lane K (global_nx m) (global_ny m) (nx m) (x_off m) (y_off m)
      (inv_ntotal_particles m) (density m) t2 l2 = Ok (l3, t2').

(** What the census pass makes of a lane. *)
Definition lane_census (K : Headers) (m : Problem) (l l1 : Lane) : Prop :=
  exists t t',
    census_lane K (nx m) (x_off m) (y_off m) (inv_ntotal_particles m) t l
    = Ok (l1, t').

(** The rule of a reflective boundary along one axis of a mesh of [n]
    cells: the direction cosine [o] of a particle in cell [c] is negated,
    and the cell kept, in the last cell moving up and in the first cell
    moving down; otherwise the cosine is kept and the cell is the next one
    along it. *)
Definition reflects_or_steps (n c : Z) (o o' : R) (c' : Z) : Prop :=
  (0 < o -> (n - 1 <= c)%Z -> o' = - o /\ c' = c) /\
  (0 < o -> (c < n - 1)%Z -> o' = o /\ c' = (c + 1)%Z) /\
  (o < 0 -> (c <= 0)%Z -> o' = - o /\ c' = c) /\
  (o < 0 -> (0 < c)%Z -> o' = o /\ c' = (c - 1)%Z) /\
  (o = 0 -> o' = o /\ c' = c).

(** The assumptions on the read-only inputs: positive physical constants,
    random numbers strictly between 0 and 1, a positive density in every
    cell, tables with strictly increasing keys, positive scattering and
    non-negative absorption cross sections. *)
Record inputs_ok (K : Headers) (m : Problem) : Prop := {
  ok_mass_no : 0 < MASS_NO K;
  ok_avogadros : 0 < AVOGADROS K;
  ok_molar_mass : 0 < MOLAR_MASS K;
  ok_barns : 0 < BARNS K;
  ok_ev : 0 < eV_TO_J K;
  ok_particle_mass : 0 < PARTICLE_MASS K;
  ok_rng : forall pkey mk ctr r0 r1 r2 r3,
    generate_random_numbers K pkey mk ctr = (r0, r1, r2, r3) ->
    0 < r0 < 1 /\ 0 < r1 < 1 /\ 0 < r2 < 1 /\ 0 < r3 < 1;
  ok_density : Forall (Rlt 0) (density m);
  ok_scatter_keys : strictly_increasing (keys (cs_scatter_table m));
  ok_scatter_values : Forall (Rlt 0) (values (cs_scatter_table m));
  ok_absorb_keys : strictly_increasing (keys (cs_absorb_table m));
  ok_absorb_values : Forall (Rle 0) (values (cs_absorb_table m))
}.

(** ** Sample inputs *)

(** Sample values for the header parameters, to run the definitions on
    concrete inputs; the generator is replaced by a constant one. *)
Definition sample_headers : Headers := {|
  BLOCK_SIZE := 2;
  MASS_NO := 100;
  AVOGADROS := 1;
  MOLAR_MASS := 1;
  BARNS := 1;
  eV_TO_J := 1;
  PARTICLE_MASS := 2;
  MIN_ENERGY_OF_INTEREST := 1;
  OPEN_BOUND_CORRECTION := 1 / 100000000000000;
  FACTOR := 1 / 4;
  HALF_FACTOR := 1 / 8;
  threefry4x64 := fun _ _ => (2%Z, 2%Z, 2%Z, 2%Z)
|}.

(** A live lane in cell (0, 0) of a mesh of one unit cell, whose collision
    and facet distances are both 5/8 and whose census distance is 1; its
    cache before, and after, the classification pass. *)
Definition sample_particle : Particle :=
  mkParticle (1 / 2) (1 / 2) (3 / 5) (4 / 5) 1 1 1 (5 / 8) 0 0 false.

Definition sample_cache : Cache :=
  mkCache false 0 0 0 1 1 0 1 1 0 1 0 0 0 PARTICLE_DEAD.

Definition sample_cache_classified : Cache :=
  mkCache false 0 0 (1 / (1 + 0)) 1 1 0 1 1 0 1 0
    ((1 - 1 / 2) * (1 / (4 / 5 * 1)) * 1) 0 PARTICLE_FACET.

(** The same lane with 5/8 of the time step left, so that its facet and
    census distances are both 5/8, and one mean free path to go. *)
Definition census_tie_particle : Particle :=
  mkParticle (1 / 2) (1 / 2) (3 / 5) (4 / 5) 1 1 (5 / 8) 1 0 0 false.

Definition census_tie_cache_classified : Cache :=
  mkCache false 0 0 (1 / (1 + 0)) 1 1 0 1 1 0 1 0
    ((1 - 1 / 2) * (1 / (4 / 5 * 1)) * 1) 0 PARTICLE_CENSUS.

(** A table of five entries. *)
Definition sample_table : CrossSection :=
  {| keys := [1; 2; 3; 4; 5]; values := [10; 20; 30; 40; 50]; nentries := 5 |}.

(** A particle that reaches census with no mean free path left. *)
Definition census_particle : Particle :=
  mkParticle (1 / 2) (1 / 2) (3 / 5) (4 / 5) 1 1 1 0 0 0 false.

(** A mesh of one unit cell of density 1, without halo. *)
Definition sample_problem : Problem :=
  mkProblem 1 1 1 1 0 0 0 [1] [0; 1] [0; 1] sample_table sample_table 0 2.

(** A block of two lanes as the driver receives it: a live particle of
    energy 9/2, and a dead one. *)
Definition sample_lanes : list Lane :=
  [ (mkParticle (1 / 2) (1 / 2) (3 / 5) (4 / 5) (9 / 2) 1 0 0 0 0 false,
     sample_cache);
    (mkParticle 0 0 1 0 1 1 0 0 0 0 true, sample_cache) ].

(** A block of two lanes at the head of the loop: a live lane that is about
    to collide, and a dead lane. *)
Definition colliding_lane : Lane :=
  (mkParticle (1 / 2) (1 / 2) (3 / 5) (4 / 5) 1 1 1 (1 / 10) 0 0 false,
   sample_cache).

Definition dead_lane : Lane :=
  (mkParticle 0 0 1 0 1 1 0 0 0 0 true, sample_cache).

Definition colliding_state : BlockState :=
  mkBlockState [colliding_lane; dead_lane] 1 [0] 0 0.

(** A block of two lanes at the head of the loop whose live lane, of energy
    9/2, is about to collide and scatter to an energy inside the table. *)
Definition scattering_state : BlockState :=
  mkBlockState
    [ (mkParticle (1 / 2) (1 / 2) (3 / 5) (4 / 5) (9 / 2) 1 1 (1 / 10) 0 0 false,
       sample_cache);
      dead_lane ] 1 [0] 0 0.

(** A block of two lanes as the driver receives it: a live particle of
    energy 4, at a key of the table, and a dead one. *)
Definition census_lanes : list Lane :=
  [ (mkParticle (1 / 2) (1 / 2) (3 / 5) (4 / 5) 4 1 0 0 0 0 false, sample_cache);
    dead_lane ].

(** A particle store of three such blocks. *)
Definition census_store : list (list Particle) :=
  [map fst census_lanes; map fst census_lanes; map fst census_lanes].

(** A block of two live lanes as the driver receives it, in the one cell of
    [sample_problem]: a particle of energy 4 in the middle of the cell, which
    collides before it reaches a facet, and a particle of energy 1 at 1/1000
    below the upper edge of the cell, which reaches that edge first. *)
Definition event_lanes : list Lane :=
  [ (mkParticle (1 / 2) (1 / 2) (3 / 5) (4 / 5) 4 1 0 0 0 0 false, sample_cache);
    (mkParticle (1 / 2) (999 / 1000) (3 / 5) (4 / 5) 1 1 0 0 0 0 false,
     sample_cache) ].

(** A mesh of one row of three unit cells of density 1, without halo. *)
Definition row_problem : Problem :=
  mkProblem 3 1 3 1 0 0 0 [1; 1; 1] [0; 1; 2; 3] [0; 1] sample_table sample_table
    0 2.

(** A block of two lanes as the driver receives it, on that mesh: a live
    particle of energy 1 in the middle cell, at 1/1000 from the facet to the
    last cell and moving towards it, and a dead one. *)
Definition crossing_lanes : list Lane :=
  [ (mkParticle (1999 / 1000) (1 / 2) (4 / 5) (3 / 5) 1 1 0 0 1 0 false,
     sample_cache);
    dead_lane ].

(** Header parameters with the scale [2^-64] and the bias [2^-65] of the
    random numbers, and a generator that returns the extreme outputs. *)
Definition threefry_headers : Headers := {|
  BLOCK_SIZE := 2;
  MASS_NO := 100;
  AVOGADROS := 1;
  MOLAR_MASS := 1;
  BARNS := 1;
  eV_TO_J := 1;
  PARTICLE_MASS := 2;
  MIN_ENERGY_OF_INTEREST := 1;
  OPEN_BOUND_CORRECTION := 1 / 100000000000000;
  FACTOR := / IZR (2 ^ 64);
  HALF_FACTOR := / IZR (2 ^ 65);
  threefry4x64 := fun _ _ => (0%Z, (2 ^ 64 - 1)%Z, 1%Z, (2 ^ 63)%Z)
|}.

(** Header parameters for bright.c, with a generator that returns 1/2, and
    a particle in cell (1, 0) of a mesh of two columns. *)
Definition bright_headers : Bright.Headers unit := {|
  Bright.MASS_NO := 100;
  Bright.AVOGADROS := 1;
  Bright.MOLAR_MASS := 1;
  Bright.BARNS := 1;
  Bright.MIN_ENERGY_OF_INTEREST := 1;
  Bright.genrand := fun g => (1 / 2, g)
|}.

Definition bright_particle : Bright.Particle :=
  Bright.mkParticle (1 / 2) (1 / 2) (3 / 5) (4 / 5) 4 1 1 0 1 false.

(** A table of bright.c with five entries. *)
Definition bright_table : Bright.CrossSection :=
  {| Bright.key := [1; 2; 3; 4; 5];
     Bright.value := [10; 20; 30; 40; 50];
     Bright.nentries := 5 |}.

(** * Properties *)

(** ** Comparisons of reals *)

Lemma Rltb_true (x y : R) : x < y -> Rltb x y = true.
Proof. intros H. unfold Rltb. destruct (Rlt_dec x y); [reflexivity | contradiction]. Qed.

Lemma Rltb_false (x y : R) : y <= x -> Rltb x y = false.
Proof. intros H. unfold Rltb. destruct (Rlt_dec x y); [lra | reflexivity]. Qed.

Lemma Rltb_iff (x y : R) : Rltb x y = true <-> x < y.
Proof. unfold Rltb. destruct (Rlt_dec x y); split; intros; try discriminate; auto; lra. Qed.

Lemma Rltb_iff_false (x y : R) : Rltb x y = false <-> y <= x.
Proof. unfold Rltb. destruct (Rlt_dec x y); split; intros; try discriminate; auto; lra. Qed.

Lemma Rgeb_true (x y : R) : y <= x -> Rgeb x y = true.
Proof. intros H. unfold Rgeb. destruct (Rge_dec x y); [reflexivity | lra]. Qed.

Lemma Rgeb_false (x y : R) : x < y -> Rgeb x y = false.
Proof. intros H. unfold Rgeb. destruct (Rge_dec x y); [lra | reflexivity]. Qed.

Lemma Rgeb_iff (x y : R) : Rgeb x y = true <-> y <= x.
Proof. unfold Rgeb. destruct (Rge_dec x y); split; intros; try discriminate; auto; lra. Qed.

Lemma Rgtb_true (x y : R) : y < x -> Rgtb x y = true.
Proof. intros H. unfold Rgtb. destruct (Rgt_dec x y); [reflexivity | lra]. Qed.

Lemma Rgtb_false (x y : R) : x <= y -> Rgtb x y = false.
Proof. intros H. unfold Rgtb. destruct (Rgt_dec x y); [lra | reflexivity]. Qed.

Lemma Rgeb_Rgtb (x : R) : x <> 0 -> Rgeb x 0 = Rgtb x 0.
Proof.
  intros H. destruct (Rlt_dec 0 x).
  - rewrite Rgeb_true, Rgtb_true by lra. reflexivity.
  - rewrite Rgeb_false, Rgtb_false by lra. reflexivity.
Qed.

(** Decides the comparisons of a goal whose operands are numerals. *)
Ltac Rcompare :=
  repeat match goal with
  | |- context [Rltb ?a ?b] =>
      first [ rewrite (Rltb_true a b) by lra | rewrite (Rltb_false a b) by lra ]
  | |- context [Rgeb ?a ?b] =>
      first [ rewrite (Rgeb_true a b) by lra | rewrite (Rgeb_false a b) by lra ]
  | |- context [Rgtb ?a ?b] =>
      first [ rewrite (Rgtb_true a b) by lra | rewrite (Rgtb_false a b) by lra ]
  end.

(** ** Arrays *)

Lemma read_cons_0 {A : Type} (a : A) (l : list A) : read (a :: l) 0 = Ok a.
Proof. reflexivity. Qed.

Lemma read_cons_pos {A : Type} (a : A) (l : list A) (i : Z) :
  (0 < i)%Z -> read (a :: l) i = read l (i - 1).
Proof.
  intros H. unfold read.
  destruct (i <? 0)%Z eqn:E1; [lia |].
  destruct (i - 1 <? 0)%Z eqn:E2; [lia |].
  replace (Z.to_nat i) with (S (Z.to_nat (i - 1))) by lia. reflexivity.
Qed.

Lemma read_Ok_range {A : Type} (a : list A) (i : Z) (v : A) :
  read a i = Ok v -> (0 <= i < Z.of_nat (length a))%Z.
Proof.
  unfold read. destruct (Z.ltb_spec i 0); [discriminate |].
  destruct (nth_error a (Z.to_nat i)) eqn:E; [| discriminate].
  intros _. assert (Z.to_nat i < length a)%nat
    by (apply nth_error_Some; rewrite E; discriminate).
  lia.
Qed.

Lemma read_in_range {A : Type} (a : list A) (i : Z) :
  (0 <= i < Z.of_nat (length a))%Z -> exists v, read a i = Ok v.
Proof.
  intros H. unfold read. destruct (Z.ltb_spec i 0); [lia |].
  destruct (nth_error a (Z.to_nat i)) eqn:E; [eauto |].
  apply nth_error_None in E. lia.
Qed.

Lemma read_Forall {A : Type} (P : A -> Prop) (a : list A) (i : Z) (v : A) :
  Forall P a -> read a i = Ok v -> P v.
Proof.
  intros HP H. unfold read in H. destruct (i <? 0)%Z; [discriminate |].
  destruct (nth_error a (Z.to_nat i)) eqn:E; [| discriminate].
  injection H as <-. rewrite Forall_forall in HP.
  eapply HP, nth_error_In, E.
Qed.

(** ** Event selection *)

Lemma select_event_collision (dc df dn : R) :
  select_event dc df dn = PARTICLE_COLLISION <-> dc < df /\ dc < dn.
Proof.
  unfold select_event.
  destruct (Rlt_dec dc df); destruct (Rlt_dec dc dn); destruct (Rlt_dec df dn);
    Rcompare; simpl; split; intros; try discriminate; try lra; auto.
Qed.

Lemma select_event_facet (dc df dn : R) :
  select_event dc df dn = PARTICLE_FACET <-> df <= dc /\ df < dn.
Proof.
  unfold select_event.
  destruct (Rlt_dec dc df); destruct (Rlt_dec dc dn); destruct (Rlt_dec df dn);
    Rcompare; simpl; split; intros; try discriminate; try lra; auto.
Qed.

Lemma select_event_census (dc df dn : R) :
  select_event dc df dn = PARTICLE_CENSUS <-> dn <= dc /\ dn <= df.
Proof.
  unfold select_event.
  destruct (Rlt_dec dc df); destruct (Rlt_dec dc dn); destruct (Rlt_dec df dn);
    Rcompare; simpl; split; intros; try discriminate; try lra; auto.
Qed.

Lemma select_event_not_dead (dc df dn : R) :
  select_event dc df dn <> PARTICLE_DEAD.
Proof.
  unfold select_event.
  destruct (Rltb dc df && Rltb dc dn); [discriminate |].
  destruct (Rltb df dn); discriminate.
Qed.

(** A live lane keeps its particle in the classification pass, and gets the
    mean free path of its cell, its distance to the next facet and the tag
    selected from the three distances. *)
Lemma calc_event_live (K : Headers) (gnx pad xo yo : Z) (ex ey : list R)
    (p : Particle) (c : Cache) (l' : Lane) :
  p_dead p = false ->
  calc_event K gnx pad xo yo ex ey (p, c) = Ok l' ->
  exists df xf,
    calc_distance_to_facet (OPEN_BOUND_CORRECTION K) gnx (p_x p) (p_y p)
      pad xo yo (p_omega_x p) (p_omega_y p) (c_speed c) (p_cellx p) (p_celly p)
      ex ey = Ok (df, xf) /\
    fst l' = p /\
    c_cell_mfp (snd l') =
      1 / (c_macroscopic_cs_scatter c + c_macroscopic_cs_absorb c) /\
    c_distance_to_facet (snd l') = df /\
    c_x_facet (snd l') = xf /\
    c_next_event (snd l') =
      select_event
        (p_mfp_to_collision p *
         (1 / (c_macroscopic_cs_scatter c + c_macroscopic_cs_absorb c)))
        df (c_speed c * p_dt_to_census p) /\
    c_speed (snd l') = c_speed c /\
    c_macroscopic_cs_scatter (snd l') = c_macroscopic_cs_scatter c /\
    c_macroscopic_cs_absorb (snd l') = c_macroscopic_cs_absorb c /\
    c_microscopic_cs_scatter (snd l') = c_microscopic_cs_scatter c /\
    c_microscopic_cs_absorb (snd l') = c_microscopic_cs_absorb c /\
    c_local_density (snd l') = c_local_density c /\
    c_key (snd l') = c_key c.
Proof.
  intros Hlive H. unfold calc_event in H. rewrite Hlive in H.
  destruct (calc_distance_to_facet _ _ _ _ _ _ _ _ _ _ _ _ _ _)
    as [[df xf] | | |]; simpl in H; try discriminate.
  injection H as <-. exists df, xf. simpl. repeat split; reflexivity.
Qed.

Lemma calc_event_sample :
  calc_event sample_headers 1 0 0 0 [0; 1] [0; 1] (sample_particle, sample_cache)
  = Ok (sample_particle, sample_cache_classified).
Proof.
  unfold calc_event, calc_distance_to_facet, facet_times, select_event,
    sample_cache_classified. simpl.
  Rcompare. simpl. Rcompare. simpl. Rcompare. simpl.
  reflexivity.
Qed.



Lemma calc_event_census_tie :
  calc_event sample_headers 1 0 0 0 [0; 1] [0; 1]
    (census_tie_particle, sample_cache)
  = Ok (census_tie_particle, census_tie_cache_classified).
Proof.
  unfold calc_event, calc_distance_to_facet, facet_times, select_event,
    census_tie_cache_classified. simpl.
  Rcompare. simpl. Rcompare. simpl. Rcompare. simpl.
  reflexivity.
Qed.


(** ** The distance to the next facet *)

(** C6 (amended).  When the two axis travel times are equal, the crossing is
    reported as a y-facet crossing ([x_facet = 0]), the distance being
    [dt_y * speed]: [x_facet] is [dt_x < dt_y]. *)
Theorem calc_distance_to_facet_tie (obc : R) (gnx : Z) (x y : R)
    (pad xo yo : Z) (ox oy speed : R) (cx cy : Z) (ex ey : list R)
    (dt_x dt_y : R) :
  facet_times obc x y pad xo yo ox oy speed cx cy ex ey = Ok (dt_x, dt_y) ->
  dt_x = dt_y ->
  calc_distance_to_facet obc gnx x y pad xo yo ox oy speed cx cy ex ey
  = Ok (dt_y * speed, false).
Proof.
  intros H Heq. unfold calc_distance_to_facet. rewrite H. simpl.
  rewrite Rltb_false by lra. reflexivity.
Qed.

Lemma facet_times_diagonal :
  facet_times (1 / 100000000000000) (1 / 2) (1 / 2) 0 0 0 1 1 1 0 0
    [0; 1] [0; 1]
  = Ok ((1 - 1 / 2) * (1 / (1 * 1)), (1 - 1 / 2) * (1 / (1 * 1))).
Proof. unfold facet_times. simpl. Rcompare. reflexivity. Qed.

Lemma calc_distance_to_facet_tie_witness :
  calc_distance_to_facet (1 / 100000000000000) 1 (1 / 2) (1 / 2) 0 0 0
    1 1 1 0 0 [0; 1] [0; 1]
  = Ok ((1 - 1 / 2) * (1 / (1 * 1)) * 1, false).
Proof.
  apply (calc_distance_to_facet_tie _ 1 _ _ _ _ _ _ _ _ _ _ _ _ _ _
           facet_times_diagonal eq_refl).
Defined.

(** C6, as stated, fails: with equal travel times along the two axes the
    flag is not set. *)
Lemma calc_distance_to_facet_tie_not_x :
  exists dt_x dt_y d,
    facet_times (1 / 100000000000000) (1 / 2) (1 / 2) 0 0 0 1 1 1 0 0
      [0; 1] [0; 1] = Ok (dt_x, dt_y) /\
    dt_x = dt_y /\
    calc_distance_to_facet (1 / 100000000000000) 1 (1 / 2) (1 / 2) 0 0 0
      1 1 1 0 0 [0; 1] [0; 1] = Ok (d, false).
Proof.
  do 3 eexists. split; [apply facet_times_diagonal |]. split; [reflexivity |].
  unfold calc_distance_to_facet. rewrite facet_times_diagonal. simpl.
  rewrite Rltb_false by lra. reflexivity.
Qed.

Lemma cell_index_split (gnx cx cy : Z) :
  (0 <= cx < gnx)%Z -> (0 <= cy)%Z ->
  Z.rem (cy * gnx + cx) gnx = cx /\ Z.quot (cy * gnx + cx) gnx = cy.
Proof.
  intros Hx Hy.
  assert (0 <= cy * gnx + cx)%Z by nia.
  rewrite Z.rem_mod_nonneg, Z.quot_div_nonneg by lia.
  split.
  - rewrite Z.add_comm, Z.mod_add by lia. apply Z.mod_small. lia.
  - rewrite Z.add_comm, Z.div_add by lia. rewrite Z.div_small by lia. lia.
Qed.

(** In exact arithmetic, for a direction whose two components are both
    non-zero, the two variants of [calc_distance_to_facet] return the same
    distance and the same flag (and fail on the same edge reads), the
    combined cell index of bright.c being [celly * global_nx + cellx] and its
    [PAD] being [pad]: the formulas differ by the test of the sign of the
    direction only. *)
Lemma calc_distance_to_facet_variants_agree (obc : R) (gnx : Z) (x y : R)
    (pad xo yo : Z) (ox oy speed : R) (cx cy : Z) (ex ey : list R) :
  (0 <= cx < gnx)%Z -> (0 <= cy)%Z -> ox <> 0 -> oy <> 0 ->
  Bright.calc_distance_to_facet obc pad gnx x y xo yo ox oy speed
    (cy * gnx + cx) ex ey
  = calc_distance_to_facet obc gnx x y pad xo yo ox oy speed cx cy ex ey.
Proof.
  intros Hx Hy Hox Hoy.
  destruct (cell_index_split gnx cx cy Hx Hy) as [Hrem Hquot].
  unfold Bright.calc_distance_to_facet, calc_distance_to_facet, facet_times.
  rewrite Hrem, Hquot. simpl.
  rewrite (Rgeb_Rgtb ox Hox), (Rgeb_Rgtb oy Hoy).
  destruct (Rgtb ox 0); destruct (Rgtb oy 0);
    repeat match goal with
    | |- context [read ?a ?i] => destruct (read a i); simpl; try reflexivity
    end;
    match goal with
    | |- context [Rltb ?a ?b] => destruct (Rltb a b); simpl
    end;
    f_equal; f_equal; unfold Rdiv; ring.
Qed.

(** C8.  The two variants of [calc_distance_to_facet] are not equivalent:
    in binary64 arithmetic, for the unit direction [(0, 1)] in the unit cell,
    [OPEN_BOUND_CORRECTION] being the double nearest to 1e-14,
    [1 / (omega_x * speed)] is infinite; neutral.c tests [omega_x >= 0] and
    reports a y-facet at distance [0.5], bright.c tests [omega_x > 0] and
    reports an x-facet at distance minus infinity. *)
Theorem calc_distance_to_facet_variants_differ :
  (0 * 0 + 1 * 1 =? 1)%float = true /\
  calc_distance_to_facet 0x1.6849b86a12b9bp-47%float 1 0.5%float 0.5%float 0 0 0
    0%float 1%float 1%float 0 0 [0%float; 1%float] [0%float; 1%float]
  = Ok (0.5%float, false) /\
  Bright.calc_distance_to_facet 0x1.6849b86a12b9bp-47%float 0 1 0.5%float 0.5%float 0 0
    0%float 1%float 1%float (0 * 1 + 0) [0%float; 1%float] [0%float; 1%float]
  = Ok (neg_infinity, true).
Proof. repeat split; vm_compute; reflexivity. Qed.

(** The two variants also multiply in another order, [dt * speed] against
    [(edge - x) * speed * u_inv]: in binary64 arithmetic the distances can
    differ in the last bit for a direction without a zero component, here
    [(0.6, 0.8)] at speed 3 from [x = 0.7]. *)
Lemma calc_distance_to_facet_variants_round :
  calc_distance_to_facet 0x1.6849b86a12b9bp-47%float 1 0x1.6666666666666p-1%float
    0.5%float 0 0 0 0x1.3333333333333p-1%float 0x1.999999999999ap-1%float
    3%float 0 0 [0%float; 1%float] [0%float; 1%float]
  = Ok (0.5%float, true) /\
  Bright.calc_distance_to_facet 0x1.6849b86a12b9bp-47%float 0 1
    0x1.6666666666666p-1%float 0.5%float 0 0 0x1.3333333333333p-1%float
    0x1.999999999999ap-1%float 3%float (0 * 1 + 0) [0%float; 1%float]
    [0%float; 1%float]
  = Ok (0x1.0000000000001p-1%float, true).
Proof. split; vm_compute; reflexivity. Qed.

(** ** Crossing a facet *)

(** C2.  What [facet_event] does in the cells next to the mesh boundary, on
    a mesh of 4 by 4 cells: a particle of cell 0 that crosses an x-facet
    while moving right (towards cell 1) has its direction negated and stays
    in cell 0; a particle of cell 3 (the last one) moving right has its
    direction negated and is moved to cell 2; a particle of cell 0 moving
    left has its direction negated and is moved to cell 1.  In an inner
    cell the direction is kept and the cell index follows its sign.  The
    same holds along y. *)
Theorem facet_cross_at_boundary_cells :
  facet_cross 4 4 true 1 0 0 0 = (-1, 0, 0%Z, 0%Z) /\
  facet_cross 4 4 true 1 0 3 0 = (-1, 0, 2%Z, 0%Z) /\
  facet_cross 4 4 true (-1) 0 0 0 = (1, 0, 1%Z, 0%Z) /\
  facet_cross 4 4 true 1 0 1 0 = (1, 0, 2%Z, 0%Z) /\
  facet_cross 4 4 true (-1) 0 2 0 = (-1, 0, 1%Z, 0%Z) /\
  facet_cross 4 4 false 0 1 0 0 = (0, -1, 0%Z, 0%Z) /\
  facet_cross 4 4 false 0 1 0 3 = (0, -1, 0%Z, 2%Z) /\
  facet_cross 4 4 false 0 (-1) 0 0 = (0, 1, 0%Z, 1%Z) /\
  facet_cross 4 4 false 0 1 0 1 = (0, 1, 0%Z, 2%Z).
Proof.
  assert (Hopp : - -1 = 1) by lra.
  unfold facet_cross; simpl. rewrite Hopp.
  repeat split; Rcompare; simpl; Rcompare; reflexivity.
Qed.

(** In an inner cell the direction is kept and the cell index is stepped by
    its sign. *)
Lemma facet_cross_inner_x (gnx gny : Z) (ox oy : R) (cx cy : Z) :
  (0 < cx < gnx - 1)%Z ->
  facet_cross gnx gny true ox oy cx cy
  = (ox, oy,
     if Rgtb ox 0 then (cx + 1)%Z else if Rltb ox 0 then (cx - 1)%Z else cx,
     cy).
Proof.
  intros H. unfold facet_cross. rewrite Z.geb_leb, !Z.gtb_ltb.
  destruct (Z.leb_spec (gnx - 1) cx); [exfalso; lia |].
  destruct (Z.leb_spec cx 0); [exfalso; lia |].
  destruct (Z.ltb_spec cx (gnx - 1)); [| exfalso; lia].
  simpl. destruct (Rlt_dec 0 ox).
  - rewrite Rgtb_true, Rltb_false by lra. simpl. f_equal; f_equal; lia.
  - rewrite Rgtb_false by lra. simpl. destruct (Rlt_dec ox 0).
    + rewrite Rltb_true by lra. simpl.
      destruct (Z.ltb_spec 0 (cx + 0)); [| exfalso; lia]. f_equal; f_equal; lia.
    + rewrite Rltb_false by lra. simpl. f_equal; f_equal; lia.
Qed.

(** In a cell next to the boundary the direction is negated, whatever its
    sign. *)
Lemma facet_cross_edge_x (gnx gny : Z) (ox oy : R) (cx cy : Z) :
  (cx <= 0 \/ gnx - 1 <= cx)%Z ->
  fst (fst (fst (facet_cross gnx gny true ox oy cx cy))) = - ox.
Proof.
  intros H. unfold facet_cross. rewrite Z.geb_leb.
  destruct (Z.leb_spec (gnx - 1) cx); [reflexivity |].
  destruct (Z.leb_spec cx 0); [reflexivity |]. exfalso; lia.
Qed.

(** ** The blocks a time step works on *)

Lemma thread_blocks_spec (nthreads nb tid b : Z) :
  In b (thread_blocks nthreads nb tid) <->
  (tid * Z.quot nb nthreads <= b < tid * Z.quot nb nthreads + Z.quot nb nthreads)%Z.
Proof.
  unfold thread_blocks. rewrite in_map_iff. split.
  - intros (k & <- & Hk). apply in_seq in Hk. lia.
  - intros H. exists (Z.to_nat (b - tid * Z.quot nb nthreads)). split; [lia |].
    apply in_seq. lia.
Qed.

(** X3.  For a positive number of threads and [n] particles to process, the
    blocks that the parallel region works on are the first
    [nthreads * ((n / BLOCK_SIZE) / nthreads)] ones: the
    [(n / BLOCK_SIZE) mod nthreads] last blocks are left out. *)
Theorem processed_blocks_spec (K : Headers) (nthreads n b : Z) :
  (0 < nthreads)%Z ->
  In b (processed_blocks K nthreads n) <->
  (0 <= b < nthreads * Z.quot (Z.quot n (BLOCK_SIZE K)) nthreads)%Z.
Proof.
  intros Hn. unfold processed_blocks. rewrite in_flat_map.
  set (q := Z.quot (Z.quot n (BLOCK_SIZE K)) nthreads). split.
  - intros (tid & Htid & Hb). apply in_map_iff in Htid.
    destruct Htid as (k & <- & Hk). apply in_seq in Hk.
    apply thread_blocks_spec in Hb. fold q in Hb. nia.
  - intros Hb. assert (Hq : (0 < q)%Z) by nia.
    exists (b / q)%Z. split.
    + apply in_map_iff. exists (Z.to_nat (b / q)).
      assert (0 <= b / q < nthreads)%Z.
      { split; [apply Z.div_pos; lia |]. apply Z.div_lt_upper_bound; lia. }
      split; [lia |]. apply in_seq. lia.
    + apply thread_blocks_spec. fold q.
      pose proof (Z.mul_div_le b q Hq).
      pose proof (Z.mul_succ_div_gt b q Hq). lia.
Qed.

Lemma processed_blocks_spec_witness :
  In 1%Z (processed_blocks sample_headers 2 6) <->
  (0 <= 1 < 2 * Z.quot (Z.quot 6 (BLOCK_SIZE sample_headers)) 2)%Z.
Proof. apply (processed_blocks_spec sample_headers 2 6 1). lia. Defined.

(** C3.  With two threads and three blocks (of two lanes), the parallel
    region works on blocks 0 and 1: block 2, the remainder of the division
    of the blocks among the threads, is worked on by no thread. *)
Theorem processed_blocks_misses_remainder :
  Z.quot 6 (BLOCK_SIZE sample_headers) = 3%Z /\
  processed_blocks sample_headers 2 6 = [0%Z; 1%Z] /\
  ~ In 2%Z (processed_blocks sample_headers 2 6).
Proof.
  assert (H : processed_blocks sample_headers 2 6 = [0%Z; 1%Z]) by reflexivity.
  rewrite H. repeat split. simpl. intros [E | [E | []]]; discriminate.
Qed.

(** A block that is worked on by no thread is returned as it was. *)
Lemma store_block_other (ps ps' : list (list Particle)) (n : nat)
    (blk : list Particle) (b : Z) :
  store_block ps n blk = Ok ps' -> b <> Z.of_nat n -> read ps' b = read ps b.
Proof.
  revert ps' n b. induction ps as [| h t IH]; intros ps' [| n] b H Hb;
    simpl in H; try discriminate.
  - injection H as <-. unfold read. destruct (Z.ltb_spec b 0); [reflexivity |].
    destruct (Z.to_nat b) eqn:E; [lia | reflexivity].
  - destruct (store_block t n blk) as [t' | | |] eqn:E; simpl in H;
      try discriminate.
    injection H as <-. destruct (Z.ltb_spec b 0) as [Hneg | Hpos].
    + unfold read. destruct (Z.ltb_spec b 0); [reflexivity | lia].
    + destruct (Z.eq_dec b 0) as [-> | Hne]; [reflexivity |].
      rewrite !read_cons_pos by lia. apply (IH t' n); [assumption | lia].
Qed.

Lemma thread_loop_frame (K : Headers) (n fuel : nat) (m : Problem)
    (found : positive) (initial : bool) (dt : R) (bids : list Z)
    (cache : list Cache) (sh sh' : Shared) (b : Z) :
  thread_loop K n fuel m found initial dt bids cache sh = Ok sh' ->
  ~ In b bids ->
  read (particles sh') b = read (particles sh) b.
Proof.
  revert cache sh. induction bids as [| bid rest IH]; intros cache sh H Hb;
    simpl in H.
  - injection H as <-. reflexivity.
  - destruct (read (particles sh) bid) as [blk | | |] eqn:Eb; simpl in H;
      try discriminate.
    destruct (handle_block _ _ _ _ _ _ _ _ _ _ _ _ _) as [[st np] | | |];
      simpl in H; try discriminate.
    destruct (store_block _ _ _) as [ps1 | | |] eqn:Es; simpl in H;
      try discriminate.
    apply IH in H; [| intros Hin; apply Hb; right; exact Hin].
    rewrite H. simpl. apply (store_block_other _ _ _ _ _ Es).
    apply read_Ok_range in Eb. intros ->. apply Hb. left. lia.
Qed.

Lemma run_threads_frame (K : Headers) (n fuel : nat) (m : Problem)
    (found : positive) (initial : bool) (dt : R) (nthreads nb : Z)
    (cache0 : Z -> list Cache) (tids : list Z) (sh sh' : Shared) (b : Z) :
  run_threads K n fuel m found initial dt nthreads nb cache0 tids sh = Ok sh' ->
  ~ In b (flat_map (thread_blocks nthreads nb) tids) ->
  read (particles sh') b = read (particles sh) b.
Proof.
  revert sh. induction tids as [| tid rest IH]; intros sh H Hb; simpl in H.
  - injection H as <-. reflexivity.
  - destruct (thread_loop _ _ _ _ _ _ _ _ _ _) as [sh1 | | |] eqn:E;
      simpl in H; try discriminate.
    simpl in Hb. rewrite in_app_iff in Hb.
    apply IH in H; [| intros Hin; apply Hb; right; exact Hin].
    rewrite H. apply (thread_loop_frame _ _ _ _ _ _ _ _ _ _ _ _ E).
    intros Hin. apply Hb. left. exact Hin.
Qed.

Lemma handle_particles_frame (K : Headers) (n fuel : nat) (m : Problem)
    (found : positive) (initial : bool) (dt : R) (nthreads : Z)
    (cache0 : Z -> list Cache) (nparticles : Z)
    (ps ps' : list (list Particle)) (t t' : list R) (nf nc nf' nc' b : Z) :
  handle_particles K n fuel m found initial dt nthreads cache0 nparticles
    ps t nf nc = Ok (ps', t', nf', nc') ->
  ~ In b (processed_blocks K nthreads nparticles) ->
  read ps' b = read ps b.
Proof.
  unfold handle_particles, processed_blocks. intros H Hb.
  destruct (run_threads _ _ _ _ _ _ _ _ _ _ _) as [sh | | |] eqn:E;
    simpl in H; try discriminate.
  injection H as <- _ _ _.
  exact (run_threads_frame _ _ _ _ _ _ _ _ _ _ _ _ _ _ E Hb).
Qed.

(** ** Fatal termination *)

Lemma bind_not_terminated {A B : Type} (m : result A) (k : A -> result B) :
  not_terminated m -> (forall a, not_terminated (k a)) ->
  not_terminated (bind m k).
Proof.
  unfold not_terminated. intros Hm Hk. destruct m; simpl; auto; discriminate.
Qed.

Lemma Ok_not_terminated {A : Type} (a : A) : not_terminated (Ok a).
Proof. discriminate. Qed.

Lemma Undefined_not_terminated {A : Type} : not_terminated (@Undefined A).
Proof. discriminate. Qed.

Lemma Timeout_not_terminated {A : Type} : not_terminated (@Timeout A).
Proof. discriminate. Qed.

Create HintDb nt.
#[local] Hint Resolve Ok_not_terminated Undefined_not_terminated
  Timeout_not_terminated : nt.

(** Walks through a computation, leaving the calls to the hints. *)
Ltac not_term :=
  repeat first
    [ progress intros
    | solve [auto with nt]
    | apply bind_not_terminated
    | match goal with
      | |- not_terminated (if ?b then _ else _) => destruct b
      | |- not_terminated (match ?x with _ => _ end) => destruct x
      end ].

Lemma read_not_terminated {A : Type} (a : list A) (i : Z) :
  not_terminated (read a i).
Proof. unfold read. not_term. Qed.
#[local] Hint Resolve read_not_terminated : nt.

Lemma add_at_not_terminated (a : list R) (n : nat) (v : R) :
  not_terminated (add_at a n v).
Proof.
  revert n. induction a as [| h t IH]; intros [| n]; simpl; not_term.
Qed.
#[local] Hint Resolve add_at_not_terminated : nt.

Lemma update_tallies_not_terminated (nx xo yo : Z) (inv ed : R) (t : list R)
    (cx cy : Z) :
  not_terminated (update_tallies nx xo yo inv ed t cx cy).
Proof. unfold update_tallies. not_term. Qed.
#[local] Hint Resolve update_tallies_not_terminated : nt.

Lemma cs_search_not_terminated (fuel : nat) (ks : list R) (e : R) (ind w : Z) :
  not_terminated (cs_search fuel ks e ind w).
Proof.
  revert ind w. induction fuel as [| f IH]; intros; simpl; not_term.
Qed.
#[local] Hint Resolve cs_search_not_terminated : nt.

Lemma microscopic_cs_not_terminated (fuel : nat) (cs : CrossSection) (e : R) :
  not_terminated (microscopic_cs_for_energy_binary fuel cs e).
Proof. unfold microscopic_cs_for_energy_binary. not_term. Qed.
#[local] Hint Resolve microscopic_cs_not_terminated : nt.

Lemma calc_distance_to_facet_not_terminated (obc : R) (gnx : Z) (x y : R)
    (pad xo yo : Z) (ox oy speed : R) (cx cy : Z) (ex ey : list R) :
  not_terminated
    (calc_distance_to_facet obc gnx x y pad xo yo ox oy speed cx cy ex ey).
Proof. unfold calc_distance_to_facet, facet_times. not_term. Qed.
#[local] Hint Resolve calc_distance_to_facet_not_terminated : nt.

Lemma calc_event_lane_not_terminated (K : Headers) (gnx pad xo yo : Z)
    (ex ey : list R) (s : Z * Z * Z) (l : Lane) :
  not_terminated (calc_event_lane K gnx pad xo yo ex ey s l).
Proof. unfold calc_event_lane, calc_event. not_term. Qed.
#[local] Hint Resolve calc_event_lane_not_terminated : nt.

Lemma collision_event_not_terminated (K : Headers) (fuel : nat)
    (nx xo yo : Z) (inv dc ld : R) (cs ca : CrossSection) (ctr mk : Z)
    (t : list R) (l : Lane) :
  not_terminated (collision_event K fuel nx xo yo inv dc ld cs ca ctr mk t l).
Proof. unfold collision_event. not_term. Qed.

Lemma collision_lane_not_terminated (K : Headers) (fuel : nat)
    (nx xo yo : Z) (inv : R) (cs ca : CrossSection) (ctr mk : Z)
    (t : list R) (l : Lane) :
  not_terminated (collision_lane K fuel nx xo yo inv cs ca ctr mk t l).
Proof.
  unfold collision_lane. not_term. apply collision_event_not_terminated.
Qed.
#[local] Hint Resolve collision_lane_not_terminated : nt.

Lemma facet_lane_not_terminated (K : Headers) (gnx gny nx xo yo : Z) (inv : R)
    (dens t : list R) (l : Lane) :
  not_terminated (facet_lane K gnx gny nx xo yo inv dens t l).
Proof. unfold facet_lane, facet_event. not_term. Qed.
#[local] Hint Resolve facet_lane_not_terminated : nt.

Lemma census_lane_not_terminated (K : Headers) (nx xo yo : Z) (inv : R)
    (t : list R) (l : Lane) :
  not_terminated (census_lane K nx xo yo inv t l).
Proof. unfold census_lane, census_event. not_term. Qed.
#[local] Hint Resolve census_lane_not_terminated : nt.

Lemma init_lane_not_terminated (K : Headers) (fuel : nat) (nx pad xo yo : Z)
    (initial : bool) (dt : R) (dens : list R) (cs ca : CrossSection)
    (mk ctr bid : Z) (s : Z * Z) (l : Lane) :
  not_terminated (init_lane K fuel nx pad xo yo initial dt dens cs ca mk ctr bid s l).
Proof. unfold init_lane. not_term. Qed.
#[local] Hint Resolve init_lane_not_terminated : nt.

Lemma for_lanes_not_terminated {S : Type}
    (body : S -> Lane -> result (Lane * S)) (s : S) (ls : list Lane) :
  (forall s l, not_terminated (body s l)) ->
  not_terminated (for_lanes body s ls).
Proof.
  intros Hbody. revert s. induction ls as [| l ls IH]; intros; simpl; not_term.
Qed.

(** The check made after the collision pass tests the address of the array
    [found]: it passes whatever the lookups of the pass have done. *)
Lemma check_found_passes (n : nat) (a : positive) :
  check_found n (Address a) = Ok tt.
Proof. induction n as [| n IH]; simpl; auto. Qed.

Lemma outer_iteration_not_terminated (K : Headers) (fuel : nat) (m : Problem)
    (found : positive) (st : BlockState) :
  not_terminated (outer_iteration K fuel m found st).
Proof.
  unfold outer_iteration. rewrite check_found_passes.
  not_term; apply for_lanes_not_terminated; auto with nt.
Qed.
#[local] Hint Resolve outer_iteration_not_terminated : nt.

Lemma event_loop_not_terminated (K : Headers) (n fuel : nat) (m : Problem)
    (found : positive) (st : BlockState) :
  not_terminated (event_loop K n fuel m found st).
Proof.
  revert st. induction n as [| n IH]; intros; simpl; not_term.
Qed.
#[local] Hint Resolve event_loop_not_terminated : nt.

Lemma handle_block_not_terminated (K : Headers) (n fuel : nat) (m : Problem)
    (found : positive) (initial : bool) (dt : R) (bid : Z) (t : list R)
    (nf nc np : Z) (ls : list Lane) :
  not_terminated (handle_block K n fuel m found initial dt bid t nf nc np ls).
Proof.
  unfold handle_block, init_block.
  not_term; apply for_lanes_not_terminated; auto with nt.
Qed.
#[local] Hint Resolve handle_block_not_terminated : nt.

Lemma store_block_not_terminated (ps : list (list Particle)) (n : nat)
    (b : list Particle) :
  not_terminated (store_block ps n b).
Proof.
  revert n. induction ps as [| h t IH]; intros [| n]; simpl; not_term.
Qed.
#[local] Hint Resolve store_block_not_terminated : nt.

Lemma thread_loop_not_terminated (K : Headers) (n fuel : nat) (m : Problem)
    (found : positive) (initial : bool) (dt : R) (bids : list Z)
    (cache : list Cache) (sh : Shared) :
  not_terminated (thread_loop K n fuel m found initial dt bids cache sh).
Proof.
  revert cache sh. induction bids as [| b bs IH]; intros; simpl; not_term.
Qed.
#[local] Hint Resolve thread_loop_not_terminated : nt.

Lemma run_threads_not_terminated (K : Headers) (n fuel : nat) (m : Problem)
    (found : positive) (initial : bool) (dt : R) (nthreads nb : Z)
    (cache0 : Z -> list Cache) (tids : list Z) (sh : Shared) :
  not_terminated
    (run_threads K n fuel m found initial dt nthreads nb cache0 tids sh).
Proof.
  revert sh. induction tids as [| t ts IH]; intros; simpl; not_term.
Qed.
#[local] Hint Resolve run_threads_not_terminated : nt.

(** C4.  No call of [solve_transport_2d] ends in the fatal termination of
    the [found] check, whatever the particles, the tables and the outcome of
    the lookups of the collision pass: the check can never fire. *)
Theorem solve_transport_2d_never_terminated (K : Headers) (n fuel : nat)
    (m : Problem) (found : positive) (dt : R) (nthreads : Z)
    (cache0 : Z -> list Cache) (nparticles : Z)
    (particles0 : list (list Particle)) (tally0 : list R) (nf nc : Z) :
  solve_transport_2d K n fuel m found dt nthreads cache0 nparticles
    particles0 tally0 nf nc <> Terminated.
Proof.
  change (not_terminated
            (solve_transport_2d K n fuel m found dt nthreads cache0 nparticles
               particles0 tally0 nf nc)).
  unfold solve_transport_2d, handle_particles. not_term.
Qed.

(** An iteration in which the lookup fails.  The live lane collides and
    scatters; its new energy, 9951/10201, is below the first key of the
    table, 1; the search of the table then reads outside the array: the
    iteration has no defined outcome, and is not a fatal termination. *)
Lemma outer_iteration_lookup_below_table :
  outer_iteration sample_headers 10 sample_problem 1%positive colliding_state
  = Undefined.
Proof.
  unfold outer_iteration, colliding_state, colliding_lane, dead_lane.
  cbn [lanes counter tally nfacets ncollisions for_lanes].
  unfold calc_event_lane, calc_event, calc_distance_to_facet, facet_times,
    select_event.
  simpl. Rcompare. simpl. Rcompare. simpl.
  unfold collision_lane, collision_event, generate_random_numbers. simpl.
  Rcompare. simpl.
  unfold microscopic_cs_for_energy_binary. simpl.
  Rcompare. simpl. Rcompare. simpl. Rcompare. simpl.
  reflexivity.
Qed.

(** ** The cross-section lookup *)

Ltac zdiv := Z.to_euclidean_division_equations; lia.

(** The search stops only at an index that brackets the energy. *)
Lemma cs_search_brackets (fuel : nat) (ks : list R) (e : R) (ind w i : Z) :
  cs_search fuel ks e ind w = Ok i ->
  exists k0 k1,
    read ks i = Ok k0 /\ read ks (i + 1) = Ok k1 /\ k0 <= e < k1.
Proof.
  revert ind w. induction fuel as [| f IH]; intros ind w H; simpl in H;
    [discriminate |].
  destruct (read ks ind) as [k | | |] eqn:Ek; simpl in H; try discriminate.
  destruct (Rlt_dec e k) as [Hlt | Hge].
  - rewrite (Rltb_true _ _ Hlt) in H. simpl in H. eauto.
  - rewrite Rltb_false in H by lra. simpl in H.
    destruct (read ks (ind + 1)) as [k1 | | |] eqn:Ek1; simpl in H;
      try discriminate.
    destruct (Rlt_dec e k1) as [Hlt1 | Hge1].
    + rewrite Rgeb_false in H by lra. injection H as <-.
      exists k, k1. repeat split; auto; lra.
    + rewrite Rgeb_true in H by lra. eauto.
Qed.

Section Search.
Variable ks : list R.
Variable e : R.
Variable t : Z.
Variables kt kt1 : R.
Hypothesis Hinc : strictly_increasing ks.
Hypothesis Ht : read ks t = Ok kt.
Hypothesis Ht1 : read ks (t + 1) = Ok kt1.
Hypothesis Hbr : kt <= e < kt1.

Let N : Z := Z.of_nat (length ks).

Lemma key_above_iff (i : Z) (k : R) : read ks i = Ok k -> (e < k <-> (t < i)%Z).
Proof.
  intros Hi. split; intros H.
  - destruct (Z.lt_ge_cases t i) as [| Hle]; [assumption |]. exfalso.
    destruct (Z.eq_dec i t) as [-> | Hne].
    + rewrite Ht in Hi. injection Hi as <-. lra.
    + assert (k < kt) by (apply (Hinc i t); auto; lia). lra.
  - destruct (Z.eq_dec i (t + 1)) as [-> | Hne].
    + rewrite Ht1 in Hi. injection Hi as <-. lra.
    + assert (kt1 < k) by (apply (Hinc (t + 1)%Z i); auto; lia). lra.
Qed.

Lemma cs_search_reaches (fuel : nat) (ind w : Z) :
  (0 <= w)%Z ->
  (jump_room w <= ind)%Z -> (ind + jump_room w <= N - 1)%Z ->
  (search_measure N t ind w < Z.of_nat fuel)%Z ->
  cs_search fuel ks e ind w = Ok t.
Proof.
  pose proof (read_Ok_range _ _ _ Ht) as Rt.
  pose proof (read_Ok_range _ _ _ Ht1) as Rt1. fold N in Rt, Rt1.
  revert ind w. induction fuel as [| f IH]; intros ind w Hw Hlo Hhi Hm.
  - unfold search_measure in Hm. destruct (Z.eqb_spec w 1); lia.
  - assert (Hind : (0 <= ind < N)%Z).
    { unfold jump_room in Hlo, Hhi. destruct (Z.leb_spec w 1); lia. }
    destruct (read_in_range ks ind Hind) as [k Hk].
    simpl. rewrite Hk. simpl.
    pose proof (key_above_iff ind k Hk) as Habove.
    assert (Hnext : forall ind',
      (if (w <=? 1)%Z then (Z.abs (ind' - t) < Z.abs (ind - t) \/ w = 0 /\ ind' = ind)
                           /\ 0 <= ind' < N
       else ind - w <= ind' <= ind + w)%Z ->
      cs_search f ks e ind' (Z.max 1 (Z.quot w 2)) = Ok t).
    { intros ind' Hstep. apply IH.
      - lia.
      - unfold jump_room in *.
        destruct (Z.leb_spec w 1); destruct (Z.leb_spec (Z.max 1 (Z.quot w 2)) 1);
          zdiv.
      - unfold jump_room in *.
        destruct (Z.leb_spec w 1); destruct (Z.leb_spec (Z.max 1 (Z.quot w 2)) 1);
          zdiv.
      - unfold search_measure, jump_room in *.
        destruct (Z.leb_spec w 1); destruct (Z.eqb_spec w 1);
          destruct (Z.eqb_spec (Z.max 1 (Z.quot w 2)) 1); zdiv. }
    destruct (Rlt_dec e k) as [Hlt | Hge].
    + rewrite (Rltb_true _ _ Hlt). simpl.
      apply Habove in Hlt. apply Hnext.
      destruct (Z.leb_spec w 1); lia.
    + rewrite Rltb_false by lra. simpl.
      assert (Hti : (ind <= t)%Z).
      { destruct (Z.lt_ge_cases t ind) as [H |]; [| lia].
        apply Habove in H. lra. }
      destruct (read_in_range ks (ind + 1)%Z) as [k1 Hk1]; [lia |].
      rewrite Hk1. simpl.
      pose proof (key_above_iff (ind + 1)%Z k1 Hk1) as Habove1.
      destruct (Rlt_dec e k1) as [Hlt1 | Hge1].
      * rewrite Rgeb_false by lra. apply Habove1 in Hlt1. f_equal. lia.
      * rewrite Rgeb_true by lra.
        assert (Hti1 : (ind + 1 <= t)%Z).
        { destruct (Z.lt_ge_cases t (ind + 1)) as [H |]; [| lia].
          apply Habove1 in H. lra. }
        apply Hnext. destruct (Z.leb_spec w 1); lia.
Qed.

End Search.

Lemma strictly_increasing_nil : strictly_increasing [].
Proof. intros i j ki kj _ H. apply read_Ok_range in H. simpl in H. lia. Qed.

Lemma strictly_increasing_cons (k : R) (ks : list R) :
  Forall (Rlt k) ks -> strictly_increasing ks -> strictly_increasing (k :: ks).
Proof.
  intros Hk Hks i j ki kj Hij Hi Hj.
  pose proof (read_Ok_range _ _ _ Hi) as Ri.
  rewrite read_cons_pos in Hj by lia.
  destruct (Z.eq_dec i 0) as [-> | Hne].
  - rewrite read_cons_0 in Hi. injection Hi as <-.
    apply (read_Forall _ _ _ _ Hk Hj).
  - rewrite read_cons_pos in Hi by lia.
    apply (Hks (i - 1)%Z (j - 1)%Z); auto; lia.
Qed.

(** Between a key that is at most [e] and a later key that is above [e]
    there are two neighbours that bracket [e]. *)
Lemma bracket_exists (ks : list R) (e kfirst klast : R) :
  read ks 0 = Ok kfirst ->
  read ks (Z.of_nat (length ks) - 1) = Ok klast ->
  kfirst <= e < klast ->
  exists t kt kt1,
    read ks t = Ok kt /\ read ks (t + 1) = Ok kt1 /\ kt <= e < kt1.
Proof.
  intros H0 Hlast He.
  assert (Hwalk : forall n : nat,
    (Z.of_nat n < Z.of_nat (length ks))%Z ->
    (exists t kt kt1,
       read ks t = Ok kt /\ read ks (t + 1) = Ok kt1 /\ kt <= e < kt1) \/
    (exists k, read ks (Z.of_nat n) = Ok k /\ k <= e)).
  { induction n as [| n IH]; intros Hn.
    - right. exists kfirst. split; [assumption | lra].
    - destruct IH as [IH | [k [Hk Hke]]]; [lia | left; assumption |].
      destruct (read_in_range ks (Z.of_nat (S n))) as [k' Hk']; [lia |].
      destruct (Rlt_dec e k') as [Hlt | Hge].
      + left. exists (Z.of_nat n), k, k'. repeat split; auto.
        replace (Z.of_nat n + 1)%Z with (Z.of_nat (S n)) by lia. assumption.
      + right. exists k'. split; [assumption | lra]. }
  pose proof (read_Ok_range _ _ _ Hlast) as Rl.
  destruct (Hwalk (Z.to_nat (Z.of_nat (length ks) - 1))) as [H | [k [Hk Hke]]];
    [lia | assumption |].
  rewrite Z2Nat.id in Hk by lia. rewrite Hlast in Hk. injection Hk as <-. lra.
Qed.

(** C7.  For a table of [nentries] strictly increasing keys and an energy
    [e] with [keys[0] <= e < keys[nentries-1]], the lookup, given fuel for
    [2 * nentries] iterations, returns: the search, started at index
    [nentries/2] with stride [(nentries/2)/2] (the stride being halved, and
    kept at least 1, in [cs_search]), ends at an index [i] with
    [keys[i] <= e < keys[i+1]], and the value is
    [values[i] + ((e - keys[i]) / (keys[i+1] - keys[i])) * (values[i+1] - values[i])]. *)
Theorem microscopic_cs_for_energy_binary_finds (cs : CrossSection)
    (e kfirst klast : R) (fuel : nat) :
  nentries cs = Z.of_nat (length (keys cs)) ->
  length (values cs) = length (keys cs) ->
  strictly_increasing (keys cs) ->
  read (keys cs) 0 = Ok kfirst ->
  read (keys cs) (nentries cs - 1) = Ok klast ->
  kfirst <= e < klast ->
  (2 * nentries cs <= Z.of_nat fuel)%Z ->
  exists i k0 k1 v0 v1,
    cs_search fuel (keys cs) e (Z.quot (nentries cs) 2)
      (Z.quot (Z.quot (nentries cs) 2) 2) = Ok i /\
    read (keys cs) i = Ok k0 /\ read (keys cs) (i + 1) = Ok k1 /\
    k0 <= e < k1 /\
    read (values cs) i = Ok v0 /\ read (values cs) (i + 1) = Ok v1 /\
    microscopic_cs_for_energy_binary fuel cs e
    = Ok (v0 + ((e - k0) / (k1 - k0)) * (v1 - v0), i).
Proof.
  intros HN Hlen Hinc H0 Hlast He Hfuel.
  rewrite HN in Hlast.
  destruct (bracket_exists _ _ _ _ H0 Hlast He) as (t & kt & kt1 & Ht & Ht1 & Hbr).
  pose proof (read_Ok_range _ _ _ Ht) as Rt.
  pose proof (read_Ok_range _ _ _ Ht1) as Rt1.
  assert (Hs : cs_search fuel (keys cs) e (Z.quot (nentries cs) 2)
                 (Z.quot (Z.quot (nentries cs) 2) 2) = Ok t).
  { apply (cs_search_reaches (keys cs) e t kt kt1 Hinc Ht Ht1 Hbr).
    - zdiv.
    - unfold jump_room.
      destruct (Z.leb_spec (Z.quot (Z.quot (nentries cs) 2) 2) 1); zdiv.
    - unfold jump_room.
      destruct (Z.leb_spec (Z.quot (Z.quot (nentries cs) 2) 2) 1); zdiv.
    - unfold search_measure.
      destruct (Z.eqb_spec (Z.quot (Z.quot (nentries cs) 2) 2) 1); zdiv. }
  destruct (read_in_range (values cs) t) as [v0 Hv0]; [rewrite Hlen; lia |].
  destruct (read_in_range (values cs) (t + 1)%Z) as [v1 Hv1]; [rewrite Hlen; lia |].
  exists t, kt, kt1, v0, v1. repeat split; try assumption; try lra.
  unfold microscopic_cs_for_energy_binary.
  rewrite Hs. simpl. rewrite Hv0, Ht, Ht1, Hv1. reflexivity.
Qed.

Lemma sample_table_increasing : strictly_increasing (keys sample_table).
Proof.
  simpl. repeat apply strictly_increasing_cons;
    try apply strictly_increasing_nil;
    repeat (constructor; try lra).
Qed.

Lemma microscopic_cs_for_energy_binary_finds_witness :
  exists i k0 k1 v0 v1,
    cs_search 10 (keys sample_table) (9 / 2) (Z.quot (nentries sample_table) 2)
      (Z.quot (Z.quot (nentries sample_table) 2) 2) = Ok i /\
    read (keys sample_table) i = Ok k0 /\
    read (keys sample_table) (i + 1) = Ok k1 /\
    k0 <= 9 / 2 < k1 /\
    read (values sample_table) i = Ok v0 /\
    read (values sample_table) (i + 1) = Ok v1 /\
    microscopic_cs_for_energy_binary 10 sample_table (9 / 2)
    = Ok (v0 + ((9 / 2 - k0) / (k1 - k0)) * (v1 - v0), i).
Proof.
  apply (microscopic_cs_for_energy_binary_finds sample_table (9 / 2) 1 5 10
           eq_refl eq_refl sample_table_increasing eq_refl eq_refl);
    [lra | simpl; lia].
Defined.

(** The lookup on the sample table: an energy inside the table is found in
    bin 3 after one step; for an energy below the first key the search walks
    off the table. *)
Lemma microscopic_cs_sample_inside :
  microscopic_cs_for_energy_binary 10 sample_table (9 / 2)
  = Ok (40 + ((9 / 2 - 4) / (5 - 4)) * (50 - 40), 3%Z).
Proof.
  unfold microscopic_cs_for_energy_binary. simpl.
  Rcompare. simpl. Rcompare. simpl. Rcompare. simpl. reflexivity.
Qed.

Lemma microscopic_cs_sample_below :
  microscopic_cs_for_energy_binary 10 sample_table (1 / 2) = Undefined.
Proof.
  unfold microscopic_cs_for_energy_binary. simpl.
  Rcompare. simpl. Rcompare. simpl. Rcompare. simpl. reflexivity.
Qed.

(** An energy outside the range of the keys is bracketed by no bin: the
    search never returns an index for it. *)
Lemma cs_search_outside_range (fuel : nat) (ks : list R) (e kfirst klast : R)
    (ind w i : Z) :
  strictly_increasing ks ->
  read ks 0 = Ok kfirst ->
  read ks (Z.of_nat (length ks) - 1) = Ok klast ->
  e < kfirst \/ klast <= e ->
  cs_search fuel ks e ind w <> Ok i.
Proof.
  intros Hinc H0 Hlast Hout H.
  destruct (cs_search_brackets _ _ _ _ _ _ H) as (k0 & k1 & Hk0 & Hk1 & Hbr).
  pose proof (read_Ok_range _ _ _ Hk0) as R0.
  pose proof (read_Ok_range _ _ _ Hk1) as R1.
  destruct Hout as [Hlow | Hhigh].
  - destruct (Z.eq_dec i 0) as [-> | Hne].
    + rewrite H0 in Hk0. injection Hk0 as <-. lra.
    + assert (kfirst < k0) by (apply (Hinc 0%Z i); auto; lia). lra.
  - destruct (Z.eq_dec (i + 1) (Z.of_nat (length ks) - 1)) as [E | Hne].
    + rewrite E, Hlast in Hk1. injection Hk1 as <-. lra.
    + assert (k1 < klast)
        by (apply (Hinc (i + 1)%Z (Z.of_nat (length ks) - 1)%Z); auto; lia).
      lra.
Qed.

(** ** The census event *)

Lemma add_at_spec (a : list R) (n : nat) (v : R) :
  (n < length a)%nat ->
  exists a',
    add_at a n v = Ok a' /\
    length a' = length a /\
    nth_error a' n = option_map (fun u => u + v) (nth_error a n) /\
    forall m, m <> n -> nth_error a' m = nth_error a m.
Proof.
  revert n. induction a as [| h t IH]; intros [| n] Hn; simpl in Hn; try lia.
  - exists ((h + v) :: t). simpl. repeat split; auto.
    intros [| m] Hm; [contradiction | reflexivity].
  - destruct (IH n) as (t' & Ht' & Hlen & Hnth & Hother); [lia |].
    exists (h :: t'). simpl. rewrite Ht'. simpl. repeat split; auto.
    intros [| m] Hm; [reflexivity |]. simpl. apply Hother. lia.
Qed.

(** The effect of a tally update: one addition, at the cell of the lane. *)
Lemma update_tallies_spec (nx xo yo : Z) (inv ed : R) (t : list R) (cx cy : Z) :
  let i := ((cy - yo) * nx + (cx - xo))%Z in
  (0 <= i < Z.of_nat (length t))%Z ->
  exists t' u,
    update_tallies nx xo yo inv ed t cx cy = Ok t' /\
    length t' = length t /\
    read t i = Ok u /\
    read t' i = Ok (u + ed * inv) /\
    forall j, j <> i -> read t' j = read t j.
Proof.
  intros i Hi. unfold update_tallies. fold i.
  destruct (Z.ltb_spec i 0); [lia |].
  destruct (add_at_spec t (Z.to_nat i) (ed * inv)) as (t' & Ht' & Hlen & Hnth & Hother);
    [lia |].
  destruct (read_in_range t i Hi) as [u Hu].
  exists t', u. repeat split; auto.
  - unfold read in *. destruct (Z.ltb_spec i 0); [lia |].
    rewrite Hnth. destruct (nth_error t (Z.to_nat i)); [| discriminate].
    injection Hu as <-. reflexivity.
  - intros j Hj. unfold read. destruct (Z.ltb_spec j 0); [reflexivity |].
    rewrite Hother by lia. reflexivity.
Qed.

(** C10.  When the cell of the lane is inside the tally, [census_event]
    returns; of the particle it changes the position (advanced by
    [distance_to_census] along the direction), [mfp_to_collision] (lowered
    by [distance_to_census / cell_mfp]) and [dt_to_census] (set to 0), and it
    leaves the direction, the energy, the weight, the cell indices and the
    dead flag as they are; the tally receives one addition, at the cell of
    the lane, of the accumulated energy deposition times
    [inv_ntotal_particles]. *)
Theorem census_event_frame (K : Headers) (nx xo yo : Z)
    (inv distance_to_census cell_mfp : R) (t : list R) (p : Particle)
    (c : Cache) :
  let i := ((p_celly p - yo) * nx + (p_cellx p - xo))%Z in
  let ed :=
    c_energy_deposition c +
    calculate_energy_deposition K distance_to_census (c_number_density c)
      (c_microscopic_cs_absorb c)
      (c_microscopic_cs_scatter c + c_microscopic_cs_absorb c)
      (p_energy p) (p_weight p) in
  (0 <= i < Z.of_nat (length t))%Z ->
  exists c' t' u,
    census_event K nx xo yo inv distance_to_census cell_mfp t (p, c)
    = Ok ((mkParticle (p_x p + distance_to_census * p_omega_x p)
             (p_y p + distance_to_census * p_omega_y p)
             (p_omega_x p) (p_omega_y p) (p_energy p) (p_weight p) 0
             (p_mfp_to_collision p - distance_to_census / cell_mfp)
             (p_cellx p) (p_celly p) (p_dead p), c'), t') /\
    length t' = length t /\
    read t i = Ok u /\
    read t' i = Ok (u + ed * inv) /\
    (forall j, j <> i -> read t' j = read t j).
Proof.
  intros i ed Hi.
  destruct (update_tallies_spec nx xo yo inv ed t (p_cellx p) (p_celly p) Hi)
    as (t' & u & Hup & Hlen & Hu & Hu' & Hother).
  unfold census_event. fold ed. rewrite Hup. simpl.
  eexists _, t', u. repeat split; eauto.
Qed.

Lemma census_event_frame_witness :
  exists c' t' u,
    census_event sample_headers 1 0 0 1 1 1 [0] (census_particle, sample_cache)
    = Ok ((mkParticle (1 / 2 + 1 * (3 / 5)) (1 / 2 + 1 * (4 / 5))
             (3 / 5) (4 / 5) 1 1 0 (0 - 1 / 1) 0 0 false, c'), t') /\
    length t' = length [0] /\
    read [0] ((0 - 0) * 1 + (0 - 0))%Z = Ok u /\
    read t' ((0 - 0) * 1 + (0 - 0))%Z
    = Ok (u + (c_energy_deposition sample_cache +
               calculate_energy_deposition sample_headers 1
                 (c_number_density sample_cache)
                 (c_microscopic_cs_absorb sample_cache)
                 (c_microscopic_cs_scatter sample_cache +
                  c_microscopic_cs_absorb sample_cache) 1 1) * 1) /\
    (forall j, j <> ((0 - 0) * 1 + (0 - 0))%Z -> read t' j = read [0] j).
Proof.
  apply (census_event_frame sample_headers 1 0 0 1 1 1 [0] census_particle
           sample_cache).
  simpl. lia.
Defined.

(** A particle that reaches census with fewer mean free paths left than
    the path to census takes ends the step with a negative
    [mfp_to_collision]. *)
Lemma census_event_mfp_may_be_negative :
  exists l' t',
    census_event sample_headers 1 0 0 1 1 1 [0] (census_particle, sample_cache)
    = Ok (l', t') /\
    p_mfp_to_collision (fst l') < 0 /\ p_dt_to_census (fst l') = 0.
Proof.
  unfold census_event. simpl. do 2 eexists. split; [reflexivity |].
  simpl. split; lra.
Qed.

(** ** Loops over the lanes *)

Lemma for_lanes_Forall2 {S : Type} (body : S -> Lane -> result (Lane * S))
    (s s' : S) (ls ls' : list Lane) :
  for_lanes body s ls = Ok (ls', s') ->
  Forall2 (fun l l' => exists s1 s2, body s1 l = Ok (l', s2)) ls ls'.
Proof.
  revert s s' ls'. induction ls as [| l ls IH]; intros s s' ls' H; simpl in H.
  - injection H as <- <-. constructor.
  - destruct (body s l) as [[l1 s1] | | |] eqn:E; simpl in H; try discriminate.
    destruct (for_lanes body s1 ls) as [[ls1 s2] | | |] eqn:E'; simpl in H;
      try discriminate.
    injection H as <- <-. constructor; eauto.
Qed.

Lemma Forall2_Forall_step {A : Type} (P Q : A -> Prop) (R : A -> A -> Prop)
    (xs ys : list A) :
  (forall x y, P x -> R x y -> Q y) ->
  Forall2 R xs ys -> Forall P xs -> Forall Q ys.
Proof.
  intros Hstep H. induction H; intros HP; inversion HP; subst; constructor; eauto.
Qed.

Lemma Forall2_compose {A : Type} (R1 R2 : A -> A -> Prop) (xs ys zs : list A) :
  Forall2 R1 xs ys -> Forall2 R2 ys zs ->
  Forall2 (fun x z => exists y, R1 x y /\ R2 y z) xs zs.
Proof.
  intros H. revert zs. induction H; intros zs H2; inversion H2; subst;
    constructor; eauto.
Qed.

(** ** Invariants of the block event loop *)

(** X21.  In exact arithmetic, when the generator returns 64-bit outputs
    and the scale and the bias of [generate_random_numbers] place the
    largest output below 1, the four random numbers lie strictly between 0
    and 1; this is the assumption [ok_rng] on the random numbers. *)
Lemma generate_random_numbers_range (K : Headers) :
  0 <= FACTOR K -> 0 < HALF_FACTOR K ->
  IZR (2 ^ 64 - 1) * FACTOR K + HALF_FACTOR K < 1 ->
  (forall c k r0 r1 r2 r3,
     threefry4x64 K c k = (r0, r1, r2, r3) ->
     (0 <= r0 < 2 ^ 64)%Z /\ (0 <= r1 < 2 ^ 64)%Z /\
     (0 <= r2 < 2 ^ 64)%Z /\ (0 <= r3 < 2 ^ 64)%Z) ->
  forall pkey mk ctr r0 r1 r2 r3,
    generate_random_numbers K pkey mk ctr = (r0, r1, r2, r3) ->
    0 < r0 < 1 /\ 0 < r1 < 1 /\ 0 < r2 < 1 /\ 0 < r3 < 1.
Proof.
  intros HF HH Hmax Hrange pkey mk ctr r0 r1 r2 r3 H.
  unfold generate_random_numbers in H.
  destruct (threefry4x64 K _ _) as [[[z0 z1] z2] z3] eqn:E.
  destruct (Hrange _ _ _ _ _ _ E) as (H0 & H1 & H2 & H3).
  injection H as <- <- <- <-.
  assert (Hscale : forall z, (0 <= z < 2 ^ 64)%Z ->
                             0 < IZR z * FACTOR K + HALF_FACTOR K < 1).
  { intros z Hz.
    assert (0 <= IZR z) by (apply IZR_le; lia).
    assert (IZR z <= IZR (2 ^ 64 - 1)) by (apply IZR_le; lia).
    split; nra. }
  auto.
Qed.

Lemma div_le_bound (a b c : R) : 0 < c -> a <= b * c -> a / c <= b.
Proof.
  intros Hc H. unfold Rdiv.
  apply Rmult_le_reg_r with c; [assumption |].
  rewrite Rmult_assoc, Rinv_l by lra. lra.
Qed.

Lemma div_lt_bound (a b c : R) : 0 < c -> a < c * b -> a / c < b.
Proof.
  intros Hc H. unfold Rdiv.
  apply Rmult_lt_reg_r with c; [assumption |].
  rewrite Rmult_assoc, Rinv_l by lra. lra.
Qed.

Lemma inv_sum_pos (a b : R) : 0 < a -> 0 <= b -> 0 < 1 / (a + b).
Proof. intros. apply Rdiv_lt_0_compat; lra. Qed.

Lemma speed_pos (K : Headers) (e : R) :
  0 < eV_TO_J K -> 0 < PARTICLE_MASS K -> 0 < e ->
  0 < sqrt ((2 * e * eV_TO_J K) / PARTICLE_MASS K).
Proof.
  intros Hev Hm He. apply sqrt_lt_R0. apply Rdiv_lt_0_compat; [| assumption].
  apply Rmult_lt_0_compat; lra.
Qed.

Lemma resample_nonneg (r s : R) : 0 < r < 1 -> 0 < s -> 0 <= (- ln r) / s.
Proof.
  intros Hr Hs.
  assert (ln r < 0) by (rewrite <- ln_1; apply ln_increasing; lra).
  apply Rlt_le, Rdiv_lt_0_compat; lra.
Qed.

Lemma macroscopic_pos (K : Headers) (ld sigma : R) :
  0 < AVOGADROS K -> 0 < MOLAR_MASS K -> 0 < BARNS K -> 0 < ld -> 0 < sigma ->
  0 < ld * AVOGADROS K / MOLAR_MASS K * sigma * BARNS K.
Proof.
  intros Ha Hm Hb Hld Hs.
  assert (0 < ld * AVOGADROS K / MOLAR_MASS K).
  { apply Rdiv_lt_0_compat; [| assumption]. apply Rmult_lt_0_compat; assumption. }
  apply Rmult_lt_0_compat; [| assumption]. apply Rmult_lt_0_compat; assumption.
Qed.

Lemma macroscopic_nonneg (K : Headers) (ld sigma : R) :
  0 < AVOGADROS K -> 0 < MOLAR_MASS K -> 0 < BARNS K -> 0 < ld -> 0 <= sigma ->
  0 <= ld * AVOGADROS K / MOLAR_MASS K * sigma * BARNS K.
Proof.
  intros Ha Hm Hb Hld Hs.
  assert (0 < ld * AVOGADROS K / MOLAR_MASS K).
  { apply Rdiv_lt_0_compat; [| assumption]. apply Rmult_lt_0_compat; assumption. }
  apply Rmult_le_pos; [| lra]. apply Rmult_le_pos; lra.
Qed.

(** The interpolated value lies between the values of the two ends of its
    bin. *)
Lemma microscopic_cs_bounds (fuel : nat) (cs : CrossSection) (e v : R) (i : Z) :
  strictly_increasing (keys cs) ->
  microscopic_cs_for_energy_binary fuel cs e = Ok (v, i) ->
  exists v0 v1 s,
    read (values cs) i = Ok v0 /\ read (values cs) (i + 1) = Ok v1 /\
    0 <= s < 1 /\ v = v0 + s * (v1 - v0).
Proof.
  intros Hinc H. unfold microscopic_cs_for_energy_binary in H.
  destruct (cs_search _ _ _ _ _) as [ind | | |] eqn:Es; simpl in H;
    try discriminate.
  destruct (cs_search_brackets _ _ _ _ _ _ Es) as (k0 & k1 & Hk0 & Hk1 & Hbr).
  rewrite Hk0, Hk1 in H.
  destruct (read (values cs) ind) as [v0 | | |] eqn:Ev0; simpl in H;
    try discriminate.
  destruct (read (values cs) (ind + 1)) as [v1 | | |] eqn:Ev1; simpl in H;
    try discriminate.
  injection H as <- <-.
  exists v0, v1, ((e - k0) / (k1 - k0)). repeat split; auto.
  - apply Rmult_le_pos; [lra |]. apply Rlt_le, Rinv_0_lt_compat. lra.
  - apply div_lt_bound; lra.
Qed.

Lemma microscopic_cs_pos (fuel : nat) (cs : CrossSection) (e v : R) (i : Z) :
  strictly_increasing (keys cs) -> Forall (Rlt 0) (values cs) ->
  microscopic_cs_for_energy_binary fuel cs e = Ok (v, i) -> 0 < v.
Proof.
  intros Hinc Hpos H.
  destruct (microscopic_cs_bounds _ _ _ _ _ Hinc H)
    as (v0 & v1 & s & Hv0 & Hv1 & Hs & ->).
  pose proof (read_Forall _ _ _ _ Hpos Hv0).
  pose proof (read_Forall _ _ _ _ Hpos Hv1). simpl in *. nra.
Qed.

Lemma microscopic_cs_nonneg (fuel : nat) (cs : CrossSection) (e v : R) (i : Z) :
  strictly_increasing (keys cs) -> Forall (Rle 0) (values cs) ->
  microscopic_cs_for_energy_binary fuel cs e = Ok (v, i) -> 0 <= v.
Proof.
  intros Hinc Hpos H.
  destruct (microscopic_cs_bounds _ _ _ _ _ Hinc H)
    as (v0 & v1 & s & Hv0 & Hv1 & Hs & ->).
  pose proof (read_Forall _ _ _ _ Hpos Hv0).
  pose proof (read_Forall _ _ _ _ Hpos Hv1). simpl in *. nra.
Qed.

(** An iteration that goes on: the live lane of the sample block collides
    and scatters, the counter of the generator moves to 2 and one collision
    is counted. *)
Lemma outer_iteration_sample_scatters :
  exists st1,
    outer_iteration sample_headers 10 sample_problem 1%positive scattering_state
    = Ok (true, st1) /\
    counter st1 = 2%Z /\ ncollisions st1 = 1%Z /\ nfacets st1 = 0%Z /\
    length (lanes st1) = 2%nat.
Proof.
  unfold outer_iteration, scattering_state, dead_lane.
  cbn [lanes counter tally nfacets ncollisions for_lanes].
  unfold calc_event_lane, calc_event, calc_distance_to_facet, facet_times,
    select_event.
  simpl. Rcompare. simpl. Rcompare. simpl.
  unfold collision_lane, collision_event, generate_random_numbers. simpl.
  Rcompare. simpl.
  unfold microscopic_cs_for_energy_binary. simpl.
  Rcompare. simpl. Rcompare. simpl. Rcompare. simpl.
  eexists. split; [reflexivity |]. simpl. repeat split; reflexivity.
Qed.

(** The facet kernel keeps the invariant of a lane that was selected for a
    facet encounter: [df <= dc] and [df < dn]. *)
Lemma facet_event_invariant (K : Headers) (m : Problem) (t t' : list R)
    (l l' : Lane) :
  inputs_ok K m ->
  p_dead (fst l) = false ->
  lane_invariant l ->
  c_cell_mfp (snd l) =
    1 / (c_macroscopic_cs_scatter (snd l) + c_macroscopic_cs_absorb (snd l)) ->
  c_distance_to_facet (snd l)
    <= p_mfp_to_collision (fst l) * c_cell_mfp (snd l) ->
  c_distance_to_facet (snd l) < c_speed (snd l) * p_dt_to_census (fst l) ->
  facet_event K (global_nx m) (global_ny m) (nx m) (x_off m) (y_off m)
    (inv_ntotal_particles m) (density m) t l = Ok (l', t') ->
  lane_invariant l'.
Proof.
  intros Hok Hlive Hinv Hcm Hdc Hdn H.
  destruct l as [p c]. unfold lane_invariant in *. simpl in *.
  destruct (Hinv Hlive) as (Hmfp & Hdt & He & Hsp & Hld & Hss & Hsa & HSs & HSa).
  unfold facet_event in H.
  destruct (update_tallies _ _ _ _ _ _ _ _) as [t1 | | |]; simpl in H;
    try discriminate.
  destruct (facet_cross _ _ _ _ _ _ _) as [[[ox oy] cx] cy].
  destruct (read (density m) _) as [ld | | |] eqn:Eld; simpl in H;
    try discriminate.
  injection H as <- <-.
  pose proof (read_Forall _ _ _ _ (ok_density K m Hok) Eld) as Hld'.
  simpl in Hld'.
  assert (Hcmpos : 0 < c_cell_mfp c) by (rewrite Hcm; apply inv_sum_pos; lra).
  intros _. simpl. repeat split; try assumption.
  - pose proof (div_le_bound _ _ _ Hcmpos Hdc). lra.
  - pose proof (div_lt_bound _ _ _ Hsp Hdn). lra.
  - apply macroscopic_pos; eauto using ok_avogadros, ok_molar_mass, ok_barns.
  - apply macroscopic_nonneg; eauto using ok_avogadros, ok_molar_mass, ok_barns.
Qed.

Lemma scatter_energy_pos (a e r : R) :
  0 < a -> 0 < e -> 0 < r < 1 ->
  0 < e * (a * a + 2 * a * (1 - 2 * r) + 1) / ((a + 1) * (a + 1)).
Proof.
  intros Ha He Hr. apply Rdiv_lt_0_compat.
  - apply Rmult_lt_0_compat; [assumption |].
    set (mu := 1 - 2 * r).
    assert (-1 < mu < 1) by (unfold mu; lra).
    assert (0 <= (a + mu) * (a + mu)) by apply Rle_0_sqr.
    assert (0 < 1 - mu * mu) by nra.
    nra.
  - apply Rmult_lt_0_compat; lra.
Qed.

(** The collision kernel keeps the invariant of a lane that was selected
    for a collision ([dc < dn]), and leaves its tag alone. *)
Lemma collision_event_invariant (K : Headers) (m : Problem) (fuel : nat)
    (ctr : Z) (dc : R) (t t' : list R) (l l' : Lane) :
  inputs_ok K m ->
  p_dead (fst l) = false ->
  lane_invariant l ->
  dc < c_speed (snd l) * p_dt_to_census (fst l) ->
  collision_event K fuel (nx m) (x_off m) (y_off m) (inv_ntotal_particles m)
    dc (c_local_density (snd l)) (cs_scatter_table m) (cs_absorb_table m)
    ctr (master_key m) t l = Ok (l', t') ->
  lane_invariant l' /\ c_next_event (snd l') = c_next_event (snd l).
Proof.
  intros Hok Hlive Hinv Hdn H.
  destruct l as [p c]. unfold lane_invariant in *. simpl in *.
  destruct (Hinv Hlive) as (Hmfp & Hdt & He & Hsp & Hld & Hss & Hsa & HSs & HSa).
  unfold collision_event in H.
  destruct (generate_random_numbers K (c_key c) (master_key m) ctr)
    as [[[r0 r1] r2] r3] eqn:Ern.
  destruct (ok_rng K m Hok _ _ _ _ _ _ _ Ern) as (Hr0 & Hr1 & Hr2 & Hr3).
  assert (Hfinish : forall (x y ox oy e w ed : R) (t0 : list R),
    0 < e ->
    (if false
     then Ok (mkParticle x y ox oy e w (p_dt_to_census p)
                (p_mfp_to_collision p) (p_cellx p) (p_celly p) false,
              mkCache (c_x_facet c) (c_absorb_cs_index c)
                (c_scatter_cs_index c) (c_cell_mfp c) (c_local_density c)
                (c_microscopic_cs_scatter c) (c_microscopic_cs_absorb c)
                (c_number_density c) (c_macroscopic_cs_scatter c)
                (c_macroscopic_cs_absorb c) (c_speed c) ed
                (c_distance_to_facet c) (c_key c) (c_next_event c), t0)
     else
       '(microscopic_cs_scatter, scatter_cs_index) <-
         microscopic_cs_for_energy_binary fuel (cs_scatter_table m) e ;;
       '(microscopic_cs_absorb, absorb_cs_index) <-
         microscopic_cs_for_energy_binary fuel (cs_absorb_table m) e ;;
       let number_density := c_local_density c * AVOGADROS K / MOLAR_MASS K in
       let macroscopic_cs_scatter :=
         number_density * microscopic_cs_scatter * BARNS K in
       let macroscopic_cs_absorb :=
         number_density * microscopic_cs_absorb * BARNS K in
       let mfp_to_collision := (- ln r3) / macroscopic_cs_scatter in
       let dt_to_census := p_dt_to_census p - dc / c_speed c in
       let speed := sqrt ((2 * e * eV_TO_J K) / PARTICLE_MASS K) in
       Ok (mkParticle x y ox oy e w dt_to_census mfp_to_collision (p_cellx p)
             (p_celly p) false,
           mkCache (c_x_facet c) absorb_cs_index scatter_cs_index
             (c_cell_mfp c) (c_local_density c) microscopic_cs_scatter
             microscopic_cs_absorb number_density macroscopic_cs_scatter
             macroscopic_cs_absorb speed ed (c_distance_to_facet c)
             (c_key c) (c_next_event c), t0)) = Ok (l', t') ->
    (p_dead (fst l') = false ->
     0 <= p_mfp_to_collision (fst l') /\ 0 <= p_dt_to_census (fst l') /\
     0 < p_energy (fst l') /\ 0 < c_speed (snd l') /\
     0 < c_local_density (snd l') /\ 0 < c_microscopic_cs_scatter (snd l') /\
     0 <= c_microscopic_cs_absorb (snd l') /\
     0 < c_macroscopic_cs_scatter (snd l') /\
     0 <= c_macroscopic_cs_absorb (snd l')) /\
    c_next_event (snd l') = c_next_event c).
  { intros x y ox oy e w ed t0 He' H'.
    destruct (microscopic_cs_for_energy_binary fuel (cs_scatter_table m) e)
      as [[ss si] | | |] eqn:Ess; simpl in H'; try discriminate.
    destruct (microscopic_cs_for_energy_binary fuel (cs_absorb_table m) e)
      as [[sa ai] | | |] eqn:Esa; simpl in H'; try discriminate.
    injection H' as <- <-. simpl.
    pose proof (microscopic_cs_pos _ _ _ _ _ (ok_scatter_keys K m Hok)
                  (ok_scatter_values K m Hok) Ess) as Hss'.
    pose proof (microscopic_cs_nonneg _ _ _ _ _ (ok_absorb_keys K m Hok)
                  (ok_absorb_values K m Hok) Esa) as Hsa'.
    assert (HSs' : 0 < c_local_density c * AVOGADROS K / MOLAR_MASS K * ss * BARNS K)
      by (apply macroscopic_pos; eauto using ok_avogadros, ok_molar_mass, ok_barns).
    split; [| reflexivity]. intros _. repeat split; try assumption.
    - apply resample_nonneg; assumption.
    - pose proof (div_lt_bound _ _ _ Hsp Hdn). lra.
    - apply speed_pos; eauto using ok_ev, ok_particle_mass.
    - apply macroscopic_nonneg; eauto using ok_avogadros, ok_molar_mass, ok_barns. }
  destruct (Rltb r0 _).
  - destruct (Rltb (p_energy p) (MIN_ENERGY_OF_INTEREST K)).
    + destruct (update_tallies _ _ _ _ _ _ _ _) as [t1 | | |]; simpl in H;
        try discriminate.
      injection H as <- <-. simpl. split; [discriminate | reflexivity].
    + simpl in H. rewrite Hlive in H. apply Hfinish in H; assumption.
  - simpl in H. rewrite Hlive in H. apply Hfinish in H; [assumption |].
    apply scatter_energy_pos; eauto using ok_mass_no.
Qed.

(** The cache initialisation establishes the invariant when the time step
    is not negative and the live particles have a positive energy. *)
Lemma init_lane_invariant (K : Headers) (m : Problem) (fuel : nat) (dt : R)
    (ctr bid : Z) (s s' : Z * Z) (l l' : Lane) :
  inputs_ok K m ->
  0 <= dt ->
  (p_dead (fst l) = false -> 0 < p_energy (fst l)) ->
  init_lane K fuel (nx m) (pad m) (x_off m) (y_off m) true dt (density m)
    (cs_scatter_table m) (cs_absorb_table m) (master_key m) ctr bid s l
  = Ok (l', s') ->
  lane_invariant l'.
Proof.
  intros Hok Hdt He H. destruct l as [p c]. destruct s as [ip np].
  unfold lane_invariant, init_lane in *. simpl in *.
  destruct (p_dead p) eqn:Hdead.
  - injection H as <- <-. simpl. rewrite Hdead. discriminate.
  - specialize (He eq_refl).
    destruct (read (density m) _) as [ld | | |] eqn:Eld; simpl in H;
      try discriminate.
    destruct (microscopic_cs_for_energy_binary fuel (cs_scatter_table m) _)
      as [[ss si] | | |] eqn:Ess; simpl in H; try discriminate.
    destruct (microscopic_cs_for_energy_binary fuel (cs_absorb_table m) _)
      as [[sa ai] | | |] eqn:Esa; simpl in H; try discriminate.
    destruct (generate_random_numbers K _ _ _) as [[[r0 r1] r2] r3] eqn:Ern.
    destruct (ok_rng K m Hok _ _ _ _ _ _ _ Ern) as (Hr0 & _).
    injection H as <- <-. simpl.
    pose proof (read_Forall _ _ _ _ (ok_density K m Hok) Eld) as Hld.
    simpl in Hld.
    pose proof (microscopic_cs_pos _ _ _ _ _ (ok_scatter_keys K m Hok)
                  (ok_scatter_values K m Hok) Ess) as Hss.
    pose proof (microscopic_cs_nonneg _ _ _ _ _ (ok_absorb_keys K m Hok)
                  (ok_absorb_values K m Hok) Esa) as Hsa.
    assert (HSs : 0 < ld * AVOGADROS K / MOLAR_MASS K * ss * BARNS K)
      by (apply macroscopic_pos; eauto using ok_avogadros, ok_molar_mass, ok_barns).
    intros _. repeat split; try assumption.
    + apply resample_nonneg; assumption.
    + apply speed_pos; eauto using ok_ev, ok_particle_mass.
    + apply macroscopic_nonneg; eauto using ok_avogadros, ok_molar_mass, ok_barns.
Qed.

(** The classification pass keeps the invariant. *)
Lemma calc_event_lane_invariant (K : Headers) (m : Problem) (s s' : Z * Z * Z)
    (l l1 : Lane) :
  lane_invariant l ->
  calc_event_lane K (global_nx m) (pad m) (x_off m) (y_off m) (edgex m)
    (edgey m) s l = Ok (l1, s') ->
  lane_invariant l1.
Proof.
  intros Hinv H. unfold calc_event_lane in H.
  destruct (calc_event _ _ _ _ _ _ _ _) as [l1' | | |] eqn:E; simpl in H;
    try discriminate.
  injection H as <- _. destruct l as [p c].
  destruct (p_dead p) eqn:Hdead.
  - unfold calc_event in E. rewrite Hdead in E. injection E as <-.
    unfold lane_invariant. simpl. rewrite Hdead. discriminate.
  - destruct (calc_event_live _ _ _ _ _ _ _ _ _ _ Hdead E)
      as (df & xf & _ & Hp & _ & _ & _ & _ & Hsp & HSs & HSa & Hss & Hsa & Hld & _).
    unfold lane_invariant in *. rewrite Hp, Hsp, HSs, HSa, Hss, Hsa, Hld.
    exact Hinv.
Qed.

(** One iteration of the loop keeps the invariant of every lane: a lane goes
    through the classification pass, then the collision pass, then the facet
    pass. *)
Lemma lane_iteration_invariant (K : Headers) (m : Problem) (fuel : nat)
    (ctr : Z) (s s' : Z * Z * Z) (t1 t1' t2 t2' : list R) (l l1 l2 l3 : Lane) :
  inputs_ok K m ->
  lane_invariant l ->
  calc_event_lane K (global_nx m) (pad m) (x_off m) (y_off m) (edgex m)
    (edgey m) s l = Ok (l1, s') ->
  collision_lane K fuel (nx m) (x_off m) (y_off m) (inv_ntotal_particles m)
    (cs_scatter_table m) (cs_absorb_table m) ctr (master_key m) t1 l1
  = Ok (l2, t1') ->
  facet_lane K (global_nx m) (global_ny m) (nx m) (x_off m) (y_off m)
    (inv_ntotal_particles m) (density m) t2 l2 = Ok (l3, t2') ->
  lane_invariant l3.
Proof.
  intros Hok Hinv Hcalc Hcoll Hfacet.
  pose proof (calc_event_lane_invariant K m s s' l l1 Hinv Hcalc) as Hinv1.
  unfold calc_event_lane in Hcalc.
  destruct (calc_event _ _ _ _ _ _ _ _) as [l1' | | |] eqn:E; simpl in Hcalc;
    try discriminate.
  injection Hcalc as <- _. destruct l as [p c].
  unfold collision_lane in Hcoll. unfold facet_lane in Hfacet.
  destruct (p_dead p) eqn:Hdead.
  - unfold calc_event in E. rewrite Hdead in E. injection E as <-.
    simpl in Hcoll. injection Hcoll as <- _.
    simpl in Hfacet. injection Hfacet as <- _. exact Hinv1.
  - destruct (calc_event_live _ _ _ _ _ _ _ _ _ _ Hdead E)
      as (df & xf & _ & Hp & Hcm & Hdf & _ & Hev & Hsp & HSs & HSa & _).
    assert (Hlive1 : p_dead (fst l1') = false) by (rewrite Hp; exact Hdead).
    destruct (c_next_event (snd l1')) eqn:Etag; simpl in Hcoll.
    + injection Hcoll as <- _. rewrite Etag in Hfacet. simpl in Hfacet.
      injection Hfacet as <- _. exact Hinv1.
    + symmetry in Hev. apply select_event_collision in Hev.
      assert (Hdn : p_mfp_to_collision (fst l1') * c_cell_mfp (snd l1')
                    < c_speed (snd l1') * p_dt_to_census (fst l1'))
        by (rewrite Hp, Hcm, Hsp; lra).
      destruct (collision_event_invariant K m fuel ctr _ t1 t1' l1' l2 Hok
                  Hlive1 Hinv1 Hdn Hcoll) as [Hinv2 Htag2].
      rewrite Htag2, Etag in Hfacet. simpl in Hfacet.
      injection Hfacet as <- _. exact Hinv2.
    + injection Hcoll as <- _. rewrite Etag in Hfacet. simpl in Hfacet.
      symmetry in Hev. apply select_event_facet in Hev.
      apply (facet_event_invariant K m t2 t2' l1' l3 Hok Hlive1 Hinv1).
      * rewrite Hcm, HSs, HSa. reflexivity.
      * rewrite Hp, Hcm, Hdf. lra.
      * rewrite Hp, Hdf, Hsp. lra.
      * exact Hfacet.
    + injection Hcoll as <- _. rewrite Etag in Hfacet. simpl in Hfacet.
      injection Hfacet as <- _. exact Hinv1.
Qed.

(** One iteration of the loop keeps the invariant of every lane of the
    block. *)
Lemma outer_iteration_invariant (K : Headers) (fuel : nat) (m : Problem)
    (found : positive) (st st' : BlockState) (again : bool) :
  inputs_ok K m ->
  Forall lane_invariant (lanes st) ->
  outer_iteration K fuel m found st = Ok (again, st') ->
  Forall lane_invariant (lanes st').
Proof.
  intros Hok Hinv H. unfold outer_iteration in H.
  destruct (for_lanes (calc_event_lane _ _ _ _ _ _ _) _ _)
    as [[lanes1 [[ncompleted nf] nc]] | | |] eqn:E1; simpl in H;
    try discriminate.
  apply for_lanes_Forall2 in E1.
  destruct (ncompleted =? BLOCK_SIZE K)%Z.
  - injection H as <- <-. simpl.
    apply (Forall2_Forall_step _ _ _ _ _) with (2 := E1) (3 := Hinv).
    intros l l1 Hl (s1 & s2 & Hc).
    exact (calc_event_lane_invariant K m s1 s2 l l1 Hl Hc).
  - destruct (for_lanes (collision_lane _ _ _ _ _ _ _ _ _ _) _ _)
      as [[lanes2 tally2] | | |] eqn:E2; simpl in H; try discriminate.
    rewrite check_found_passes in H. simpl in H.
    destruct (for_lanes (facet_lane _ _ _ _ _ _ _ _) _ _)
      as [[lanes3 tally3] | | |] eqn:E3; simpl in H; try discriminate.
    injection H as <- <-. simpl.
    apply for_lanes_Forall2 in E2. apply for_lanes_Forall2 in E3.
    pose proof (Forall2_compose _ _ _ _ _ (Forall2_compose _ _ _ _ _ E1 E2) E3)
      as Hchain.
    apply (Forall2_Forall_step _ _ _ _ _) with (2 := Hchain) (3 := Hinv).
    intros l l3 Hl (l2 & (l1 & (s1 & s2 & Hc) & (t1 & t1' & Hcol)) & (t2 & t2' & Hf)).
    exact (lane_iteration_invariant K m fuel _ s1 s2 t1 t1' t2 t2' l l1 l2 l3
             Hok Hl Hc Hcol Hf).
Qed.

Lemma init_block_invariant (K : Headers) (fuel : nat) (m : Problem) (dt : R)
    (bid : Z) (tally0 : list R) (nf nc np np' : Z) (lanes0 : list Lane)
    (st0 : BlockState) :
  inputs_ok K m ->
  0 <= dt ->
  Forall (fun l => p_dead (fst l) = false -> 0 < p_energy (fst l)) lanes0 ->
  init_block K fuel m true dt bid tally0 nf nc np lanes0 = Ok (st0, np') ->
  Forall lane_invariant (lanes st0).
Proof.
  intros Hok Hdt He H. unfold init_block in H.
  destruct (for_lanes _ _ _) as [[lanes1 [ip np1]] | | |] eqn:E; simpl in H;
    try discriminate.
  injection H as <- _. simpl. apply for_lanes_Forall2 in E.
  apply (Forall2_Forall_step _ _ _ _ _) with (2 := E) (3 := He).
  intros l l' Hl (s1 & s2 & Hinit).
  exact (init_lane_invariant K m fuel dt _ bid s1 s2 l l' Hok Hdt Hl Hinit).
Qed.

Lemma loop_head_invariant (K : Headers) (fuel : nat) (m : Problem)
    (found : positive) (st0 st : BlockState) :
  inputs_ok K m ->
  Forall lane_invariant (lanes st0) ->
  loop_head K fuel m found st0 st ->
  Forall lane_invariant (lanes st).
Proof.
  intros Hok H0 Hhead. induction Hhead as [| st st1 _ IH Hstep].
  - exact H0.
  - exact (outer_iteration_invariant K fuel m found st st1 true Hok IH Hstep).
Qed.

(** C5.  In exact arithmetic, for a time step that is not negative, live
    particles of positive energy, positive physical constants, a positive
    density in every cell, tables of strictly increasing keys with positive
    scattering and non-negative absorption values, and random numbers
    strictly between 0 and 1: at every head of the loop of a block, started
    as [solve_transport_2d] starts it, every live lane has
    [0 <= mfp_to_collision] and [0 <= dt_to_census]. *)
Theorem loop_head_counters_nonneg (K : Headers) (fuel : nat) (m : Problem)
    (found : positive) (dt : R) (bid : Z) (tally0 : list R)
    (nf nc np np' : Z) (lanes0 : list Lane) (st0 st : BlockState) :
  inputs_ok K m ->
  0 <= dt ->
  Forall (fun l => p_dead (fst l) = false -> 0 < p_energy (fst l)) lanes0 ->
  init_block K fuel m true dt bid tally0 nf nc np lanes0 = Ok (st0, np') ->
  loop_head K fuel m found st0 st ->
  Forall (fun l => p_dead (fst l) = false ->
                   0 <= p_mfp_to_collision (fst l) /\
                   0 <= p_dt_to_census (fst l)) (lanes st).
Proof.
  intros Hok Hdt He Hinit Hhead.
  pose proof (init_block_invariant K fuel m dt bid tally0 nf nc np np' lanes0
                st0 Hok Hdt He Hinit) as H0.
  pose proof (loop_head_invariant K fuel m found st0 st Hok H0 Hhead) as H.
  apply Forall_impl with (2 := H).
  intros l Hl Hlive. destruct (Hl Hlive) as (H1 & H2 & _). split; assumption.
Qed.

Lemma sample_inputs_ok : inputs_ok sample_headers sample_problem.
Proof.
  constructor; simpl; try lra.
  - intros pkey mk ctr r0 r1 r2 r3 H. unfold generate_random_numbers in H.
    simpl in H. injection H as <- <- <- <-. lra.
  - repeat constructor; lra.
  - apply sample_table_increasing.
  - repeat constructor; lra.
  - apply sample_table_increasing.
  - repeat constructor; lra.
Qed.

Lemma sample_init_block :
  exists st0 np',
    init_block sample_headers 10 sample_problem true 1 0 [0] 0 0 0 sample_lanes
    = Ok (st0, np').
Proof.
  unfold init_block, sample_lanes. cbn [for_lanes].
  unfold init_lane at 1. cbn [p_dead p_energy p_cellx p_celly fst snd].
  cbn [sample_problem density cs_scatter_table cs_absorb_table nx pad x_off y_off].
  rewrite microscopic_cs_sample_inside.
  replace (read [1] ((0 - 0 + 0) * (1 + 2 * 0) + (0 - 0 + 0))%Z) with (Ok 1)
    by reflexivity.
  cbn [bind].
  destruct (generate_random_numbers sample_headers _ _ _) as [[[r0 r1] r2] r3].
  unfold init_lane. cbn. eauto.
Qed.

Lemma sample_speed : sqrt (2 * 4 * 1 / 2) = 2.
Proof. replace (2 * 4 * 1 / 2) with (2 * 2) by lra. apply sqrt_square. lra. Qed.

(** The logarithm of the random number [5/8] of [sample_headers]. *)
Lemma sample_ln_bounds : -1 < ln (2 * (1 / 4) + 1 / 8) < - (3 / 8).
Proof.
  split.
  - assert (H : 1 + 1 < exp 1) by (apply exp_ineq1; lra).
    assert (H2 : / exp 1 < / 2).
    { apply Rinv_lt_contravar; [| lra]. apply Rmult_lt_0_compat; lra. }
    assert (H3 : ln (exp (- (1))) < ln (2 * (1 / 4) + 1 / 8)).
    { apply ln_increasing; [apply exp_pos |]. rewrite exp_Ropp. lra. }
    rewrite ln_exp in H3. lra.
  - assert (H : 1 + - (3 / 8) < exp (- (3 / 8))) by (apply exp_ineq1; lra).
    assert (H3 : ln (2 * (1 / 4) + 1 / 8) < ln (exp (- (3 / 8)))).
    { apply ln_increasing; lra. }
    rewrite ln_exp in H3. lra.
Qed.

Lemma sample_speed_1 : sqrt (2 * 1 * 1 / 2) = 1.
Proof. replace (2 * 1 * 1 / 2) with 1 by lra. apply sqrt_1. Qed.

(** The first iteration of the loop on [event_lanes]: the first lane collides
    and is scattered, the second lane reaches the upper edge of the mesh and
    is reflected. *)
Lemma sample_event_iteration :
  exists st0 np' st1,
    init_block sample_headers 10 sample_problem true 1 0 [0] 0 0 0 event_lanes
    = Ok (st0, np') /\
    outer_iteration sample_headers 10 sample_problem 1%positive st0
    = Ok (true, st1) /\
    ncollisions st1 = 1%Z /\ nfacets st1 = 1%Z.
Proof.
  pose proof sample_ln_bounds as Hln.
  unfold init_block, event_lanes.
  cbn [for_lanes].
  unfold init_lane, generate_random_numbers, microscopic_cs_for_energy_binary.
  simpl. Rcompare. simpl. Rcompare. simpl. Rcompare. simpl. Rcompare. simpl.
  Rcompare. simpl. Rcompare. simpl. Rcompare. simpl. Rcompare. simpl.
  rewrite sample_speed, sample_speed_1.
  do 3 eexists. split; [reflexivity |].
  unfold outer_iteration.
  cbn [lanes counter tally nfacets ncollisions for_lanes].
  unfold calc_event_lane, calc_event, calc_distance_to_facet, facet_times,
    select_event.
  simpl. Rcompare. simpl. Rcompare. simpl.
  unfold collision_lane, collision_event, generate_random_numbers. simpl.
  Rcompare. simpl.
  unfold microscopic_cs_for_energy_binary. simpl.
  Rcompare. simpl. Rcompare. simpl. Rcompare. simpl.
  unfold facet_lane, facet_event, update_tallies, facet_cross. simpl.
  Rcompare. simpl.
  split; [reflexivity |]. simpl. split; reflexivity.
Qed.

Lemma loop_head_counters_nonneg_witness :
  exists st0 np' st1,
    init_block sample_headers 10 sample_problem true 1 0 [0] 0 0 0 event_lanes
    = Ok (st0, np') /\
    outer_iteration sample_headers 10 sample_problem 1%positive st0
    = Ok (true, st1) /\
    ncollisions st1 = 1%Z /\ nfacets st1 = 1%Z /\
    Forall (fun l => p_dead (fst l) = false ->
                     0 <= p_mfp_to_collision (fst l) /\
                     0 <= p_dt_to_census (fst l)) (lanes st1).
Proof.
  destruct sample_event_iteration as (st0 & np' & st1 & Hi & Hit & Hc & Hf).
  exists st0, np', st1. repeat split; try assumption.
  apply (loop_head_counters_nonneg sample_headers 10 sample_problem 1%positive
           1 0 [0] 0 0 0 np' event_lanes st0 st1 sample_inputs_ok).
  - lra.
  - unfold event_lanes. repeat constructor; simpl; intros; lra.
  - exact Hi.
  - eapply head_next; [apply head_first | exact Hit].
Defined.

(** ** The norm of the direction, in exact arithmetic *)

(** The cosine of the scattering angle in the laboratory frame lies between
    -1 and 1. *)
Lemma scatter_cos_bounded (a e r : R) :
  0 < a -> 0 < e -> 0 < r < 1 ->
  let e_new := e * (a * a + 2 * a * (1 - 2 * r) + 1) / ((a + 1) * (a + 1)) in
  let cos_theta :=
    (1 / 2) * (a + 1) * sqrt (e_new / e) - (1 / 2) * (a - 1) * sqrt (e / e_new) in
  cos_theta * cos_theta <= 1.
Proof.
  intros Ha He Hr e_new cos_theta.
  set (mu := 1 - 2 * r) in *.
  assert (Hmu : -1 < mu < 1) by (unfold mu; lra).
  set (q := (a * a + 2 * a * mu + 1) / ((a + 1) * (a + 1))).
  assert (Hnum : 0 < a * a + 2 * a * mu + 1).
  { assert (0 <= (a + mu) * (a + mu)) by apply Rle_0_sqr.
    assert (0 < 1 - mu * mu) by nra. nra. }
  assert (Hq : 0 < q).
  { unfold q. apply Rdiv_lt_0_compat; [assumption | nra]. }
  assert (E1 : e_new / e = q) by (unfold e_new, q; field; lra).
  assert (E2 : e / e_new = / q).
  { unfold e_new, q. field. repeat split; lra. }
  unfold cos_theta. rewrite E1, E2, sqrt_inv.
  set (s := sqrt q).
  assert (Hs : 0 < s) by (apply sqrt_lt_R0; assumption).
  assert (Hss : s * s = q) by (apply sqrt_sqrt; lra).
  set (b := (a + 1) * s).
  assert (Hb : 0 < b) by (unfold b; nra).
  assert (Hbb : b * b = a * a + 2 * a * mu + 1).
  { unfold b.
    replace ((a + 1) * s * ((a + 1) * s)) with ((a + 1) * (a + 1) * (s * s))
      by ring.
    rewrite Hss. unfold q. field. lra. }
  assert (Hc : (1 / 2 * (a + 1) * s - 1 / 2 * (a - 1) * / s) * (2 * b)
               = b * b - (a * a - 1)).
  { unfold b. field. lra. }
  set (c := 1 / 2 * (a + 1) * s - 1 / 2 * (a - 1) * / s) in *.
  assert (Hlo : a - 1 < b) by nra.
  assert (Hlo' : 1 - a < b) by nra.
  assert (Hhi : b < a + 1) by nra.
  assert (c <= 1) by nra.
  assert (-1 <= c) by nra.
  nra.
Qed.

(** The rotation by an angle of cosine [c] and sine [sqrt (1 - c * c)]
    keeps the norm. *)
Lemma rotation_unit (ox oy c : R) :
  c * c <= 1 ->
  ox * ox + oy * oy = 1 ->
  (ox * c - oy * sqrt (1 - c * c)) * (ox * c - oy * sqrt (1 - c * c)) +
  (ox * sqrt (1 - c * c) + oy * c) * (ox * sqrt (1 - c * c) + oy * c) = 1.
Proof.
  intros Hc Hu.
  assert (Hs : sqrt (1 - c * c) * sqrt (1 - c * c) = 1 - c * c)
    by (apply sqrt_sqrt; lra).
  set (s := sqrt (1 - c * c)) in *.
  replace ((ox * c - oy * s) * (ox * c - oy * s) +
           (ox * s + oy * c) * (ox * s + oy * c))
    with ((ox * ox + oy * oy) * (c * c + s * s)) by ring.
  rewrite Hu, Hs. ring.
Qed.

(** The reflection, or the step to the next cell, keeps the norm. *)
Lemma facet_cross_unit (gnx gny : Z) (xf : bool) (ox oy ox' oy' : R)
    (cx cy cx' cy' : Z) :
  facet_cross gnx gny xf ox oy cx cy = (ox', oy', cx', cy') ->
  ox' * ox' + oy' * oy' = ox * ox + oy * oy.
Proof.
  unfold facet_cross. intros H. destruct xf.
  - destruct ((cx >=? gnx - 1)%Z || (cx <=? 0)%Z); injection H as <- <- _ _; ring.
  - destruct ((cy >=? gny - 1)%Z || (cy <=? 0)%Z); injection H as <- <- _ _; ring.
Qed.

Lemma facet_event_unit (K : Headers) (gnx gny nx xo yo : Z) (inv : R)
    (dens t t' : list R) (l l' : Lane) :
  unit_direction (fst l) ->
  facet_event K gnx gny nx xo yo inv dens t l = Ok (l', t') ->
  unit_direction (fst l').
Proof.
  intros Hu H. destruct l as [p c]. unfold facet_event in H.
  destruct (update_tallies _ _ _ _ _ _ _ _) as [t1 | | |]; simpl in H;
    try discriminate.
  destruct (facet_cross _ _ _ _ _ _ _) as [[[ox oy] cx] cy] eqn:Ecross.
  destruct (read dens _) as [ld | | |]; simpl in H; try discriminate.
  injection H as <- <-. unfold unit_direction in *. simpl in *.
  rewrite (facet_cross_unit _ _ _ _ _ _ _ _ _ _ _ Ecross). exact Hu.
Qed.

Lemma collision_event_unit (K : Headers) (m : Problem) (fuel : nat)
    (nx xo yo : Z) (inv dc ld : R) (ctr : Z) (t t' : list R) (l l' : Lane) :
  inputs_ok K m ->
  0 < p_energy (fst l) ->
  unit_direction (fst l) ->
  collision_event K fuel nx xo yo inv dc ld (cs_scatter_table m)
    (cs_absorb_table m) ctr (master_key m) t l = Ok (l', t') ->
  unit_direction (fst l').
Proof.
  intros Hok He Hu H. destruct l as [p c]. unfold unit_direction in *.
  simpl in *. unfold collision_event in H.
  destruct (generate_random_numbers K (c_key c) (master_key m) ctr)
    as [[[r0 r1] r2] r3] eqn:Ern.
  destruct (ok_rng K m Hok _ _ _ _ _ _ _ Ern) as (_ & Hr1 & _).
  assert (Hfinish : forall (x y ox oy e w ed : R) (d : bool) (t0 : list R),
    ox * ox + oy * oy = 1 ->
    (if d
     then Ok (mkParticle x y ox oy e w (p_dt_to_census p)
                (p_mfp_to_collision p) (p_cellx p) (p_celly p) d,
              mkCache (c_x_facet c) (c_absorb_cs_index c)
                (c_scatter_cs_index c) (c_cell_mfp c) (c_local_density c)
                (c_microscopic_cs_scatter c) (c_microscopic_cs_absorb c)
                (c_number_density c) (c_macroscopic_cs_scatter c)
                (c_macroscopic_cs_absorb c) (c_speed c) ed
                (c_distance_to_facet c) (c_key c) (c_next_event c), t0)
     else
       '(microscopic_cs_scatter, scatter_cs_index) <-
         microscopic_cs_for_energy_binary fuel (cs_scatter_table m) e ;;
       '(microscopic_cs_absorb, absorb_cs_index) <-
         microscopic_cs_for_energy_binary fuel (cs_absorb_table m) e ;;
       let number_density := ld * AVOGADROS K / MOLAR_MASS K in
       let macroscopic_cs_scatter :=
         number_density * microscopic_cs_scatter * BARNS K in
       let macroscopic_cs_absorb :=
         number_density * microscopic_cs_absorb * BARNS K in
       let mfp_to_collision := (- ln r3) / macroscopic_cs_scatter in
       let dt_to_census := p_dt_to_census p - dc / c_speed c in
       let speed := sqrt ((2 * e * eV_TO_J K) / PARTICLE_MASS K) in
       Ok (mkParticle x y ox oy e w dt_to_census mfp_to_collision (p_cellx p)
             (p_celly p) d,
           mkCache (c_x_facet c) absorb_cs_index scatter_cs_index
             (c_cell_mfp c) (c_local_density c) microscopic_cs_scatter
             microscopic_cs_absorb number_density macroscopic_cs_scatter
             macroscopic_cs_absorb speed ed (c_distance_to_facet c)
             (c_key c) (c_next_event c), t0)) = Ok (l', t') ->
    p_omega_x (fst l') * p_omega_x (fst l') +
    p_omega_y (fst l') * p_omega_y (fst l') = 1).
  { intros x y ox oy e w ed d t0 Hunit H'. destruct d.
    - injection H' as <- <-. exact Hunit.
    - destruct (microscopic_cs_for_energy_binary fuel (cs_scatter_table m) e)
        as [[ss si] | | |]; simpl in H'; try discriminate.
      destruct (microscopic_cs_for_energy_binary fuel (cs_absorb_table m) e)
        as [[sa ai] | | |]; simpl in H'; try discriminate.
      injection H' as <- <-. exact Hunit. }
  destruct (Rltb r0 _).
  - destruct (Rltb (p_energy p) (MIN_ENERGY_OF_INTEREST K)).
    + destruct (update_tallies _ _ _ _ _ _ _ _) as [t1 | | |]; simpl in H;
        try discriminate.
      injection H as <- <-. exact Hu.
    + simpl in H. apply Hfinish in H; assumption.
  - simpl in H. apply Hfinish in H; [assumption |].
    apply rotation_unit; [| assumption].
    apply (scatter_cos_bounded (MASS_NO K) (p_energy p) r1);
      eauto using ok_mass_no.
Qed.

(** One iteration of the loop keeps the norm of the direction of every
    lane. *)
Lemma lane_iteration_unit (K : Headers) (m : Problem) (fuel : nat)
    (ctr : Z) (s s' : Z * Z * Z) (t1 t1' t2 t2' : list R) (l l1 l2 l3 : Lane) :
  inputs_ok K m ->
  lane_invariant l ->
  unit_direction (fst l) ->
  calc_event_lane K (global_nx m) (pad m) (x_off m) (y_off m) (edgex m)
    (edgey m) s l = Ok (l1, s') ->
  collision_lane K fuel (nx m) (x_off m) (y_off m) (inv_ntotal_particles m)
    (cs_scatter_table m) (cs_absorb_table m) ctr (master_key m) t1 l1
  = Ok (l2, t1') ->
  facet_lane K (global_nx m) (global_ny m) (nx m) (x_off m) (y_off m)
    (inv_ntotal_particles m) (density m) t2 l2 = Ok (l3, t2') ->
  unit_direction (fst l3).
Proof.
  intros Hok Hinv Hu Hcalc Hcoll Hfacet.
  unfold calc_event_lane in Hcalc.
  destruct (calc_event _ _ _ _ _ _ _ _) as [l1' | | |] eqn:E; simpl in Hcalc;
    try discriminate.
  injection Hcalc as <- _. destruct l as [p c].
  assert (Hp : fst l1' = p).
  { unfold calc_event in E. destruct (p_dead p).
    - injection E as <-. reflexivity.
    - destruct (calc_distance_to_facet _ _ _ _ _ _ _ _ _ _ _ _ _ _)
        as [[df xf] | | |]; simpl in E; try discriminate.
      injection E as <-. reflexivity. }
  assert (Hu1 : unit_direction (fst l1')) by (rewrite Hp; exact Hu).
  unfold collision_lane in Hcoll. unfold facet_lane in Hfacet.
  destruct (Event_eqb (c_next_event (snd l1')) PARTICLE_COLLISION) eqn:Ec;
    simpl in Hcoll.
  - assert (Hlive : p_dead p = false).
    { destruct (p_dead p) eqn:Hdead; [| reflexivity].
      unfold calc_event in E. rewrite Hdead in E. injection E as <-.
      simpl in Ec. discriminate. }
    assert (He : 0 < p_energy (fst l1')).
    { rewrite Hp. apply (Hinv Hlive). }
    pose proof (collision_event_unit K m fuel _ _ _ _ _ _ _ _ _ _ _ Hok He Hu1
                  Hcoll) as Hu2.
    destruct (Event_eqb (c_next_event (snd l2)) PARTICLE_FACET); simpl in Hfacet.
    + exact (facet_event_unit K _ _ _ _ _ _ _ _ _ _ _ Hu2 Hfacet).
    + injection Hfacet as <- _. exact Hu2.
  - injection Hcoll as <- _.
    destruct (Event_eqb (c_next_event (snd l1')) PARTICLE_FACET); simpl in Hfacet.
    + exact (facet_event_unit K _ _ _ _ _ _ _ _ _ _ _ Hu1 Hfacet).
    + injection Hfacet as <- _. exact Hu1.
Qed.

Lemma outer_iteration_unit (K : Headers) (fuel : nat) (m : Problem)
    (found : positive) (st st' : BlockState) (again : bool) :
  inputs_ok K m ->
  Forall (fun l => lane_invariant l /\ unit_direction (fst l)) (lanes st) ->
  outer_iteration K fuel m found st = Ok (again, st') ->
  Forall (fun l => lane_invariant l /\ unit_direction (fst l)) (lanes st').
Proof.
  intros Hok Hinv H.
  assert (Hinv' : Forall lane_invariant (lanes st))
    by (apply Forall_impl with (2 := Hinv); intros l [Hl _]; exact Hl).
  pose proof (outer_iteration_invariant K fuel m found st st' again Hok Hinv' H)
    as Hinv3.
  apply Forall_forall. intros l3 Hin. split.
  { rewrite Forall_forall in Hinv3. auto. }
  clear Hinv3 Hinv'. revert l3 Hin. apply Forall_forall.
  unfold outer_iteration in H.
  destruct (for_lanes (calc_event_lane _ _ _ _ _ _ _) _ _)
    as [[lanes1 [[ncompleted nf] nc]] | | |] eqn:E1; simpl in H;
    try discriminate.
  apply for_lanes_Forall2 in E1.
  destruct (ncompleted =? BLOCK_SIZE K)%Z.
  - injection H as <- <-. simpl.
    apply (Forall2_Forall_step _ _ _ _ _) with (2 := E1) (3 := Hinv).
    intros l l1 [_ Hu] (s1 & s2 & Hc). unfold calc_event_lane in Hc.
    destruct (calc_event _ _ _ _ _ _ _ _) as [l1' | | |] eqn:E; simpl in Hc;
      try discriminate.
    injection Hc as <- _. destruct l as [p c]. unfold calc_event in E.
    destruct (p_dead p).
    + injection E as <-. exact Hu.
    + destruct (calc_distance_to_facet _ _ _ _ _ _ _ _ _ _ _ _ _ _)
        as [[df xf] | | |]; simpl in E; try discriminate.
      injection E as <-. exact Hu.
  - destruct (for_lanes (collision_lane _ _ _ _ _ _ _ _ _ _) _ _)
      as [[lanes2 tally2] | | |] eqn:E2; simpl in H; try discriminate.
    rewrite check_found_passes in H. simpl in H.
    destruct (for_lanes (facet_lane _ _ _ _ _ _ _ _) _ _)
      as [[lanes3 tally3] | | |] eqn:E3; simpl in H; try discriminate.
    injection H as <- <-. simpl.
    apply for_lanes_Forall2 in E2. apply for_lanes_Forall2 in E3.
    pose proof (Forall2_compose _ _ _ _ _ (Forall2_compose _ _ _ _ _ E1 E2) E3)
      as Hchain.
    apply (Forall2_Forall_step _ _ _ _ _) with (2 := Hchain) (3 := Hinv).
    intros l l3 [Hl Hu]
      (l2 & (l1 & (s1 & s2 & Hc) & (t1 & t1' & Hcol)) & (t2 & t2' & Hf)).
    exact (lane_iteration_unit K m fuel _ s1 s2 t1 t1' t2 t2' l l1 l2 l3
             Hok Hl Hu Hc Hcol Hf).
Qed.

(** The cache initialisation leaves the direction alone. *)
Lemma init_lane_direction (K : Headers) (fuel : nat) (nx pad xo yo : Z)
    (initial : bool) (dt : R) (dens : list R) (cs ca : CrossSection)
    (mk ctr bid : Z) (s s' : Z * Z) (l l' : Lane) :
  init_lane K fuel nx pad xo yo initial dt dens cs ca mk ctr bid s l
  = Ok (l', s') ->
  p_omega_x (fst l') = p_omega_x (fst l) /\
  p_omega_y (fst l') = p_omega_y (fst l).
Proof.
  intros H. destruct l as [p c]. destruct s as [ip np]. unfold init_lane in H.
  destruct (p_dead p).
  - injection H as <- _. split; reflexivity.
  - destruct (read dens _) as [ld | | |]; simpl in H; try discriminate.
    destruct (microscopic_cs_for_energy_binary fuel cs _) as [[ss si] | | |];
      simpl in H; try discriminate.
    destruct (microscopic_cs_for_energy_binary fuel ca _) as [[sa ai] | | |];
      simpl in H; try discriminate.
    destruct initial;
      [destruct (generate_random_numbers K _ _ _) as [[[r0 r1] r2] r3] |];
      injection H as <- _; split; reflexivity.
Qed.

(** X1.  In exact arithmetic, under the assumptions of
    [loop_head_counters_nonneg], a block of particles whose directions have
    norm 1 has particles whose directions have norm 1 at every head of the
    loop: the scattering rotation and the reflection at the mesh boundary
    keep [omega_x * omega_x + omega_y * omega_y = 1] exactly.  The rounding
    of binary64 arithmetic is outside this statement. *)
Theorem loop_head_unit_direction (K : Headers) (fuel : nat) (m : Problem)
    (found : positive) (dt : R) (bid : Z) (tally0 : list R)
    (nf nc np np' : Z) (lanes0 : list Lane) (st0 st : BlockState) :
  inputs_ok K m ->
  0 <= dt ->
  Forall (fun l => p_dead (fst l) = false -> 0 < p_energy (fst l)) lanes0 ->
  Forall (fun l => unit_direction (fst l)) lanes0 ->
  init_block K fuel m true dt bid tally0 nf nc np lanes0 = Ok (st0, np') ->
  loop_head K fuel m found st0 st ->
  Forall (fun l => unit_direction (fst l)) (lanes st).
Proof.
  intros Hok Hdt He Hu Hinit Hhead.
  pose proof (init_block_invariant K fuel m dt bid tally0 nf nc np np' lanes0
                st0 Hok Hdt He Hinit) as H0.
  assert (Hu0 : Forall (fun l => unit_direction (fst l)) (lanes st0)).
  { unfold init_block in Hinit.
    destruct (for_lanes _ _ _) as [[lanes1 [ip np1]] | | |] eqn:E;
      simpl in Hinit; try discriminate.
    injection Hinit as <- _. simpl. apply for_lanes_Forall2 in E.
    apply (Forall2_Forall_step _ _ _ _ _) with (2 := E) (3 := Hu).
    intros l l' Hl (s1 & s2 & Hi).
    destruct (init_lane_direction _ _ _ _ _ _ _ _ _ _ _ _ _ _ _ _ _ _ Hi)
      as [Hx Hy].
    unfold unit_direction in *. rewrite Hx, Hy. exact Hl. }
  assert (Hall : Forall (fun l => lane_invariant l /\ unit_direction (fst l))
                   (lanes st)).
  { induction Hhead as [| st st1 _ IH Hstep].
    - rewrite Forall_forall in *. auto.
    - exact (outer_iteration_unit K fuel m found st st1 true Hok IH Hstep). }
  apply Forall_impl with (2 := Hall). intros l [_ Hl]. exact Hl.
Qed.

Lemma loop_head_unit_direction_witness :
  exists st0 np' st1,
    init_block sample_headers 10 sample_problem true 1 0 [0] 0 0 0 event_lanes
    = Ok (st0, np') /\
    outer_iteration sample_headers 10 sample_problem 1%positive st0
    = Ok (true, st1) /\
    ncollisions st1 = 1%Z /\ nfacets st1 = 1%Z /\
    Forall (fun l => unit_direction (fst l)) (lanes st1).
Proof.
  destruct sample_event_iteration as (st0 & np' & st1 & Hi & Hit & Hc & Hf).
  exists st0, np', st1. repeat split; try assumption.
  apply (loop_head_unit_direction sample_headers 10 sample_problem 1%positive
           1 0 [0] 0 0 0 np' event_lanes st0 st1 sample_inputs_ok).
  - lra.
  - unfold event_lanes. repeat constructor; simpl; intros; lra.
  - unfold event_lanes, unit_direction. repeat constructor; simpl; lra.
  - exact Hi.
  - eapply head_next; [apply head_first | exact Hit].
Defined.

(** X2.  In exact arithmetic, an injected particle has a direction of norm
    1: [(cos theta, sin theta)]. *)
Theorem inject_particle_unit (K : Headers) (lnx lny pad : Z) (lo bo w h : R)
    (xo yo : Z) (dt : R) (ex ey : list R) (e0 : R) (pid : Z) (p : Particle) :
  inject_particle K lnx lny pad lo bo w h xo yo dt ex ey e0 pid = Ok p ->
  unit_direction p.
Proof.
  unfold inject_particle. intros H.
  destruct (generate_random_numbers K pid 0 0) as [[[r0 r1] r2] r3].
  destruct (find_cell _ _ _ _ _ _) as [cx | | |]; simpl in H; try discriminate.
  destruct (find_cell _ _ _ _ _ _) as [cy | | |]; simpl in H; try discriminate.
  injection H as <-. unfold unit_direction. simpl.
  pose proof (sin2_cos2 (2 * PI * r2)) as Hsc. unfold Rsqr in Hsc. lra.
Qed.

Lemma inject_particle_sample :
  exists p,
    inject_particle sample_headers 1 1 0 0 0 1 1 0 0 1 [0; 1] [0; 1] 1 0 = Ok p.
Proof.
  unfold inject_particle, generate_random_numbers. simpl.
  Rcompare. simpl. Rcompare. simpl. eauto.
Qed.

Lemma inject_particle_unit_witness :
  exists p,
    inject_particle sample_headers 1 1 0 0 0 1 1 0 0 1 [0; 1] [0; 1] 1 0 = Ok p /\
    unit_direction p.
Proof.
  destruct inject_particle_sample as (p & H). exists p. split; [exact H |].
  exact (inject_particle_unit sample_headers 1 1 0 0 0 1 1 0 0 1 [0; 1] [0; 1]
           1 0 p H).
Defined.

(** ** The norm of the direction, in binary64 arithmetic *)

(** The scattering branch of [collision_event] stores, in exact arithmetic,
    the direction and the energy that [scatter] computes. *)
Lemma collision_event_scatters (K : Headers) (fuel : nat) (nx xo yo : Z)
    (inv dc ld : R) (cs ca : CrossSection) (ctr mk : Z) (t t' : list R)
    (p : Particle) (c : Cache) (l' : Lane) (r0 r1 r2 r3 : R) :
  collision_event K fuel nx xo yo inv dc ld cs ca ctr mk t (p, c) = Ok (l', t') ->
  generate_random_numbers K (c_key c) mk ctr = (r0, r1, r2, r3) ->
  c_macroscopic_cs_absorb c /
    (c_macroscopic_cs_scatter c + c_macroscopic_cs_absorb c) <= r0 ->
  (p_omega_x (fst l'), p_omega_y (fst l'), p_energy (fst l'))
  = scatter (MASS_NO K) (p_energy p) (p_omega_x p) (p_omega_y p) r1.
Proof.
  intros H Ern Ha. unfold collision_event in H. rewrite Ern in H.
  rewrite Rltb_false in H by exact Ha. simpl in H.
  destruct (p_dead p) eqn:Hdead.
  - injection H as <- _. reflexivity.
  - destruct (microscopic_cs_for_energy_binary fuel cs _)
      as [[ss si] | | |]; simpl in H; try discriminate.
    destruct (microscopic_cs_for_energy_binary fuel ca _)
      as [[sa ai] | | |]; simpl in H; try discriminate.
    injection H as <- _. reflexivity.
Qed.

(** C9.  In binary64 arithmetic a scattering can leave a direction that is
    not of norm 1 within 1e-12: for [MASS_NO = 100], a particle of energy 3.7
    and direction [(0.6, 0.8)], of norm 1 within 1e-12, and the random number
    [2^-65], [mu_cm] rounds to 1, [cos_theta] exceeds 1 by rounding, [1 -
    cos_theta * cos_theta] is negative and its square root is not a number:
    both components of the new direction are NaN. *)
Theorem scatter_binary64_direction_nan :
  unit_within 0x1.19799812dea11p-40 0x1.3333333333333p-1 0x1.999999999999ap-1
  = true /\
  let '(omega_x, omega_y, _) :=
    scatter 100%float 0x1.d99999999999ap+1%float 0x1.3333333333333p-1%float
      0x1.999999999999ap-1%float 0x1p-65%float in
  PrimFloat.is_nan omega_x = true /\ PrimFloat.is_nan omega_y = true /\
  unit_within 0x1.19799812dea11p-40 omega_x omega_y = false.
Proof. vm_compute. repeat split; reflexivity. Qed.

(** ** A sample time step *)

(** With a time step of 0 the live particle of [census_lanes] reaches census
    at once. *)
Lemma sample_handle_block (bid nf nc np : Z) (t0 : R) :
  exists st np' t1,
    handle_block sample_headers 1 10 sample_problem 1%positive true 0 bid [t0]
      nf nc np census_lanes = Ok (st, np') /\
    tally st = [t1] /\ nfacets st = (nf + 0)%Z /\ ncollisions st = (nc + 0)%Z.
Proof.
  assert (Hln : ln (2 * (1 / 4) + 1 / 8) < 0).
  { rewrite <- ln_1. apply ln_increasing; lra. }
  unfold handle_block, init_block, census_lanes, dead_lane.
  cbn [for_lanes].
  unfold init_lane, generate_random_numbers, microscopic_cs_for_energy_binary.
  simpl. Rcompare. simpl. Rcompare. simpl. Rcompare. simpl. Rcompare. simpl.
  rewrite sample_speed.
  unfold outer_iteration.
  cbn [lanes counter tally nfacets ncollisions for_lanes].
  unfold calc_event_lane, calc_event, calc_distance_to_facet, facet_times,
    select_event.
  simpl. Rcompare. simpl. Rcompare. simpl.
  rewrite andb_false_r. simpl.
  unfold census_lane, census_event, update_tallies. simpl.
  do 3 eexists. repeat split; reflexivity.
Qed.

Lemma sample_solve_transport_2d :
  exists ps' t' nf' nc',
    solve_transport_2d sample_headers 1 10 sample_problem 1%positive 0 2
      (fun _ => [sample_cache; sample_cache]) 6 census_store [0] 0 0
    = Ok (ps', t', nf', nc') /\
    length ps' = 3%nat.
Proof.
  unfold solve_transport_2d, handle_particles. cbn [Z.eqb].
  replace (Z.quot 6 (BLOCK_SIZE sample_headers)) with 3%Z by reflexivity.
  change (map Z.of_nat (seq 0 (Z.to_nat 2))) with [0%Z; 1%Z].
  cbn [run_threads].
  change (thread_blocks 2 3 0) with [0%Z].
  change (thread_blocks 2 3 1) with [1%Z].
  cbn [thread_loop particles energy_deposition_tally sum_nfacets
       sum_ncollisions sum_nparticles].
  replace (read census_store 0) with (Ok (map fst census_lanes)) by reflexivity.
  cbn [bind].
  replace (combine (map fst census_lanes) [sample_cache; sample_cache])
    with census_lanes by reflexivity.
  destruct (sample_handle_block 0 0 0 0 0) as (st & np1 & t1 & H & Ht & _).
  rewrite H. cbn [bind]. unfold census_store at 1. cbn [store_block Z.to_nat bind].
  cbn [thread_loop particles energy_deposition_tally sum_nfacets
       sum_ncollisions sum_nparticles bind].
  replace (read [map fst (lanes st); map fst census_lanes; map fst census_lanes] 1)
    with (Ok (map fst census_lanes)) by reflexivity.
  cbn [bind].
  replace (combine (map fst census_lanes) [sample_cache; sample_cache])
    with census_lanes by reflexivity.
  rewrite Ht.
  destruct (sample_handle_block 1 (nfacets st) (ncollisions st) np1 t1)
    as (st2 & np2 & t2 & H2 & Ht2 & _).
  rewrite H2. simpl. do 4 eexists. split; reflexivity.
Qed.

(** ** The partition of the blocks among the threads *)

Lemma thread_blocks_seq (nthreads nb : Z) (a : nat) :
  thread_blocks nthreads nb (Z.of_nat a)
  = map Z.of_nat (seq (a * Z.to_nat (Z.quot nb nthreads))
                      (Z.to_nat (Z.quot nb nthreads))).
Proof.
  unfold thread_blocks.
  destruct (Z.le_gt_cases 0 (Z.quot nb nthreads)) as [Hq | Hq].
  - set (q := Z.quot nb nthreads) in *.
    apply nth_ext with (d := 0%Z) (d' := 0%Z).
    + rewrite !length_map, !length_seq. reflexivity.
    + intros n Hn. rewrite length_map, length_seq in Hn.
      rewrite (nth_indep _ 0%Z (Z.of_nat a * q + Z.of_nat 0)%Z)
        by (rewrite length_map, length_seq; exact Hn).
      rewrite (map_nth (fun b => (Z.of_nat a * q + Z.of_nat b)%Z)).
      rewrite (nth_indep _ 0%Z (Z.of_nat 0))
        by (rewrite length_map, length_seq; exact Hn).
      rewrite (map_nth Z.of_nat).
      rewrite !seq_nth by exact Hn. lia.
  - replace (Z.to_nat (Z.quot nb nthreads)) with 0%nat by lia. reflexivity.
Qed.

Lemma flat_map_thread_blocks (nthreads nb : Z) (n a : nat) :
  flat_map (thread_blocks nthreads nb) (map Z.of_nat (seq a n))
  = map Z.of_nat (seq (a * Z.to_nat (Z.quot nb nthreads))
                      (n * Z.to_nat (Z.quot nb nthreads))).
Proof.
  revert a. induction n as [| n IH]; intros a; simpl; [reflexivity |].
  rewrite thread_blocks_seq, IH, seq_app, map_app.
  do 3 f_equal. lia.
Qed.

(** The blocks of successive threads are all different. *)
Lemma thread_blocks_NoDup (nthreads nb : Z) (n a : nat) :
  NoDup (flat_map (thread_blocks nthreads nb) (map Z.of_nat (seq a n))).
Proof.
  rewrite flat_map_thread_blocks.
  apply NoDup_map_NoDup_ForallPairs.
  - intros x y _ _ H. lia.
  - apply seq_NoDup.
Qed.

(** X4.  The parallel region of [handle_particles] hands no block to two
    threads, and none twice to the same thread. *)
Theorem processed_blocks_NoDup (K : Headers) (nthreads n : Z) :
  NoDup (processed_blocks K nthreads n).
Proof.
  unfold processed_blocks.
  exact (thread_blocks_NoDup nthreads (Z.quot n (BLOCK_SIZE K))
           (Z.to_nat nthreads) 0).
Qed.

(** A thread that is given no block leaves everything as it is. *)
Lemma run_threads_idle (K : Headers) (n fuel : nat) (m : Problem)
    (found : positive) (initial : bool) (dt : R) (nthreads nb : Z)
    (cache0 : Z -> list Cache) (tids : list Z) (sh : Shared) :
  Z.quot nb nthreads = 0%Z ->
  run_threads K n fuel m found initial dt nthreads nb cache0 tids sh = Ok sh.
Proof.
  intros Hq. induction tids as [| tid tids IH]; simpl; [reflexivity |].
  unfold thread_blocks. rewrite Hq. simpl. exact IH.
Qed.

Lemma handle_particles_idle (K : Headers) (n fuel : nat) (m : Problem)
    (found : positive) (initial : bool) (dt : R) (nthreads : Z)
    (cache0 : Z -> list Cache) (nparticles : Z)
    (ps : list (list Particle)) (t : list R) (nf nc : Z) :
  (0 <= Z.quot nparticles (BLOCK_SIZE K) < nthreads)%Z ->
  handle_particles K n fuel m found initial dt nthreads cache0 nparticles
    ps t nf nc = Ok (ps, t, nf, nc).
Proof.
  intros H. unfold handle_particles.
  rewrite run_threads_idle by (apply Z.quot_small; exact H).
  simpl. rewrite !Z.add_0_r. reflexivity.
Qed.

(** X5.  When there are more threads than blocks, every thread is given
    [nb / nthreads = 0] blocks: the time step returns the particle store,
    the tally and the event counters as it received them, and no particle
    is transported. *)
Theorem solve_transport_2d_more_threads_than_blocks (K : Headers)
    (n fuel : nat) (m : Problem) (found : positive) (dt : R) (nthreads : Z)
    (cache0 : Z -> list Cache) (nparticles : Z)
    (ps : list (list Particle)) (t : list R) (nf nc : Z) :
  (0 <= Z.quot nparticles (BLOCK_SIZE K) < nthreads)%Z ->
  solve_transport_2d K n fuel m found dt nthreads cache0 nparticles ps t nf nc
  = Ok (ps, t, nf, nc).
Proof.
  intros H. unfold solve_transport_2d.
  destruct (nparticles =? 0)%Z; [reflexivity |].
  apply handle_particles_idle. exact H.
Qed.

Lemma solve_transport_2d_more_threads_than_blocks_witness :
  solve_transport_2d sample_headers 1 1 sample_problem 1%positive 1 4
    (fun _ => []) 6 [[sample_particle; sample_particle];
                     [sample_particle; sample_particle];
                     [sample_particle; sample_particle]] [0] 0 0
  = Ok ([[sample_particle; sample_particle];
         [sample_particle; sample_particle];
         [sample_particle; sample_particle]], [0], 0%Z, 0%Z).
Proof.
  apply (solve_transport_2d_more_threads_than_blocks sample_headers 1 1
           sample_problem 1%positive 1 4 (fun _ => []) 6).
  vm_compute. split; [discriminate | reflexivity].
Defined.

(** X6.  A time step leaves unchanged every block of the particle store
    that no thread works on. *)
Theorem solve_transport_2d_frame (K : Headers) (n fuel : nat) (m : Problem)
    (found : positive) (dt : R) (nthreads : Z) (cache0 : Z -> list Cache)
    (nparticles : Z) (ps ps' : list (list Particle)) (t t' : list R)
    (nf nc nf' nc' b : Z) :
  solve_transport_2d K n fuel m found dt nthreads cache0 nparticles ps t nf nc
  = Ok (ps', t', nf', nc') ->
  ~ In b (processed_blocks K nthreads nparticles) ->
  read ps' b = read ps b.
Proof.
  unfold solve_transport_2d. intros H Hb.
  destruct (nparticles =? 0)%Z.
  - injection H as <- _ _ _. reflexivity.
  - exact (handle_particles_frame K n fuel m found true dt nthreads cache0
             nparticles ps ps' t t' nf nc nf' nc' b H Hb).
Qed.

Lemma solve_transport_2d_frame_witness :
  exists ps' t' nf' nc',
    solve_transport_2d sample_headers 1 10 sample_problem 1%positive 0 2
      (fun _ => [sample_cache; sample_cache]) 6 census_store [0] 0 0
    = Ok (ps', t', nf', nc') /\
    read ps' 2 = read census_store 2.
Proof.
  destruct sample_solve_transport_2d as (ps' & t' & nf' & nc' & H & _).
  exists ps', t', nf', nc'. split; [exact H |].
  apply (solve_transport_2d_frame sample_headers 1 10 sample_problem
           1%positive 0 2 (fun _ => [sample_cache; sample_cache]) 6
           census_store ps' [0] t' 0 0 nf' nc' 2 H).
  vm_compute. intros [E | [E | []]]; discriminate.
Defined.

(** ** The passes of the block event loop, lane by lane *)

Lemma Forall2_refl {A : Type} (R : A -> A -> Prop) (xs : list A) :
  (forall x, R x x) -> Forall2 R xs xs.
Proof. intros H. induction xs; constructor; auto. Qed.

Lemma Forall2_impl {A : Type} (R1 R2 : A -> A -> Prop) (xs ys : list A) :
  (forall x y, R1 x y -> R2 x y) -> Forall2 R1 xs ys -> Forall2 R2 xs ys.
Proof. intros H H1. induction H1; constructor; auto. Qed.

Lemma Forall2_trans {A : Type} (R : A -> A -> Prop) (xs ys zs : list A) :
  (forall x y z, R x y -> R y z -> R x z) ->
  Forall2 R xs ys -> Forall2 R ys zs -> Forall2 R xs zs.
Proof.
  intros Ht H1 H2. pose proof (Forall2_compose _ _ _ _ _ H1 H2) as H.
  apply Forall2_impl with (2 := H). intros x z (y & Hxy & Hyz). eauto.
Qed.

(** An iteration of the loop works on every lane on its own. *)
Lemma outer_iteration_lanes (K : Headers) (fuel : nat) (m : Problem)
    (found : positive) (st st' : BlockState) (again : bool) :
  outer_iteration K fuel m found st = Ok (again, st') ->
  if again
  then Forall2 (lane_step K fuel m (counter st)) (lanes st) (lanes st')
  else Forall2 (lane_classified K m) (lanes st) (lanes st').
Proof.
  intros H. unfold outer_iteration in H.
  destruct (for_lanes (calc_event_lane _ _ _ _ _ _ _) _ _)
    as [[lanes1 [[ncompleted nf] nc]] | | |] eqn:E1; simpl in H;
    try discriminate.
  apply for_lanes_Forall2 in E1.
  destruct (ncompleted =? BLOCK_SIZE K)%Z.
  - injection H as <- <-. simpl. exact E1.
  - destruct (for_lanes (collision_lane _ _ _ _ _ _ _ _ _ _) _ _)
      as [[lanes2 tally2] | | |] eqn:E2; simpl in H; try discriminate.
    rewrite check_found_passes in H. simpl in H.
    destruct (for_lanes (facet_lane _ _ _ _ _ _ _ _) _ _)
      as [[lanes3 tally3] | | |] eqn:E3; simpl in H; try discriminate.
    injection H as <- <-. simpl.
    apply for_lanes_Forall2 in E2. apply for_lanes_Forall2 in E3.
    pose proof (Forall2_compose _ _ _ _ _ (Forall2_compose _ _ _ _ _ E1 E2) E3)
      as Hchain.
    apply Forall2_impl with (2 := Hchain).
    intros l l3 (l2 & (l1 & (s1 & s2 & Hc) & (t1 & t1' & Hcol)) & (t2 & t2' & Hf)).
    exists s1, s2, t1, t1', t2, t2', l1, l2. auto.
Qed.

(** The loop ends at a head from which the classification pass finds every
    lane completed. *)
Lemma event_loop_stages (K : Headers) (n fuel : nat) (m : Problem)
    (found : positive) (st0 st1 : BlockState) :
  event_loop K n fuel m found st0 = Ok st1 ->
  exists st,
    loop_head K fuel m found st0 st /\
    outer_iteration K fuel m found st = Ok (false, st1).
Proof.
  intros H.
  assert (G : forall st, loop_head K fuel m found st0 st ->
                event_loop K n fuel m found st = Ok st1 ->
                exists st', loop_head K fuel m found st0 st' /\
                            outer_iteration K fuel m found st' = Ok (false, st1)).
  { clear H. induction n as [| n IH]; intros st Hst H; simpl in H;
      [discriminate |].
    destruct (outer_iteration K fuel m found st) as [[again st2] | | |] eqn:E;
      simpl in H; try discriminate.
    destruct again.
    - apply (IH st2); [| exact H]. eapply head_next; eauto.
    - injection H as <-. eauto. }
  apply (G st0); [apply head_first | exact H].
Qed.

(** The stages of the work on a block. *)
Lemma handle_block_stages (K : Headers) (n fuel : nat) (m : Problem)
    (found : positive) (initial : bool) (dt : R) (bid : Z) (tally0 : list R)
    (nf nc np np' : Z) (lanes0 : list Lane) (stf : BlockState) :
  handle_block K n fuel m found initial dt bid tally0 nf nc np lanes0
  = Ok (stf, np') ->
  exists st0 st st1,
    init_block K fuel m initial dt bid tally0 nf nc np lanes0 = Ok (st0, np') /\
    loop_head K fuel m found st0 st /\
    outer_iteration K fuel m found st = Ok (false, st1) /\
    Forall2 (lane_census K m) (lanes st1) (lanes stf) /\
    counter stf = counter st1 /\ nfacets stf = nfacets st1 /\
    ncollisions stf = ncollisions st1.
Proof.
  intros H. unfold handle_block in H.
  destruct (init_block _ _ _ _ _ _ _ _ _ _ _) as [[st0 np1] | | |] eqn:E0;
    simpl in H; try discriminate.
  destruct (event_loop _ _ _ _ _ _) as [st1 | | |] eqn:E1; simpl in H;
    try discriminate.
  destruct (for_lanes _ _ _) as [[lanes2 tally2] | | |] eqn:E2; simpl in H;
    try discriminate.
  injection H as <- <-.
  destruct (event_loop_stages _ _ _ _ _ _ _ E1) as (st & Hst & Hlast).
  exists st0, st, st1. simpl. repeat split; auto.
  apply for_lanes_Forall2 in E2.
  apply Forall2_impl with (2 := E2).
  intros l l' (t & t' & Hc). exists t, t'. exact Hc.
Qed.

(** A relation between the lanes of a block at the first head of the loop
    and at a later head, from what an iteration makes of a lane. *)
Lemma loop_head_Forall2 (K : Headers) (fuel : nat) (m : Problem)
    (found : positive) (R : Lane -> Lane -> Prop) (st0 st : BlockState) :
  (forall l, R l l) ->
  (forall ctr l0 l l', R l0 l -> lane_step K fuel m ctr l l' -> R l0 l') ->
  loop_head K fuel m found st0 st ->
  Forall2 R (lanes st0) (lanes st).
Proof.
  intros Hrefl Hstep Hhead. induction Hhead as [| st st1 _ IH Hit].
  - apply Forall2_refl. exact Hrefl.
  - apply outer_iteration_lanes in Hit. simpl in Hit.
    pose proof (Forall2_compose _ _ _ _ _ IH Hit) as Hc.
    apply Forall2_impl with (2 := Hc).
    intros l0 l' (l & H1 & H2). eauto.
Qed.

(** A property of the lanes that every iteration keeps holds at every head
    of the loop. *)
Lemma loop_head_Forall (K : Headers) (fuel : nat) (m : Problem)
    (found : positive) (P : Lane -> Prop) (st0 st : BlockState) :
  (forall ctr l l', P l -> lane_step K fuel m ctr l l' -> P l') ->
  Forall P (lanes st0) ->
  loop_head K fuel m found st0 st ->
  Forall P (lanes st).
Proof.
  intros Hstep H0 Hhead. induction Hhead as [| st st1 _ IH Hit].
  - exact H0.
  - apply outer_iteration_lanes in Hit. simpl in Hit.
    apply (Forall2_Forall_step _ _ _ _ _) with (2 := Hit) (3 := IH).
    intros l l'. apply Hstep.
Qed.

(** The classification pass keeps the particle of a lane, and tags the lane
    as dead exactly when its particle is dead. *)
Lemma lane_classified_spec (K : Headers) (m : Problem) (l l1 : Lane) :
  lane_classified K m l l1 ->
  fst l1 = fst l /\
  (c_next_event (snd l1) = PARTICLE_DEAD <-> p_dead (fst l) = true).
Proof.
  intros (s & s' & H). unfold calc_event_lane in H.
  destruct (calc_event _ _ _ _ _ _ _ _) as [l1' | | |] eqn:E; simpl in H;
    try discriminate.
  injection H as <- _. destruct l as [p c]. simpl.
  destruct (p_dead p) eqn:Hdead.
  - unfold calc_event in E. rewrite Hdead in E. injection E as <-. simpl.
    split; [reflexivity | split; reflexivity].
  - destruct (calc_event_live _ _ _ _ _ _ _ _ _ _ Hdead E)
      as (df & xf & _ & Hp & _ & _ & _ & Hev & _).
    split; [exact Hp |]. rewrite Hev. split; [| discriminate].
    intros H. exfalso. exact (select_event_not_dead _ _ _ H).
Qed.

(** What the collision kernel stores in the particle: the move to the
    collision site, then either an absorption, which scales the weight, or a
    scattering, which rotates the direction and lowers the energy. *)
Lemma collision_event_fields (K : Headers) (fuel : nat) (nx xo yo : Z)
    (inv dc ld : R) (cs ca : CrossSection) (ctr mk : Z) (t t' : list R)
    (p : Particle) (c : Cache) (l' : Lane) :
  collision_event K fuel nx xo yo inv dc ld cs ca ctr mk t (p, c) = Ok (l', t') ->
  exists r0 r1 r2 r3,
    generate_random_numbers K (c_key c) mk ctr = (r0, r1, r2, r3) /\
    p_x (fst l') = p_x p + dc * p_omega_x p /\
    p_y (fst l') = p_y p + dc * p_omega_y p /\
    p_cellx (fst l') = p_cellx p /\
    p_celly (fst l') = p_celly p /\
    c_next_event (snd l') = c_next_event c /\
    c_key (snd l') = c_key c /\
    let p_absorb :=
      c_macroscopic_cs_absorb c /
      (c_macroscopic_cs_scatter c + c_macroscopic_cs_absorb c) in
    (r0 < p_absorb /\
     p_weight (fst l') = p_weight p * (1 - p_absorb) /\
     p_energy (fst l') = p_energy p /\
     p_omega_x (fst l') = p_omega_x p /\
     p_omega_y (fst l') = p_omega_y p /\
     p_dead (fst l') =
       (if Rltb (p_energy p) (MIN_ENERGY_OF_INTEREST K) then true
        else p_dead p)) \/
    (p_absorb <= r0 /\
     p_weight (fst l') = p_weight p /\
     p_energy (fst l') =
       p_energy p *
       (MASS_NO K * MASS_NO K + 2 * MASS_NO K * (1 - 2 * r1) + 1) /
       ((MASS_NO K + 1) * (MASS_NO K + 1)) /\
     p_dead (fst l') = p_dead p).
Proof.
  intros H. unfold collision_event in H.
  destruct (generate_random_numbers K (c_key c) mk ctr)
    as [[[r0 r1] r2] r3] eqn:Ern.
  exists r0, r1, r2, r3. split; [reflexivity |].
  destruct (Rltb r0 _) eqn:Ea.
  - apply Rltb_iff in Ea.
    destruct (Rltb (p_energy p) (MIN_ENERGY_OF_INTEREST K)) eqn:Emin.
    + destruct (update_tallies _ _ _ _ _ _ _ _) as [t1 | | |]; simpl in H;
        try discriminate.
      injection H as <- <-. simpl. repeat split; try reflexivity.
      left. repeat split; try reflexivity. exact Ea.
    + simpl in H. destruct (p_dead p) eqn:Hdead.
      * injection H as <- <-. simpl. repeat split; try reflexivity.
        left. repeat split; try reflexivity; auto.
      * destruct (microscopic_cs_for_energy_binary fuel cs _)
          as [[ss si] | | |]; simpl in H; try discriminate.
        destruct (microscopic_cs_for_energy_binary fuel ca _)
          as [[sa ai] | | |]; simpl in H; try discriminate.
        injection H as <- <-. simpl. repeat split; try reflexivity.
        left. repeat split; try reflexivity; auto.
  - apply Rltb_iff_false in Ea. simpl in H.
    destruct (p_dead p) eqn:Hdead.
    + injection H as <- <-. simpl. repeat split; try reflexivity.
      right. repeat split; try reflexivity; auto.
    + destruct (microscopic_cs_for_energy_binary fuel cs _)
        as [[ss si] | | |]; simpl in H; try discriminate.
      destruct (microscopic_cs_for_energy_binary fuel ca _)
        as [[sa ai] | | |]; simpl in H; try discriminate.
      injection H as <- <-. simpl. repeat split; try reflexivity.
      right. repeat split; try reflexivity; auto.
Qed.

(** What the facet kernel stores in the particle. *)
Lemma facet_event_fields (K : Headers) (gnx gny nx xo yo : Z) (inv : R)
    (dens t t' : list R) (p : Particle) (c : Cache) (l' : Lane) :
  facet_event K gnx gny nx xo yo inv dens t (p, c) = Ok (l', t') ->
  p_x (fst l') = p_x p + c_distance_to_facet c * p_omega_x p /\
  p_y (fst l') = p_y p + c_distance_to_facet c * p_omega_y p /\
  (p_omega_x (fst l'), p_omega_y (fst l'), p_cellx (fst l'), p_celly (fst l'))
  = facet_cross gnx gny (c_x_facet c) (p_omega_x p) (p_omega_y p)
      (p_cellx p) (p_celly p) /\
  p_energy (fst l') = p_energy p /\
  p_weight (fst l') = p_weight p /\
  p_dead (fst l') = p_dead p /\
  p_mfp_to_collision (fst l')
  = p_mfp_to_collision p - c_distance_to_facet c / c_cell_mfp c /\
  p_dt_to_census (fst l')
  = p_dt_to_census p - c_distance_to_facet c / c_speed c /\
  c_next_event (snd l') = c_next_event c /\
  c_key (snd l') = c_key c.
Proof.
  intros H. unfold facet_event in H.
  destruct (update_tallies _ _ _ _ _ _ _ _) as [t1 | | |]; simpl in H;
    try discriminate.
  destruct (facet_cross _ _ _ _ _ _ _) as [[[ox oy] cx] cy] eqn:Ec.
  destruct (read dens _) as [ld | | |]; simpl in H; try discriminate.
  injection H as <- <-. simpl. repeat split; reflexivity.
Qed.

(** The collision pass and the facet pass skip the lanes that carry another
    tag. *)
Lemma collision_lane_skip (K : Headers) (fuel : nat) (nx xo yo : Z) (inv : R)
    (cs ca : CrossSection) (ctr mk : Z) (t t' : list R) (l l' : Lane) :
  c_next_event (snd l) <> PARTICLE_COLLISION ->
  collision_lane K fuel nx xo yo inv cs ca ctr mk t l = Ok (l', t') ->
  l' = l /\ t' = t.
Proof.
  intros Htag H. unfold collision_lane in H.
  destruct (c_next_event (snd l)); simpl in H;
    try (injection H as <- <-; split; reflexivity).
  contradiction.
Qed.

Lemma facet_lane_skip (K : Headers) (gnx gny nx xo yo : Z) (inv : R)
    (dens t t' : list R) (l l' : Lane) :
  c_next_event (snd l) <> PARTICLE_FACET ->
  facet_lane K gnx gny nx xo yo inv dens t l = Ok (l', t') ->
  l' = l /\ t' = t.
Proof.
  intros Htag H. unfold facet_lane in H.
  destruct (c_next_event (snd l)); simpl in H;
    try (injection H as <- <-; split; reflexivity).
  contradiction.
Qed.

(** The passes of an iteration keep the tag that the classification pass
    has given to a lane. *)
Lemma collision_lane_tag (K : Headers) (fuel : nat) (nx xo yo : Z) (inv : R)
    (cs ca : CrossSection) (ctr mk : Z) (t t' : list R) (l l' : Lane) :
  collision_lane K fuel nx xo yo inv cs ca ctr mk t l = Ok (l', t') ->
  c_next_event (snd l') = c_next_event (snd l).
Proof.
  intros H.
  destruct (Event_eqb (c_next_event (snd l)) PARTICLE_COLLISION) eqn:E.
  - unfold collision_lane in H. rewrite E in H. simpl in H.
    destruct l as [p c].
    destruct (collision_event_fields _ _ _ _ _ _ _ _ _ _ _ _ _ _ _ _ _ H)
      as (r0 & r1 & r2 & r3 & _ & _ & _ & _ & _ & Htag & _).
    exact Htag.
  - unfold collision_lane in H. rewrite E in H. simpl in H.
    injection H as <- _. reflexivity.
Qed.

Lemma facet_lane_tag (K : Headers) (gnx gny nx xo yo : Z) (inv : R)
    (dens t t' : list R) (l l' : Lane) :
  facet_lane K gnx gny nx xo yo inv dens t l = Ok (l', t') ->
  c_next_event (snd l') = c_next_event (snd l).
Proof.
  intros H. unfold facet_lane in H.
  destruct (Event_eqb (c_next_event (snd l)) PARTICLE_FACET) eqn:E;
    simpl in H.
  - destruct l as [p c].
    destruct (facet_event_fields _ _ _ _ _ _ _ _ _ _ _ _ _ H)
      as (_ & _ & _ & _ & _ & _ & _ & _ & Htag & _).
    exact Htag.
  - injection H as <- _. reflexivity.
Qed.

(** An iteration of the loop applies to a lane the kernel of its tag, and
    nothing to a lane that is dead or has reached census. *)
Lemma lane_step_cases (K : Headers) (fuel : nat) (m : Problem) (ctr : Z)
    (l l3 : Lane) :
  lane_step K fuel m ctr l l3 ->
  exists l1,
    lane_classified K m l l1 /\
    match c_next_event (snd l1) with
    | PARTICLE_COLLISION =>
      exists t t',
        collision_event K fuel (nx m) (x_off m) (y_off m)
          (inv_ntotal_particles m)
          (p_mfp_to_collision (fst l1) * c_cell_mfp (snd l1))
          (c_local_density (snd l1)) (cs_scatter_table m) (cs_absorb_table m)
          ctr (master_key m) t l1 = Ok (l3, t')
    | PARTICLE_FACET =>
      exists t t',
        facet_event K (global_nx m) (global_ny m) (nx m) (x_off m) (y_off m)
          (inv_ntotal_particles m) (density m) t l1 = Ok (l3, t')
    | _ => l3 = l1
    end.
Proof.
  intros (s & s' & t1 & t1' & t2 & t2' & l1 & l2 & Hc & Hcol & Hf).
  exists l1. split; [exists s, s'; exact Hc |].
  pose proof (collision_lane_tag _ _ _ _ _ _ _ _ _ _ _ _ _ _ Hcol) as Htag.
  destruct (c_next_event (snd l1)) eqn:E.
  - apply collision_lane_skip in Hcol; [| rewrite E; discriminate].
    destruct Hcol as [-> _].
    apply facet_lane_skip in Hf; [| rewrite E; discriminate].
    destruct Hf as [-> _]. reflexivity.
  - apply facet_lane_skip in Hf; [| rewrite Htag; discriminate].
    destruct Hf as [-> _].
    unfold collision_lane in Hcol. rewrite E in Hcol. simpl in Hcol.
    exists t1, t1'. exact Hcol.
  - apply collision_lane_skip in Hcol; [| rewrite E; discriminate].
    destruct Hcol as [-> _].
    unfold facet_lane in Hf. rewrite E in Hf. simpl in Hf.
    exists t2, t2'. exact Hf.
  - apply collision_lane_skip in Hcol; [| rewrite E; discriminate].
    destruct Hcol as [-> _].
    apply facet_lane_skip in Hf; [| rewrite E; discriminate].
    destruct Hf as [-> _]. reflexivity.
Qed.

(** What the cache initialisation stores in the particle: the time to
    census and the distance to the first collision of a live particle of a
    first call, and nothing else. *)
Lemma init_lane_fields (K : Headers) (fuel : nat) (nx pad xo yo : Z)
    (initial : bool) (dt : R) (dens : list R) (cs ca : CrossSection)
    (mk ctr bid : Z) (s s' : Z * Z) (l l' : Lane) :
  init_lane K fuel nx pad xo yo initial dt dens cs ca mk ctr bid s l
  = Ok (l', s') ->
  p_x (fst l') = p_x (fst l) /\ p_y (fst l') = p_y (fst l) /\
  p_omega_x (fst l') = p_omega_x (fst l) /\
  p_omega_y (fst l') = p_omega_y (fst l) /\
  p_energy (fst l') = p_energy (fst l) /\
  p_weight (fst l') = p_weight (fst l) /\
  p_cellx (fst l') = p_cellx (fst l) /\ p_celly (fst l') = p_celly (fst l) /\
  p_dead (fst l') = p_dead (fst l) /\
  (p_dead (fst l) = true -> l' = l) /\
  (p_dead (fst l) = false -> initial = true -> p_dt_to_census (fst l') = dt) /\
  (initial = false ->
   p_dt_to_census (fst l') = p_dt_to_census (fst l) /\
   p_mfp_to_collision (fst l') = p_mfp_to_collision (fst l)).
Proof.
  intros H. unfold init_lane in H. destruct s as [ip np]. destruct l as [p c].
  destruct (p_dead p) eqn:Hdead.
  - injection H as <- _. simpl. rewrite Hdead. repeat split; auto; discriminate.
  - destruct (read dens _) as [ld | | |]; simpl in H; try discriminate.
    destruct (microscopic_cs_for_energy_binary fuel cs _)
      as [[ss si] | | |]; simpl in H; try discriminate.
    destruct (microscopic_cs_for_energy_binary fuel ca _)
      as [[sa ai] | | |]; simpl in H; try discriminate.
    destruct initial.
    + destruct (generate_random_numbers K _ _ _) as [[[r0 r1] r2] r3].
      injection H as <- _. simpl. rewrite Hdead.
      repeat split; auto; discriminate.
    + injection H as <- _. simpl. rewrite Hdead.
      repeat split; auto; discriminate.
Qed.

(** What the census kernel stores in the particle. *)
Lemma census_event_fields (K : Headers) (nx xo yo : Z) (inv dn cell_mfp : R)
    (t t' : list R) (p : Particle) (c : Cache) (l' : Lane) :
  census_event K nx xo yo inv dn cell_mfp t (p, c) = Ok (l', t') ->
  fst l' = mkParticle (p_x p + dn * p_omega_x p) (p_y p + dn * p_omega_y p)
             (p_omega_x p) (p_omega_y p) (p_energy p) (p_weight p) 0
             (p_mfp_to_collision p - dn / cell_mfp) (p_cellx p) (p_celly p)
             (p_dead p) /\
  c_next_event (snd l') = c_next_event c.
Proof.
  intros H. unfold census_event in H.
  destruct (update_tallies _ _ _ _ _ _ _ _) as [t1 | | |]; simpl in H;
    try discriminate.
  injection H as <- <-. simpl. split; reflexivity.
Qed.

(** The census pass moves the lanes tagged for census and leaves the other
    lanes alone. *)
Lemma lane_census_cases (K : Headers) (m : Problem) (l l1 : Lane) :
  lane_census K m l l1 ->
  c_next_event (snd l1) = c_next_event (snd l) /\
  if Event_eqb (c_next_event (snd l)) PARTICLE_CENSUS
  then
    let dn := c_speed (snd l) * p_dt_to_census (fst l) in
    fst l1 = mkParticle (p_x (fst l) + dn * p_omega_x (fst l))
               (p_y (fst l) + dn * p_omega_y (fst l))
               (p_omega_x (fst l)) (p_omega_y (fst l)) (p_energy (fst l))
               (p_weight (fst l)) 0
               (p_mfp_to_collision (fst l) - dn / c_cell_mfp (snd l))
               (p_cellx (fst l)) (p_celly (fst l)) (p_dead (fst l))
  else l1 = l.
Proof.
  intros (t & t' & H). unfold census_lane in H.
  destruct (Event_eqb (c_next_event (snd l)) PARTICLE_CENSUS) eqn:E;
    simpl in H.
  - destruct l as [p c].
    destruct (census_event_fields _ _ _ _ _ _ _ _ _ _ _ _ H) as [Hp Htag].
    split; [exact Htag | exact Hp].
  - injection H as <- _. split; reflexivity.
Qed.

(** ** The cells of the particles *)

(** Crossing a facet moves a particle by at most one cell, and never out of
    the mesh. *)
Lemma facet_cross_in_mesh (gnx gny : Z) (xf : bool) (ox oy ox' oy' : R)
    (cx cy cx' cy' : Z) :
  facet_cross gnx gny xf ox oy cx cy = (ox', oy', cx', cy') ->
  (0 <= cx < gnx)%Z -> (0 <= cy < gny)%Z ->
  (0 <= cx' < gnx)%Z /\ (0 <= cy' < gny)%Z.
Proof.
  unfold facet_cross. intros H Hx Hy.
  destruct xf; injection H as _ _ <- <-.
  - split; [| exact Hy].
    destruct (Rgtb _ 0 && (cx <? gnx - 1)%Z) eqn:E1.
    + apply andb_prop in E1. destruct E1 as [_ E1]. apply Z.ltb_lt in E1.
      destruct (Rltb _ 0 && (cx + 1 >? 0)%Z); lia.
    + destruct (Rltb _ 0 && (cx + 0 >? 0)%Z) eqn:E2; [| lia].
      apply andb_prop in E2. destruct E2 as [_ E2].
      rewrite Z.gtb_ltb in E2. apply Z.ltb_lt in E2. lia.
  - split; [exact Hx |].
    destruct (Rgtb _ 0 && (cy <? gny - 1)%Z) eqn:E1.
    + apply andb_prop in E1. destruct E1 as [_ E1]. apply Z.ltb_lt in E1.
      destruct (Rltb _ 0 && (cy + 1 >? 0)%Z); lia.
    + destruct (Rltb _ 0 && (cy + 0 >? 0)%Z) eqn:E2; [| lia].
      apply andb_prop in E2. destruct E2 as [_ E2].
      rewrite Z.gtb_ltb in E2. apply Z.ltb_lt in E2. lia.
Qed.

Lemma lane_step_in_mesh (K : Headers) (fuel : nat) (m : Problem) (ctr : Z)
    (l l' : Lane) :
  in_mesh m (fst l) -> lane_step K fuel m ctr l l' -> in_mesh m (fst l').
Proof.
  intros Hin Hstep.
  destruct (lane_step_cases _ _ _ _ _ _ Hstep) as (l1 & Hc & Hk).
  destruct (lane_classified_spec _ _ _ _ Hc) as [Hp _].
  destruct (c_next_event (snd l1)).
  - subst l'. rewrite Hp. exact Hin.
  - destruct Hk as (t & t' & Hk). destruct l1 as [p1 c1].
    destruct (collision_event_fields _ _ _ _ _ _ _ _ _ _ _ _ _ _ _ _ _ Hk)
      as (r0 & r1 & r2 & r3 & _ & _ & _ & Hcx & Hcy & _).
    simpl in Hp. subst p1. unfold in_mesh in *. rewrite Hcx, Hcy. exact Hin.
  - destruct Hk as (t & t' & Hk). destruct l1 as [p1 c1].
    destruct (facet_event_fields _ _ _ _ _ _ _ _ _ _ _ _ _ Hk)
      as (_ & _ & Hcross & _).
    simpl in Hp. subst p1. unfold in_mesh in *. symmetry in Hcross.
    destruct Hin as [Hx Hy].
    exact (facet_cross_in_mesh _ _ _ _ _ _ _ _ _ _ _ Hcross Hx Hy).
  - subst l'. rewrite Hp. exact Hin.
Qed.

(** A block whose live particle crosses the facet between the middle and
    the last cell of [row_problem] and then reaches census. *)
Lemma sample_crossing_block :
  exists st np',
    handle_block sample_headers 3 10 row_problem 1%positive true (1 / 700) 0
      [0; 0; 0] 0 0 0 crossing_lanes = Ok (st, np') /\
    nfacets st = 1%Z /\
    map (fun l => (p_cellx (fst l), p_celly (fst l))) (lanes st)
    = [(2%Z, 0%Z); (0%Z, 0%Z)].
Proof.
  pose proof sample_ln_bounds as Hln.
  unfold handle_block, init_block, crossing_lanes, dead_lane.
  cbn [for_lanes].
  unfold init_lane, generate_random_numbers, microscopic_cs_for_energy_binary.
  simpl. Rcompare. simpl. Rcompare. simpl. Rcompare. simpl. Rcompare. simpl.
  rewrite sample_speed_1.
  unfold outer_iteration.
  cbn [lanes counter tally nfacets ncollisions for_lanes].
  unfold calc_event_lane, calc_event, calc_distance_to_facet, facet_times,
    select_event.
  simpl. Rcompare. simpl. Rcompare. simpl.
  unfold facet_lane, facet_event, update_tallies, facet_cross. simpl.
  Rcompare. simpl. Rcompare. simpl. Rcompare. simpl.
  unfold census_lane, census_event, update_tallies. simpl.
  do 2 eexists. split; [reflexivity |]. simpl. split; reflexivity.
Qed.

(** X7.  The work on a block keeps a particle that is in a cell of the
    global mesh in a cell of the global mesh: a facet encounter moves a
    particle by one cell at most and never across the boundary of the mesh,
    and no other event changes the cell. *)
Theorem handle_block_cells_in_mesh (K : Headers) (n fuel : nat) (m : Problem)
    (found : positive) (initial : bool) (dt : R) (bid : Z) (tally0 : list R)
    (nf nc np np' : Z) (lanes0 : list Lane) (stf : BlockState) :
  handle_block K n fuel m found initial dt bid tally0 nf nc np lanes0
  = Ok (stf, np') ->
  Forall2 (fun l0 l => in_mesh m (fst l0) -> in_mesh m (fst l))
    lanes0 (lanes stf).
Proof.
  intros H.
  destruct (handle_block_stages _ _ _ _ _ _ _ _ _ _ _ _ _ _ _ H)
    as (st0 & st & st1 & Hinit & Hhead & Hlast & Hcensus & _).
  set (R := fun l0 l : Lane => in_mesh m (fst l0) -> in_mesh m (fst l)).
  assert (Htrans : forall x y z : Lane, R x y -> R y z -> R x z)
    by (unfold R; auto).
  assert (H0 : Forall2 R lanes0 (lanes st0)).
  { unfold init_block in Hinit.
    destruct (for_lanes _ _ _) as [[lanes1 [ip np1]] | | |] eqn:E;
      simpl in Hinit; try discriminate.
    injection Hinit as <- _. simpl. apply for_lanes_Forall2 in E.
    apply Forall2_impl with (2 := E).
    intros l l' (s1 & s2 & Hi) Hl.
    destruct (init_lane_fields _ _ _ _ _ _ _ _ _ _ _ _ _ _ _ _ _ _ Hi)
      as (_ & _ & _ & _ & _ & _ & Hcx & Hcy & _).
    unfold in_mesh in *. rewrite Hcx, Hcy. exact Hl. }
  assert (H1 : Forall2 R (lanes st0) (lanes st)).
  { apply (loop_head_Forall2 K fuel m found R st0 st); auto.
    - intros l Hl. exact Hl.
    - intros ctr l0 l l' H01 Hs Hl.
      exact (lane_step_in_mesh K fuel m ctr l l' (H01 Hl) Hs). }
  apply outer_iteration_lanes in Hlast. simpl in Hlast.
  assert (H2 : Forall2 R (lanes st) (lanes st1)).
  { apply Forall2_impl with (2 := Hlast).
    intros l l' Hc Hl. destruct (lane_classified_spec _ _ _ _ Hc) as [-> _].
    exact Hl. }
  assert (H3 : Forall2 R (lanes st1) (lanes stf)).
  { apply Forall2_impl with (2 := Hcensus).
    intros l l' Hc Hl. destruct (lane_census_cases _ _ _ _ Hc) as [_ Hk].
    destruct (Event_eqb _ _).
    - simpl in Hk. rewrite Hk. exact Hl.
    - subst l'. exact Hl. }
  exact (Forall2_trans R _ _ _ Htrans
           (Forall2_trans R _ _ _ Htrans
              (Forall2_trans R _ _ _ Htrans H0 H1) H2) H3).
Qed.

Lemma handle_block_cells_in_mesh_witness :
  exists st np',
    handle_block sample_headers 3 10 row_problem 1%positive true (1 / 700) 0
      [0; 0; 0] 0 0 0 crossing_lanes = Ok (st, np') /\
    nfacets st = 1%Z /\
    map (fun l => (p_cellx (fst l), p_celly (fst l))) (lanes st)
    = [(2%Z, 0%Z); (0%Z, 0%Z)] /\
    Forall2 (fun l0 l => in_mesh row_problem (fst l0) ->
                         in_mesh row_problem (fst l))
      crossing_lanes (lanes st).
Proof.
  destruct sample_crossing_block as (st & np' & H & Hf & Hcells).
  exists st, np'. repeat split; try assumption.
  exact (handle_block_cells_in_mesh sample_headers 3 10 row_problem
           1%positive true (1 / 700) 0 [0; 0; 0] 0 0 0 np' crossing_lanes st H).
Defined.

(** ** Dead particles *)

Lemma lane_step_dead (K : Headers) (fuel : nat) (m : Problem) (ctr : Z)
    (l l' : Lane) :
  lane_step K fuel m ctr l l' -> p_dead (fst l) = true -> fst l' = fst l.
Proof.
  intros Hstep Hdead.
  destruct (lane_step_cases _ _ _ _ _ _ Hstep) as (l1 & Hc & Hk).
  destruct (lane_classified_spec _ _ _ _ Hc) as [Hp Htag].
  apply Htag in Hdead. rewrite Hdead in Hk. subst l'. exact Hp.
Qed.

(** X8.  A particle that is dead when the work on its block starts is
    returned as it was: the cache initialisation and the passes of the block
    event loop change none of its fields. *)
Theorem handle_block_dead_untouched (K : Headers) (n fuel : nat) (m : Problem)
    (found : positive) (initial : bool) (dt : R) (bid : Z) (tally0 : list R)
    (nf nc np np' : Z) (lanes0 : list Lane) (stf : BlockState) :
  handle_block K n fuel m found initial dt bid tally0 nf nc np lanes0
  = Ok (stf, np') ->
  Forall2 (fun l0 l => p_dead (fst l0) = true -> fst l = fst l0)
    lanes0 (lanes stf).
Proof.
  intros H.
  destruct (handle_block_stages _ _ _ _ _ _ _ _ _ _ _ _ _ _ _ H)
    as (st0 & st & st1 & Hinit & Hhead & Hlast & Hcensus & _).
  set (R := fun l0 l : Lane => p_dead (fst l0) = true -> fst l = fst l0).
  assert (Htrans : forall x y z : Lane, R x y -> R y z -> R x z).
  { unfold R. intros x y z Hxy Hyz Hd. pose proof (Hxy Hd) as E.
    rewrite <- E. apply Hyz. rewrite E. exact Hd. }
  assert (H0 : Forall2 R lanes0 (lanes st0)).
  { unfold init_block in Hinit.
    destruct (for_lanes _ _ _) as [[lanes1 [ip np1]] | | |] eqn:E;
      simpl in Hinit; try discriminate.
    injection Hinit as <- _. simpl. apply for_lanes_Forall2 in E.
    apply Forall2_impl with (2 := E).
    intros l l' (s1 & s2 & Hi) Hd.
    destruct (init_lane_fields _ _ _ _ _ _ _ _ _ _ _ _ _ _ _ _ _ _ Hi)
      as (_ & _ & _ & _ & _ & _ & _ & _ & _ & Hsame & _).
    rewrite (Hsame Hd). reflexivity. }
  assert (H1 : Forall2 R (lanes st0) (lanes st)).
  { apply (loop_head_Forall2 K fuel m found R st0 st); auto.
    - intros l _. reflexivity.
    - intros ctr l0 l l' H01 Hs. apply (Htrans l0 l l' H01).
      intros Hd. exact (lane_step_dead K fuel m ctr l l' Hs Hd). }
  apply outer_iteration_lanes in Hlast. simpl in Hlast.
  assert (H2 : Forall2 R (lanes st) (lanes st1)).
  { apply Forall2_impl with (2 := Hlast).
    intros l l' Hc _. destruct (lane_classified_spec _ _ _ _ Hc) as [Hp _].
    exact Hp. }
  assert (H3 : Forall2 (fun l l' => (c_next_event (snd l) = PARTICLE_DEAD <->
                                      p_dead (fst l) = true) -> R l l')
                 (lanes st1) (lanes stf)).
  { apply Forall2_impl with (2 := Hcensus).
    intros l l' Hc Htag Hd. destruct (lane_census_cases _ _ _ _ Hc) as [_ Hk].
    apply Htag in Hd. rewrite Hd in Hk. simpl in Hk. subst l'. reflexivity. }
  assert (H3' : Forall2 R (lanes st) (lanes stf)).
  { pose proof (Forall2_compose _ _ _ _ _ Hlast H3) as Hc.
    apply Forall2_impl with (2 := Hc).
    intros l l' (l1 & Hcl & Hr) Hd.
    destruct (lane_classified_spec _ _ _ _ Hcl) as [Hp Htag].
    rewrite <- Hp. apply Hr.
    - rewrite Hp. exact Htag.
    - rewrite Hp. exact Hd. }
  exact (Forall2_trans R _ _ _ Htrans
           (Forall2_trans R _ _ _ Htrans H0 H1) H3').
Qed.

Lemma handle_block_dead_untouched_witness :
  exists st np',
    handle_block sample_headers 1 10 sample_problem 1%positive true 0 0 [0]
      0 0 0 census_lanes = Ok (st, np') /\
    Forall2 (fun l0 l => p_dead (fst l0) = true -> fst l = fst l0)
      census_lanes (lanes st).
Proof.
  destruct (sample_handle_block 0 0 0 0 0) as (st & np' & t1 & H & _).
  exists st, np'. split; [exact H |].
  exact (handle_block_dead_untouched sample_headers 1 10 sample_problem
           1%positive true 0 0 [0] 0 0 0 np' census_lanes st H).
Defined.

(** ** The event counters *)

Lemma count_tag_cons (e : Event) (l : Lane) (ls : list Lane) :
  count_tag e (l :: ls)
  = ((if Event_eqb (c_next_event (snd l)) e then 1 else 0) + count_tag e ls)%Z.
Proof.
  unfold count_tag. cbn [filter].
  destruct (Event_eqb (c_next_event (snd l)) e); [cbn [length] |]; lia.
Qed.

Lemma count_tag_nonneg (e : Event) (ls : list Lane) : (0 <= count_tag e ls)%Z.
Proof. unfold count_tag. lia. Qed.

Lemma count_tag_total (ls : list Lane) :
  (count_tag PARTICLE_DEAD ls + count_tag PARTICLE_CENSUS ls +
   count_tag PARTICLE_FACET ls + count_tag PARTICLE_COLLISION ls
   = Z.of_nat (length ls))%Z.
Proof.
  induction ls as [| l ls IH]; [reflexivity |].
  rewrite !count_tag_cons. cbn [length]. rewrite Nat2Z.inj_succ.
  destruct (c_next_event (snd l)); cbn [Event_eqb]; lia.
Qed.

Lemma count_tag_zero (e : Event) (ls : list Lane) :
  count_tag e ls = 0%Z -> Forall (fun l => c_next_event (snd l) <> e) ls.
Proof.
  induction ls as [| l ls IH]; intros H; constructor.
  - rewrite count_tag_cons in H. pose proof (count_tag_nonneg e ls).
    intros E. rewrite E in H.
    assert (Event_eqb e e = true) as Ee by (destruct e; reflexivity).
    rewrite Ee in H. lia.
  - apply IH. rewrite count_tag_cons in H. pose proof (count_tag_nonneg e ls).
    destruct (Event_eqb _ _); lia.
Qed.

Lemma count_tag_Forall2 (e : Event) (ls ls' : list Lane) :
  Forall2 (fun l l' => c_next_event (snd l') = c_next_event (snd l)) ls ls' ->
  count_tag e ls' = count_tag e ls.
Proof.
  intros H. induction H as [| l l' ls ls' Hl _ IH]; [reflexivity |].
  rewrite !count_tag_cons, Hl, IH. reflexivity.
Qed.

(** The counters of the classification pass count the tags it gives. *)
Lemma calc_pass_counts (K : Headers) (gnx pad xo yo : Z) (ex ey : list R)
    (ls ls' : list Lane) (a b c a' b' c' : Z) :
  for_lanes (calc_event_lane K gnx pad xo yo ex ey) (a, b, c) ls
  = Ok (ls', (a', b', c')) ->
  a' = (a + count_tag PARTICLE_DEAD ls' + count_tag PARTICLE_CENSUS ls')%Z /\
  b' = (b + count_tag PARTICLE_FACET ls')%Z /\
  c' = (c + count_tag PARTICLE_COLLISION ls')%Z.
Proof.
  revert a b c ls'. induction ls as [| l ls IH]; intros a b c ls' H; simpl in H.
  - injection H as <- <- <- <-. unfold count_tag. simpl. lia.
  - unfold calc_event_lane at 1 in H.
    destruct (calc_event _ _ _ _ _ _ _ _) as [l1 | | |]; simpl in H;
      try discriminate.
    destruct (for_lanes _ _ ls) as [[ls1 [[a1 b1] c1]] | | |] eqn:E;
      simpl in H; try discriminate.
    injection H as <- <- <- <-.
    rewrite !count_tag_cons.
    destruct (c_next_event (snd l1)); cbn [count_event] in E;
      destruct (IH _ _ _ _ E) as (-> & -> & ->); cbn [Event_eqb]; lia.
Qed.

Lemma outer_iteration_tags (K : Headers) (fuel : nat) (m : Problem)
    (found : positive) (st st' : BlockState) (again : bool) :
  outer_iteration K fuel m found st = Ok (again, st') ->
  exists lanes1 ncompleted nf nc,
    for_lanes (calc_event_lane K (global_nx m) (pad m) (x_off m) (y_off m)
                 (edgex m) (edgey m)) (0%Z, 0%Z, 0%Z) (lanes st)
    = Ok (lanes1, (ncompleted, nf, nc)) /\
    again = negb (ncompleted =? BLOCK_SIZE K)%Z /\
    nfacets st' = (nfacets st + nf)%Z /\
    ncollisions st' = (ncollisions st + nc)%Z /\
    counter st' = (if again then counter st + 1 else counter st)%Z /\
    Forall2 (fun l l' => c_next_event (snd l') = c_next_event (snd l))
      lanes1 (lanes st').
Proof.
  intros H. unfold outer_iteration in H.
  destruct (for_lanes (calc_event_lane _ _ _ _ _ _ _) _ _)
    as [[lanes1 [[ncompleted nf] nc]] | | |] eqn:E1; simpl in H;
    try discriminate.
  exists lanes1, ncompleted, nf, nc. split; [reflexivity |].
  destruct (ncompleted =? BLOCK_SIZE K)%Z.
  - injection H as <- <-. simpl. repeat split; try reflexivity.
    apply Forall2_refl. reflexivity.
  - destruct (for_lanes (collision_lane _ _ _ _ _ _ _ _ _ _) _ _)
      as [[lanes2 tally2] | | |] eqn:E2; simpl in H; try discriminate.
    rewrite check_found_passes in H. simpl in H.
    destruct (for_lanes (facet_lane _ _ _ _ _ _ _ _) _ _)
      as [[lanes3 tally3] | | |] eqn:E3; simpl in H; try discriminate.
    injection H as <- <-. simpl. repeat split; try reflexivity.
    apply for_lanes_Forall2 in E2. apply for_lanes_Forall2 in E3.
    pose proof (Forall2_compose _ _ _ _ _ E2 E3) as Hc.
    apply Forall2_impl with (2 := Hc).
    intros l l' (l2 & (t1 & t1' & Hcol) & (t2 & t2' & Hf)).
    rewrite (facet_lane_tag _ _ _ _ _ _ _ _ _ _ _ _ Hf).
    exact (collision_lane_tag _ _ _ _ _ _ _ _ _ _ _ _ _ _ Hcol).
Qed.

(** X9.  An iteration of the block event loop adds to the facet counter the
    number of lanes it has tagged for a facet encounter and to the collision
    counter the number of lanes it has tagged for a collision; it goes on,
    with the counter of the random number stream advanced by one, unless
    the lanes that are dead or have reached census number [BLOCK_SIZE]. *)
Theorem outer_iteration_counts (K : Headers) (fuel : nat) (m : Problem)
    (found : positive) (st st' : BlockState) (again : bool) :
  outer_iteration K fuel m found st = Ok (again, st') ->
  nfacets st' = (nfacets st + count_tag PARTICLE_FACET (lanes st'))%Z /\
  ncollisions st'
  = (ncollisions st + count_tag PARTICLE_COLLISION (lanes st'))%Z /\
  counter st' = (if again then counter st + 1 else counter st)%Z /\
  (again = false <->
   (count_tag PARTICLE_DEAD (lanes st') + count_tag PARTICLE_CENSUS (lanes st')
    = BLOCK_SIZE K)%Z).
Proof.
  intros H.
  destruct (outer_iteration_tags _ _ _ _ _ _ _ H)
    as (lanes1 & ncompleted & nf & nc & E & Hagain & Hnf & Hnc & Hctr & Htags).
  destruct (calc_pass_counts _ _ _ _ _ _ _ _ _ _ _ _ _ _ _ E) as (Ha & Hb & Hc).
  rewrite !(count_tag_Forall2 _ _ _ Htags).
  repeat split; try lia; try assumption.
  - intros ->. symmetry in Hagain. apply negb_false_iff in Hagain.
    apply Z.eqb_eq in Hagain. lia.
  - intros Hn. rewrite Hagain. apply negb_false_iff. apply Z.eqb_eq. lia.
Qed.

Lemma outer_iteration_counts_witness :
  exists st1,
    outer_iteration sample_headers 10 sample_problem 1%positive scattering_state
    = Ok (true, st1) /\
    nfacets st1
    = (nfacets scattering_state + count_tag PARTICLE_FACET (lanes st1))%Z /\
    ncollisions st1
    = (ncollisions scattering_state +
       count_tag PARTICLE_COLLISION (lanes st1))%Z /\
    counter st1 = (counter scattering_state + 1)%Z.
Proof.
  destruct outer_iteration_sample_scatters as (st1 & H & _).
  exists st1. split; [exact H |].
  destruct (outer_iteration_counts sample_headers 10 sample_problem 1%positive
              scattering_state st1 true H) as (H1 & H2 & H3 & _).
  repeat split; assumption.
Defined.

(** ** The end of the work on a block *)

Lemma Forall2_length_eq {A : Type} (R : A -> A -> Prop) (xs ys : list A) :
  Forall2 R xs ys -> length xs = length ys.
Proof. intros H. induction H; simpl; congruence. Qed.

(** When the work on a block of [BLOCK_SIZE] lanes returns, the block still
    has [BLOCK_SIZE] lanes, and each lane is either dead, and tagged so, or
    tagged for census with no time to census left. *)
Lemma handle_block_final_lanes (K : Headers) (n fuel : nat) (m : Problem)
    (found : positive) (initial : bool) (dt : R) (bid : Z) (tally0 : list R)
    (nf nc np np' : Z) (lanes0 : list Lane) (stf : BlockState) :
  Z.of_nat (length lanes0) = BLOCK_SIZE K ->
  handle_block K n fuel m found initial dt bid tally0 nf nc np lanes0
  = Ok (stf, np') ->
  Z.of_nat (length (lanes stf)) = BLOCK_SIZE K /\
  Forall (fun l => if p_dead (fst l)
                   then c_next_event (snd l) = PARTICLE_DEAD
                   else c_next_event (snd l) = PARTICLE_CENSUS /\
                        p_dt_to_census (fst l) = 0) (lanes stf).
Proof.
  intros Hlen H.
  destruct (handle_block_stages _ _ _ _ _ _ _ _ _ _ _ _ _ _ _ H)
    as (st0 & st & st1 & Hinit & Hhead & Hlast & Hcensus & _).
  assert (Hlen1 : Z.of_nat (length (lanes st1)) = BLOCK_SIZE K).
  { rewrite <- Hlen. f_equal.
    pose proof (outer_iteration_lanes _ _ _ _ _ _ _ Hlast) as H2.
    simpl in H2. apply Forall2_length_eq in H2.
    pose proof (loop_head_Forall2 K fuel m found (fun _ _ => True) st0 st
                  (fun _ => I) (fun _ _ _ _ _ _ => I) Hhead) as H1.
    apply Forall2_length_eq in H1.
    unfold init_block in Hinit.
    destruct (for_lanes _ _ _) as [[lanes1 [ip np1]] | | |] eqn:E;
      simpl in Hinit; try discriminate.
    injection Hinit as <- _. simpl in H1. apply for_lanes_Forall2 in E.
    apply Forall2_length_eq in E. congruence. }
  destruct (outer_iteration_tags _ _ _ _ _ _ _ Hlast)
    as (lanes1 & ncompleted & nf1 & nc1 & E & Hagain & _ & _ & _ & Htags).
  destruct (calc_pass_counts _ _ _ _ _ _ _ _ _ _ _ _ _ _ _ E) as (Ha & _ & _).
  symmetry in Hagain. apply negb_false_iff in Hagain. apply Z.eqb_eq in Hagain.
  pose proof (count_tag_total (lanes st1)) as Htot.
  pose proof (count_tag_nonneg PARTICLE_FACET (lanes st1)) as Hf0.
  pose proof (count_tag_nonneg PARTICLE_COLLISION (lanes st1)) as Hc0.
  rewrite <- !(count_tag_Forall2 _ _ _ Htags) in Ha.
  assert (Hnf : Forall (fun l => c_next_event (snd l) <> PARTICLE_FACET)
                  (lanes st1)) by (apply count_tag_zero; lia).
  assert (Hnc : Forall (fun l => c_next_event (snd l) <> PARTICLE_COLLISION)
                  (lanes st1)) by (apply count_tag_zero; lia).
  apply outer_iteration_lanes in Hlast. simpl in Hlast.
  assert (Hdead : Forall (fun l => c_next_event (snd l) = PARTICLE_DEAD <->
                                   p_dead (fst l) = true) (lanes st1)).
  { apply (Forall2_Forall_step (fun _ => True) _ _ _ _) with (2 := Hlast).
    - intros l l' _ Hc. destruct (lane_classified_spec _ _ _ _ Hc) as [Hp Ht].
      rewrite Hp. exact Ht.
    - apply Forall_forall. auto. }
  assert (Hall : Forall (fun l => c_next_event (snd l) <> PARTICLE_FACET /\
                                  c_next_event (snd l) <> PARTICLE_COLLISION /\
                                  (c_next_event (snd l) = PARTICLE_DEAD <->
                                   p_dead (fst l) = true)) (lanes st1)).
  { rewrite Forall_forall in *. auto. }
  split.
  { rewrite <- Hlen1. f_equal. symmetry.
    exact (Forall2_length_eq _ _ _ Hcensus). }
  apply (Forall2_Forall_step _ _ _ _ _) with (2 := Hcensus) (3 := Hall).
  intros l l' (Hf & Hc & Hd) Hcen.
  destruct (lane_census_cases _ _ _ _ Hcen) as [Htag Hk].
  destruct (c_next_event (snd l)) eqn:Et; simpl in Hk; try congruence.
  - subst l'. destruct Hd as [Hd _]. rewrite Hd by reflexivity. exact Et.
  - assert (Hlive : p_dead (fst l) = false).
    { destruct (p_dead (fst l)) eqn:Edead; [| reflexivity].
      destruct Hd as [_ Hd]. discriminate (Hd eq_refl). }
    rewrite Hk. cbn [p_dead p_dt_to_census]. rewrite Hlive.
    split; [congruence | reflexivity].
Qed.


(** X10.  When the work on a block of [BLOCK_SIZE] lanes returns, every
    particle of the block that is alive has reached census: it is tagged for
    census and its time to census is exactly 0. *)
Theorem handle_block_reaches_census (K : Headers) (n fuel : nat) (m : Problem)
    (found : positive) (initial : bool) (dt : R) (bid : Z) (tally0 : list R)
    (nf nc np np' : Z) (lanes0 : list Lane) (stf : BlockState) :
  Z.of_nat (length lanes0) = BLOCK_SIZE K ->
  handle_block K n fuel m found initial dt bid tally0 nf nc np lanes0
  = Ok (stf, np') ->
  Forall (fun l => p_dead (fst l) = false ->
                   c_next_event (snd l) = PARTICLE_CENSUS /\
                   p_dt_to_census (fst l) = 0) (lanes stf).
Proof.
  intros Hlen H.
  destruct (handle_block_final_lanes K n fuel m found initial dt bid tally0
              nf nc np np' lanes0 stf Hlen H) as [_ Hall].
  apply Forall_impl with (2 := Hall).
  intros l Hl Hlive. rewrite Hlive in Hl. exact Hl.
Qed.

Lemma handle_block_reaches_census_witness :
  exists st np',
    handle_block sample_headers 1 10 sample_problem 1%positive true 0 0 [0]
      0 0 0 census_lanes = Ok (st, np') /\
    Forall (fun l => p_dead (fst l) = false ->
                     c_next_event (snd l) = PARTICLE_CENSUS /\
                     p_dt_to_census (fst l) = 0) (lanes st).
Proof.
  destruct (sample_handle_block 0 0 0 0 0) as (st & np' & t1 & H & _).
  exists st, np'. split; [exact H |].
  apply (handle_block_reaches_census sample_headers 1 10 sample_problem
           1%positive true 0 0 [0] 0 0 0 np' census_lanes st); [| exact H].
  reflexivity.
Defined.

(** ** Weights and energies *)

(** A scattering does not raise the energy of a particle. *)
Lemma scatter_energy_le (a e r : R) :
  0 < a -> 0 < e -> 0 < r < 1 ->
  e * (a * a + 2 * a * (1 - 2 * r) + 1) / ((a + 1) * (a + 1)) <= e.
Proof.
  intros Ha He Hr.
  assert (Hd : 0 < (a + 1) * (a + 1)) by nra.
  assert (Hea : 0 < e * a) by (apply Rmult_lt_0_compat; assumption).
  assert (Hear : 0 < e * a * r) by (apply Rmult_lt_0_compat; lra).
  apply div_le_bound; [exact Hd |]. nra.
Qed.

Lemma Forall2_Forall_l {A : Type} (P : A -> Prop) (R S : A -> A -> Prop)
    (xs ys : list A) :
  (forall x y, P x -> R x y -> S x y) ->
  Forall P xs -> Forall2 R xs ys -> Forall2 S xs ys.
Proof.
  intros Hstep HP H. induction H; inversion HP; subst; constructor; auto.
Qed.

(** An absorption does not raise the weight of a particle. *)
Lemma absorb_weight_le (w sa ss : R) :
  0 <= w -> 0 < ss -> 0 <= sa ->
  0 <= w * (1 - sa / (ss + sa)) <= w.
Proof.
  intros Hw Hs Ha.
  assert (Hd : 0 < ss + sa) by lra.
  assert (H0 : 0 <= sa / (ss + sa)).
  { apply Rmult_le_pos; [exact Ha |]. left. apply Rinv_0_lt_compat. exact Hd. }
  assert (H1 : sa / (ss + sa) < 1) by (apply div_lt_bound; lra).
  split; nra.
Qed.

Lemma lane_step_not_raised (K : Headers) (fuel : nat) (m : Problem) (ctr : Z)
    (l l' : Lane) :
  inputs_ok K m ->
  lane_invariant l ->
  lane_step K fuel m ctr l l' ->
  0 <= p_weight (fst l) ->
  0 <= p_weight (fst l') <= p_weight (fst l) /\
  p_energy (fst l') <= p_energy (fst l).
Proof.
  intros Hok Hinv Hstep Hw.
  destruct (lane_step_cases _ _ _ _ _ _ Hstep) as (l1 & Hc & Hk).
  destruct (lane_classified_spec _ _ _ _ Hc) as [Hp Htag].
  assert (Hinv1 : lane_invariant l1).
  { destruct Hc as (s & s' & Hc).
    exact (calc_event_lane_invariant K m s s' l l1 Hinv Hc). }
  destruct (c_next_event (snd l1)) eqn:Et.
  - subst l'. rewrite Hp. lra.
  - destruct Hk as (t & t' & Hk). destruct l1 as [p1 c1].
    assert (Hlive : p_dead p1 = false).
    { simpl in Hp. subst p1. destruct (p_dead (fst l)) eqn:Hd; [| reflexivity].
      destruct Htag as [_ Htag]. discriminate (Htag eq_refl). }
    destruct (Hinv1 Hlive) as (_ & _ & He & _ & _ & _ & _ & HSs & HSa).
    simpl in He, HSs, HSa.
    destruct (collision_event_fields _ _ _ _ _ _ _ _ _ _ _ _ _ _ _ _ _ Hk)
      as (r0 & r1 & r2 & r3 & Ern & _ & _ & _ & _ & _ & _ & Hcase).
    destruct (ok_rng K m Hok _ _ _ _ _ _ _ Ern) as (_ & Hr1 & _).
    simpl in Hp. subst p1. simpl in Hcase.
    destruct Hcase as [(_ & Hw' & Hen & _) | (_ & Hw' & Hen & _)].
    + rewrite Hw', Hen.
      pose proof (absorb_weight_le (p_weight (fst l)) _ _ Hw HSs HSa). lra.
    + rewrite Hw', Hen.
      pose proof (scatter_energy_le _ _ _ (ok_mass_no K m Hok) He Hr1). lra.
  - destruct Hk as (t & t' & Hk). destruct l1 as [p1 c1].
    destruct (facet_event_fields _ _ _ _ _ _ _ _ _ _ _ _ _ Hk)
      as (_ & _ & _ & Hen & Hw' & _).
    simpl in Hp. subst p1. rewrite Hen, Hw'. lra.
  - subst l'. rewrite Hp. lra.
Qed.

(** X11.  In exact arithmetic and for well-formed inputs, no iteration of
    the loop of a block, started as [solve_transport_2d] starts it, raises
    the weight or the energy of a particle: from a head of the loop to the
    next, a weight that is not negative stays so and does not grow, and the
    energy does not grow. *)
Theorem outer_iteration_weight_energy_not_raised (K : Headers) (fuel : nat)
    (m : Problem) (found : positive) (dt : R) (bid : Z) (tally0 : list R)
    (nf nc np np' : Z) (lanes0 : list Lane) (st0 st st1 : BlockState)
    (again : bool) :
  inputs_ok K m ->
  0 <= dt ->
  Forall (fun l => p_dead (fst l) = false -> 0 < p_energy (fst l)) lanes0 ->
  init_block K fuel m true dt bid tally0 nf nc np lanes0 = Ok (st0, np') ->
  loop_head K fuel m found st0 st ->
  outer_iteration K fuel m found st = Ok (again, st1) ->
  Forall2 (fun l l' => 0 <= p_weight (fst l) ->
                       0 <= p_weight (fst l') <= p_weight (fst l) /\
                       p_energy (fst l') <= p_energy (fst l))
    (lanes st) (lanes st1).
Proof.
  intros Hok Hdt He Hinit Hhead Hit.
  pose proof (init_block_invariant K fuel m dt bid tally0 nf nc np np' lanes0
                st0 Hok Hdt He Hinit) as H0.
  pose proof (loop_head_invariant K fuel m found st0 st Hok H0 Hhead) as Hinv.
  apply outer_iteration_lanes in Hit. destruct again.
  - apply (Forall2_Forall_l lane_invariant (lane_step K fuel m (counter st)));
      [| exact Hinv | exact Hit].
    intros l l' Hl Hs Hw. exact (lane_step_not_raised K fuel m _ l l' Hok Hl Hs Hw).
  - apply Forall2_impl with (2 := Hit).
    intros l l' Hc Hw. destruct (lane_classified_spec _ _ _ _ Hc) as [-> _]. lra.
Qed.

Lemma outer_iteration_weight_energy_not_raised_witness :
  exists st0 np' st1,
    init_block sample_headers 10 sample_problem true 1 0 [0] 0 0 0 event_lanes
    = Ok (st0, np') /\
    outer_iteration sample_headers 10 sample_problem 1%positive st0
    = Ok (true, st1) /\
    ncollisions st1 = 1%Z /\ nfacets st1 = 1%Z /\
    Forall2 (fun l l' => 0 <= p_weight (fst l) ->
                         0 <= p_weight (fst l') <= p_weight (fst l) /\
                         p_energy (fst l') <= p_energy (fst l))
      (lanes st0) (lanes st1).
Proof.
  destruct sample_event_iteration as (st0 & np' & st1 & Hi & Hit & Hc & Hf).
  exists st0, np', st1. repeat split; try assumption.
  apply (outer_iteration_weight_energy_not_raised sample_headers 10
           sample_problem 1%positive 1 0 [0] 0 0 0 np' event_lanes st0 st0 st1
           true sample_inputs_ok).
  - lra.
  - unfold event_lanes. repeat constructor; simpl; intros; lra.
  - exact Hi.
  - apply head_first.
  - exact Hit.
Defined.

(** ** The move to the next facet *)

(** The time to the facet of an axis, as [facet_times] computes it from the
    edge that the particle moves to. *)
Lemma axis_time_spec (e pos o s : R) :
  s <> 0 -> o <> 0 ->
  pos + (e - pos) * (1 / (o * s)) * s * o = e.
Proof. intros Hs Ho. field. split; assumption. Qed.

Lemma axis_time_nonneg (lo hi obc pos o s : R) :
  0 <= obc -> 0 < s -> o <> 0 -> lo <= pos <= hi ->
  0 <= (if Rgeb o 0 then (hi - pos) * (1 / (o * s))
        else ((lo - obc) - pos) * (1 / (o * s))).
Proof.
  intros Hobc Hs Ho Hpos.
  destruct (Rgeb o 0) eqn:E.
  - apply Rgeb_iff in E. assert (0 < o * s) by nra.
    apply Rmult_le_pos; [lra |]. unfold Rdiv. rewrite Rmult_1_l.
    left. apply Rinv_0_lt_compat. assumption.
  - assert (Hneg : o < 0).
    { destruct (Rlt_le_dec o 0) as [Hlt | Hge]; [exact Hlt |].
      rewrite Rgeb_true in E by exact Hge. discriminate. }
    assert (Hos : 0 < - (o * s)) by nra.
    replace (((lo - obc) - pos) * (1 / (o * s)))
      with ((pos - (lo - obc)) * (1 / (- (o * s)))).
    + apply Rmult_le_pos; [lra |]. unfold Rdiv. rewrite Rmult_1_l.
      left. apply Rinv_0_lt_compat. assumption.
    + field. nra.
Qed.

Lemma axis_move (lo hi obc pos o s d : R) :
  0 <= obc -> 0 < s -> o <> 0 -> lo <= pos <= hi ->
  0 <= d ->
  d <= (if Rgeb o 0 then (hi - pos) * (1 / (o * s))
        else ((lo - obc) - pos) * (1 / (o * s))) * s ->
  lo - obc <= pos + d * o <= hi.
Proof.
  intros Hobc Hs Ho Hpos Hd0 Hd.
  destruct (Rgeb o 0) eqn:E.
  - apply Rgeb_iff in E. assert (Hop : 0 < o) by lra.
    assert (Hsp := axis_time_spec hi pos o s ltac:(lra) ltac:(lra)).
    assert (Hdo : d * o <= (hi - pos) * (1 / (o * s)) * s * o)
      by (apply Rmult_le_compat_r; lra).
    assert (0 <= d * o) by (apply Rmult_le_pos; lra).
    lra.
  - assert (Hneg : o < 0).
    { destruct (Rlt_le_dec o 0) as [Hlt | Hge]; [exact Hlt |].
      rewrite Rgeb_true in E by exact Hge. discriminate. }
    assert (Hsp := axis_time_spec (lo - obc) pos o s ltac:(lra) ltac:(lra)).
    assert (Hdo : (lo - obc - pos) * (1 / (o * s)) * s * o <= d * o).
    { apply Ropp_le_cancel.
      replace (- (d * o)) with (d * - o) by ring.
      replace (- ((lo - obc - pos) * (1 / (o * s)) * s * o))
        with ((lo - obc - pos) * (1 / (o * s)) * s * - o) by ring.
      apply Rmult_le_compat_r; lra. }
    assert (d * o <= 0) by nra.
    lra.
Qed.

(** X12.  In exact arithmetic, for a speed and direction components that
    are not zero, the distance that [calc_distance_to_facet] returns takes
    the particle exactly onto the facet it reports: on the edge at the end
    of the cell along a component that is not negative, and
    [OPEN_BOUND_CORRECTION] beyond the edge at the start of the cell
    otherwise. *)
Theorem calc_distance_to_facet_lands (obc : R) (gnx : Z) (x y : R)
    (pad xo yo : Z) (ox oy s : R) (cx cy : Z) (ex ey : list R) (d : R)
    (xf : bool) :
  s <> 0 -> ox <> 0 -> oy <> 0 ->
  calc_distance_to_facet obc gnx x y pad xo yo ox oy s cx cy ex ey
  = Ok (d, xf) ->
  if xf
  then exists e,
         read ex (cx - xo + pad + (if Rgeb ox 0 then 1 else 0))%Z = Ok e /\
         x + d * ox = (if Rgeb ox 0 then e else e - obc)
  else exists e,
         read ey (cy - yo + pad + (if Rgeb oy 0 then 1 else 0))%Z = Ok e /\
         y + d * oy = (if Rgeb oy 0 then e else e - obc).
Proof.
  intros Hs Hox Hoy H.
  unfold calc_distance_to_facet, facet_times in H. simpl in H.
  assert (Hx : exists e,
             read ex (cx - xo + pad + (if Rgeb ox 0 then 1 else 0))%Z = Ok e /\
             (if Rgeb ox 0
              then e' <- read ex (cx - xo + pad + 1)%Z ;;
                   Ok ((e' - x) * (1 / (ox * s)))
              else e' <- read ex (cx - xo + pad)%Z ;;
                   Ok ((e' - obc - x) * (1 / (ox * s))))
             = Ok (((if Rgeb ox 0 then e else e - obc) - x) * (1 / (ox * s)))).
  { destruct (Rgeb ox 0).
    - destruct (read ex (cx - xo + pad + 1)%Z) as [e | | |]; simpl in H;
        try discriminate.
      exists e. split; reflexivity.
    - rewrite Z.add_0_r.
      destruct (read ex (cx - xo + pad)%Z) as [e | | |]; simpl in H;
        try discriminate.
      exists e. split; reflexivity. }
  destruct Hx as (e1 & Hr1 & Hx). rewrite Hx in H. simpl in H.
  assert (Hy : exists e,
             read ey (cy - yo + pad + (if Rgeb oy 0 then 1 else 0))%Z = Ok e /\
             (if Rgeb oy 0
              then e' <- read ey (cy - yo + pad + 1)%Z ;;
                   Ok ((e' - y) * (1 / (oy * s)))
              else e' <- read ey (cy - yo + pad)%Z ;;
                   Ok ((e' - obc - y) * (1 / (oy * s))))
             = Ok (((if Rgeb oy 0 then e else e - obc) - y) * (1 / (oy * s)))).
  { destruct (Rgeb oy 0).
    - destruct (read ey (cy - yo + pad + 1)%Z) as [e | | |]; simpl in H;
        try discriminate.
      exists e. split; reflexivity.
    - rewrite Z.add_0_r.
      destruct (read ey (cy - yo + pad)%Z) as [e | | |]; simpl in H;
        try discriminate.
      exists e. split; reflexivity. }
  destruct Hy as (e2 & Hr2 & Hy). rewrite Hy in H. simpl in H.
  injection H as <- <-.
  destruct (Rltb _ _).
  - exists e1. split; [exact Hr1 |]. apply axis_time_spec; assumption.
  - exists e2. split; [exact Hr2 |]. apply axis_time_spec; assumption.
Qed.

Lemma calc_distance_to_facet_lands_witness :
  exists e,
    read [0; 1] (0 - 0 + 0 + (if Rgeb (4 / 5) 0 then 1 else 0))%Z = Ok e /\
    1 / 2 + (1 - 1 / 2) * (1 / (4 / 5 * 1)) * 1 * (4 / 5)
    = (if Rgeb (4 / 5) 0 then e else e - 1 / 100000000000000).
Proof.
  apply (calc_distance_to_facet_lands (1 / 100000000000000) 1 (1 / 2) (1 / 2)
           0 0 0 (3 / 5) (4 / 5) 1 0 0 [0; 1] [0; 1]
           ((1 - 1 / 2) * (1 / (4 / 5 * 1)) * 1) false); try lra.
  unfold calc_distance_to_facet, facet_times. simpl.
  Rcompare. simpl. Rcompare. reflexivity.
Defined.

(** X13.  In exact arithmetic, for a particle inside its cell that moves at
    a positive speed in a direction with no zero component,
    [calc_distance_to_facet] returns a distance that is not negative, and
    the move by that distance leaves the particle inside the cell, widened
    by [OPEN_BOUND_CORRECTION] at its start along each axis. *)
Theorem calc_distance_to_facet_inside (obc : R) (gnx : Z) (x y : R)
    (pad xo yo : Z) (ox oy s : R) (cx cy : Z) (ex ey : list R)
    (lo_x hi_x lo_y hi_y : R) :
  0 <= obc -> 0 < s -> ox <> 0 -> oy <> 0 ->
  read ex (cx - xo + pad)%Z = Ok lo_x ->
  read ex (cx - xo + pad + 1)%Z = Ok hi_x ->
  read ey (cy - yo + pad)%Z = Ok lo_y ->
  read ey (cy - yo + pad + 1)%Z = Ok hi_y ->
  lo_x <= x <= hi_x -> lo_y <= y <= hi_y ->
  exists d xf,
    calc_distance_to_facet obc gnx x y pad xo yo ox oy s cx cy ex ey
    = Ok (d, xf) /\
    0 <= d /\
    lo_x - obc <= x + d * ox <= hi_x /\
    lo_y - obc <= y + d * oy <= hi_y.
Proof.
  intros Hobc Hs Hox Hoy Hlx Hhx Hly Hhy Hx Hy.
  unfold calc_distance_to_facet, facet_times. simpl.
  rewrite Hlx, Hhx, Hly, Hhy.
  pose proof (axis_time_nonneg lo_x hi_x obc x ox s Hobc Hs Hox Hx) as Htx.
  pose proof (axis_time_nonneg lo_y hi_y obc y oy s Hobc Hs Hoy Hy) as Hty.
  pose proof (axis_move lo_x hi_x obc x ox s) as Hmx.
  pose proof (axis_move lo_y hi_y obc y oy s) as Hmy.
  set (tx := if Rgeb ox 0 then (hi_x - x) * (1 / (ox * s))
             else ((lo_x - obc) - x) * (1 / (ox * s))) in *.
  set (ty := if Rgeb oy 0 then (hi_y - y) * (1 / (oy * s))
             else ((lo_y - obc) - y) * (1 / (oy * s))) in *.
  assert (E : (dt_x <- (if Rgeb ox 0
                        then e <- Ok hi_x ;; Ok ((e - x) * (1 / (ox * s)))
                        else e <- Ok lo_x ;; Ok ((e - obc - x) * (1 / (ox * s)))) ;;
               dt_y <- (if Rgeb oy 0
                        then e <- Ok hi_y ;; Ok ((e - y) * (1 / (oy * s)))
                        else e <- Ok lo_y ;; Ok ((e - obc - y) * (1 / (oy * s)))) ;;
               Ok (dt_x, dt_y)) = Ok (tx, ty)).
  { unfold tx, ty. destruct (Rgeb ox 0); destruct (Rgeb oy 0); reflexivity. }
  rewrite E. simpl.
  exists (if Rltb tx ty then tx * s else ty * s), (Rltb tx ty).
  split; [reflexivity |].
  destruct (Rltb tx ty) eqn:Elt.
  - apply Rltb_iff in Elt.
    assert (Hd0 : 0 <= tx * s) by (apply Rmult_le_pos; lra).
    assert (Hdy : tx * s <= ty * s) by (apply Rmult_le_compat_r; lra).
    split; [exact Hd0 |]. split.
    + apply Hmx; auto. lra.
    + apply Hmy; auto.
  - apply Rltb_iff_false in Elt.
    assert (Hd0 : 0 <= ty * s) by (apply Rmult_le_pos; lra).
    assert (Hdx : ty * s <= tx * s) by (apply Rmult_le_compat_r; lra).
    split; [exact Hd0 |]. split.
    + apply Hmx; auto.
    + apply Hmy; auto. lra.
Qed.

Lemma calc_distance_to_facet_inside_witness :
  exists d xf,
    calc_distance_to_facet (1 / 100000000000000) 1 (1 / 2) (1 / 2) 0 0 0
      (3 / 5) (- (4 / 5)) 1 0 0 [0; 1] [0; 1] = Ok (d, xf) /\
    0 <= d /\
    0 - 1 / 100000000000000 <= 1 / 2 + d * (3 / 5) <= 1 /\
    0 - 1 / 100000000000000 <= 1 / 2 + d * - (4 / 5) <= 1.
Proof.
  apply (calc_distance_to_facet_inside (1 / 100000000000000) 1 (1 / 2) (1 / 2)
           0 0 0 (3 / 5) (- (4 / 5)) 1 0 0 [0; 1] [0; 1] 0 1 0 1);
    try lra; reflexivity.
Defined.

(** ** The tally and its reduction *)

Lemma add_at_Ok_range (a a' : list R) (n : nat) (v : R) :
  add_at a n v = Ok a' -> (n < length a)%nat.
Proof.
  revert n a'. induction a as [| h t IH]; intros n a' H; simpl in H.
  - destruct n; discriminate.
  - destruct n as [| n]; simpl; [lia |].
    destruct (add_at t n v) as [t' | | |] eqn:E; simpl in H; try discriminate.
    apply IH in E. lia.
Qed.

Lemma range_test_true (i j n : Z) :
  (i <= j < i + n)%Z -> ((i <=? j)%Z && (j <? i + n)%Z) = true.
Proof.
  intros H. apply andb_true_iff. split; [apply Z.leb_le | apply Z.ltb_lt]; lia.
Qed.

Lemma range_test_false (i j n : Z) :
  ~ (i <= j < i + n)%Z -> ((i <=? j)%Z && (j <? i + n)%Z) = false.
Proof.
  intros H. apply andb_false_iff.
  destruct (Z.leb_spec i j); [right | left; reflexivity].
  apply Z.ltb_ge. lia.
Qed.

(** The reduction of a tally in which one entry has grown by [v]. *)
Lemma sum_tally_update (t t' : list R) (j : Z) (u v : R) :
  read t j = Ok u -> read t' j = Ok (u + v) ->
  (forall k, k <> j -> read t' k = read t k) ->
  forall (n : nat) (i : Z) (acc acc' s : R),
    sum_tally n i t acc = Ok s ->
    sum_tally n i t' acc'
    = Ok (s - acc + acc' +
          (if (i <=? j)%Z && (j <? i + Z.of_nat n)%Z then v else 0)).
Proof.
  intros Hj Hj' Hother. induction n as [| n IH]; intros i acc acc' s H.
  - simpl in *. injection H as <-.
    rewrite range_test_false by lia.
    f_equal. lra.
  - cbn [sum_tally] in *.
    destruct (read t i) as [w | | |] eqn:Ei; simpl in H; try discriminate.
    destruct (Z.eq_dec i j) as [-> | Hne].
    + rewrite Hj in Ei. injection Ei as <-. rewrite Hj'. simpl.
      rewrite (IH _ _ (acc' + (u + v)) _ H).
      rewrite range_test_false by lia. rewrite range_test_true by lia.
      f_equal. lra.
    + rewrite (Hother i Hne), Ei. simpl.
      rewrite (IH _ _ (acc' + w) _ H).
      destruct (Z_le_gt_dec i j) as [Hle | Hgt];
        [destruct (Z_lt_ge_dec j (i + Z.of_nat (S n))) as [Hlt | Hge] |].
      * rewrite !range_test_true by lia. f_equal. lra.
      * rewrite !range_test_false by lia. f_equal. lra.
      * rewrite !range_test_false by lia. f_equal. lra.
Qed.

(** X14.  An update of the tally for a cell of the mesh raises the sum that
    [validate] computes by the energy deposited, scaled by
    [inv_ntotal_particles]: the reduction loses or duplicates nothing. *)
Theorem update_tallies_local_energy_tally (nx ny xo yo : Z) (inv ed : R)
    (t t' : list R) (cx cy : Z) (s : R) :
  (0 <= (cy - yo) * nx + (cx - xo) < nx * ny)%Z ->
  update_tallies nx xo yo inv ed t cx cy = Ok t' ->
  local_energy_tally nx ny t = Ok s ->
  local_energy_tally nx ny t' = Ok (s + ed * inv).
Proof.
  intros Hi Hup Hsum.
  assert (Hlen : (0 <= (cy - yo) * nx + (cx - xo) < Z.of_nat (length t))%Z).
  { unfold update_tallies in Hup.
    destruct ((cy - yo) * nx + (cx - xo) <? 0)%Z; [discriminate |].
    apply add_at_Ok_range in Hup. lia. }
  destruct (update_tallies_spec nx xo yo inv ed t cx cy Hlen)
    as (t1 & u & Hup1 & _ & Hu & Hu' & Hother).
  rewrite Hup in Hup1. injection Hup1 as <-.
  unfold local_energy_tally in *.
  rewrite (sum_tally_update t t' _ u (ed * inv) Hu Hu' Hother _ _ 0 0 s Hsum).
  rewrite range_test_true by lia. f_equal. lra.
Qed.

Lemma update_tallies_local_energy_tally_witness :
  local_energy_tally 2 1 [1; 2 + 3 * (1 / 2)] = Ok (0 + 1 + 2 + 3 * (1 / 2)).
Proof.
  apply (update_tallies_local_energy_tally 2 1 0 0 (1 / 2) 3 [1; 2]
           [1; 2 + 3 * (1 / 2)] 1 0 (0 + 1 + 2)).
  - lia.
  - reflexivity.
  - reflexivity.
Defined.

(** ** The energy deposited along a path *)

(** X15.  In exact arithmetic the energy deposited along a path is
    [weight * path * number_density * BARNS * E * (sigma_a + sigma_s * A /
    (A + 1)^2)], where [sigma_s] is the total cross section less [sigma_a];
    it is not negative for a weight, a path length, a density, an energy and
    cross sections that are not negative. *)
Theorem calculate_energy_deposition_closed_form (K : Headers)
    (path_length number_density sigma_a sigma_t energy weight : R) :
  0 < MASS_NO K -> 0 <= BARNS K ->
  0 <= weight -> 0 <= path_length -> 0 <= number_density -> 0 <= energy ->
  0 <= sigma_a <= sigma_t -> 0 < sigma_t ->
  calculate_energy_deposition K path_length number_density sigma_a sigma_t
    energy weight
  = weight * path_length * number_density * BARNS K * energy *
    (sigma_a + (sigma_t - sigma_a) * MASS_NO K /
               ((MASS_NO K + 1) * (MASS_NO K + 1))) /\
  0 <= calculate_energy_deposition K path_length number_density sigma_a
         sigma_t energy weight.
Proof.
  intros HA HB Hw Hp Hn He Ha Ht.
  assert (Heq : calculate_energy_deposition K path_length number_density
                  sigma_a sigma_t energy weight
                = weight * path_length * number_density * BARNS K * energy *
                  (sigma_a + (sigma_t - sigma_a) * MASS_NO K /
                             ((MASS_NO K + 1) * (MASS_NO K + 1)))).
  { unfold calculate_energy_deposition. field. split; lra. }
  split; [exact Heq |]. rewrite Heq.
  assert (Hd : 0 < (MASS_NO K + 1) * (MASS_NO K + 1)) by nra.
  assert (Hq : 0 <= (sigma_t - sigma_a) * MASS_NO K /
                    ((MASS_NO K + 1) * (MASS_NO K + 1))).
  { apply Rmult_le_pos; [nra |]. left. apply Rinv_0_lt_compat. exact Hd. }
  repeat apply Rmult_le_pos; lra.
Qed.

Lemma calculate_energy_deposition_closed_form_witness :
  calculate_energy_deposition sample_headers 1 1 1 2 1 1
  = 1 * 1 * 1 * BARNS sample_headers * 1 *
    (1 + (2 - 1) * MASS_NO sample_headers /
         ((MASS_NO sample_headers + 1) * (MASS_NO sample_headers + 1))) /\
  0 <= calculate_energy_deposition sample_headers 1 1 1 2 1 1.
Proof.
  apply (calculate_energy_deposition_closed_form sample_headers 1 1 1 2 1 1);
    simpl; lra.
Defined.

(** ** The cross-section lookup on any table *)

(** X16.  In exact arithmetic, whatever the table, sorted or not, a lookup
    that returns has stopped at an index whose keys bracket the energy,
    [keys[i] <= E < keys[i+1]], and its value, the linear interpolation of
    the two values of that bin, lies between them.  The rounding of binary64
    arithmetic is outside this statement. *)
Theorem microscopic_cs_for_energy_binary_sound (fuel : nat)
    (cs : CrossSection) (e v : R) (i : Z) :
  microscopic_cs_for_energy_binary fuel cs e = Ok (v, i) ->
  exists k0 k1 v0 v1,
    read (keys cs) i = Ok k0 /\ read (keys cs) (i + 1) = Ok k1 /\
    read (values cs) i = Ok v0 /\ read (values cs) (i + 1) = Ok v1 /\
    k0 <= e < k1 /\
    v = v0 + ((e - k0) / (k1 - k0)) * (v1 - v0) /\
    Rmin v0 v1 <= v <= Rmax v0 v1.
Proof.
  intros H. unfold microscopic_cs_for_energy_binary in H.
  destruct (cs_search _ _ _ _ _) as [ind | | |] eqn:Es; simpl in H;
    try discriminate.
  destruct (cs_search_brackets _ _ _ _ _ _ Es) as (k0 & k1 & Hk0 & Hk1 & Hbr).
  destruct (read (values cs) ind) as [v0 | | |] eqn:Ev0; simpl in H;
    try discriminate.
  rewrite Hk0, Hk1 in H. simpl in H.
  destruct (read (values cs) (ind + 1)) as [v1 | | |] eqn:Ev1; simpl in H;
    try discriminate.
  injection H as <- <-.
  exists k0, k1, v0, v1. repeat split; try assumption; try lra.
  - assert (Hs : 0 <= (e - k0) / (k1 - k0) < 1).
    { split.
      - apply Rmult_le_pos; [lra |]. left. apply Rinv_0_lt_compat. lra.
      - apply div_lt_bound; lra. }
    unfold Rmin. destruct (Rle_dec v0 v1); nra.
  - assert (Hs : 0 <= (e - k0) / (k1 - k0) < 1).
    { split.
      - apply Rmult_le_pos; [lra |]. left. apply Rinv_0_lt_compat. lra.
      - apply div_lt_bound; lra. }
    unfold Rmax. destruct (Rle_dec v0 v1); nra.
Qed.

Lemma microscopic_cs_for_energy_binary_sound_witness :
  exists k0 k1 v0 v1,
    read (keys sample_table) 3 = Ok k0 /\
    read (keys sample_table) (3 + 1) = Ok k1 /\
    read (values sample_table) 3 = Ok v0 /\
    read (values sample_table) (3 + 1) = Ok v1 /\
    k0 <= 9 / 2 < k1 /\
    40 + ((9 / 2 - 4) / (5 - 4)) * (50 - 40)
    = v0 + ((9 / 2 - k0) / (k1 - k0)) * (v1 - v0) /\
    Rmin v0 v1 <= 40 + ((9 / 2 - 4) / (5 - 4)) * (50 - 40) <= Rmax v0 v1.
Proof.
  exact (microscopic_cs_for_energy_binary_sound 10 sample_table (9 / 2) _ 3
           microscopic_cs_sample_inside).
Defined.

(** ** Energies outside the table *)

Section Outside.
Variable ks : list R.
Variable e : R.
Variables kfirst klast : R.
Hypothesis Hinc : strictly_increasing ks.
Hypothesis Hfirst : read ks 0 = Ok kfirst.
Hypothesis Hlast : read ks (Z.of_nat (length ks) - 1) = Ok klast.

Let N : Z := Z.of_nat (length ks).

Lemma key_in_range (i : Z) :
  (0 <= i < N)%Z -> exists k, read ks i = Ok k /\ kfirst <= k <= klast.
Proof.
  intros Hi. destruct (read_in_range ks i Hi) as (k & Hk).
  exists k. split; [exact Hk |]. split.
  - destruct (Z.eq_dec i 0) as [-> | Hne].
    + rewrite Hfirst in Hk. injection Hk as <-. lra.
    + left. apply (Hinc 0%Z i kfirst k); auto. lia.
  - destruct (Z.eq_dec i (N - 1)) as [-> | Hne].
    + unfold N in Hk. rewrite Hlast in Hk. injection Hk as <-. lra.
    + left. apply (Hinc i (N - 1)%Z k klast); auto. lia.
Qed.

(** Below the first key the search walks down until it leaves the table. *)
Lemma cs_search_below (fuel : nat) (ind w : Z) :
  e < kfirst ->
  (0 <= w)%Z -> (ind < N)%Z ->
  (Z.max (ind + 1) 0 + (if (w =? 0)%Z then 1 else 0) + 1 <= Z.of_nat fuel)%Z ->
  cs_search fuel ks e ind w = Undefined.
Proof.
  intros He. revert ind w.
  induction fuel as [| fuel IH]; intros ind w Hw Hind Hfuel.
  - destruct (w =? 0)%Z; lia.
  - cbn [cs_search].
    destruct (Z_lt_ge_dec ind 0) as [Hneg | Hpos].
    + unfold read. rewrite (proj2 (Z.ltb_lt ind 0) Hneg). reflexivity.
    + destruct (key_in_range ind ltac:(lia)) as (k & Hk & Hkr).
      rewrite Hk. cbn [bind]. rewrite Rltb_true by lra. cbn [bind].
      apply IH.
      * lia.
      * lia.
      * replace (Z.max 1 (Z.quot w 2) =? 0)%Z with false
          by (symmetry; apply Z.eqb_neq; lia).
        destruct (Z.eqb_spec w 0); lia.
Qed.

(** From the last key on the search walks up until it leaves the table. *)
Lemma cs_search_above (fuel : nat) (ind w : Z) :
  klast <= e ->
  (0 <= w)%Z -> (0 <= ind)%Z ->
  (Z.max (N - ind) 0 + (if (w =? 0)%Z then 1 else 0) + 1 <= Z.of_nat fuel)%Z ->
  cs_search fuel ks e ind w = Undefined.
Proof.
  intros He. revert ind w.
  induction fuel as [| fuel IH]; intros ind w Hw Hind Hfuel.
  - destruct (w =? 0)%Z; lia.
  - cbn [cs_search].
    destruct (Z_lt_ge_dec ind N) as [Hin | Hout].
    + destruct (key_in_range ind ltac:(lia)) as (k & Hk & Hkr).
      rewrite Hk. cbn [bind]. rewrite Rltb_false by lra.
      destruct (Z.eq_dec (ind + 1) N) as [Heq | Hne].
      * destruct (read ks (ind + 1)) as [k1 | | |] eqn:Ek1; try reflexivity.
        -- apply read_Ok_range in Ek1. unfold N in Heq. lia.
        -- exfalso. exact (read_not_terminated ks (ind + 1) Ek1).
        -- exfalso. unfold read in Ek1.
           destruct (ind + 1 <? 0)%Z; [discriminate |].
           destruct (nth_error ks (Z.to_nat (ind + 1))); discriminate.
      * destruct (key_in_range (ind + 1) ltac:(lia)) as (k1 & Hk1 & Hkr1).
        rewrite Hk1. cbn [bind]. rewrite Rgeb_true by lra.
        apply IH.
        -- lia.
        -- lia.
        -- replace (Z.max 1 (Z.quot w 2) =? 0)%Z with false
             by (symmetry; apply Z.eqb_neq; lia).
           destruct (Z.eqb_spec w 0); lia.
    + destruct (read ks ind) as [k | | |] eqn:Ek; try reflexivity.
      * apply read_Ok_range in Ek. unfold N in Hout. lia.
      * exfalso. exact (read_not_terminated ks ind Ek).
      * exfalso. unfold read in Ek.
        destruct (ind <? 0)%Z; [discriminate |].
        destruct (nth_error ks (Z.to_nat ind)); discriminate.
Qed.

End Outside.

(** X17.  For a table of strictly increasing keys and an energy below the
    first key, or not below the last one, the lookup has no failure exit:
    given the time, it walks out of the table and reads a key outside it,
    which is undefined behaviour in C. *)
Theorem microscopic_cs_for_energy_binary_outside (cs : CrossSection)
    (e kfirst klast : R) (fuel : nat) :
  nentries cs = Z.of_nat (length (keys cs)) ->
  strictly_increasing (keys cs) ->
  read (keys cs) 0 = Ok kfirst ->
  read (keys cs) (nentries cs - 1) = Ok klast ->
  e < kfirst \/ klast <= e ->
  (nentries cs + 3 <= Z.of_nat fuel)%Z ->
  microscopic_cs_for_energy_binary fuel cs e = Undefined.
Proof.
  intros Hn Hinc Hfirst Hlast He Hfuel.
  rewrite Hn in Hlast.
  pose proof (read_Ok_range _ _ _ Hfirst) as Hlen.
  unfold microscopic_cs_for_energy_binary.
  assert (Hq : (0 <= Z.quot (nentries cs) 2 < nentries cs)%Z) by zdiv.
  assert (Hw : (0 <= Z.quot (Z.quot (nentries cs) 2) 2)%Z) by zdiv.
  destruct He as [He | He].
  - rewrite (cs_search_below (keys cs) e kfirst klast Hinc Hfirst Hlast);
      try reflexivity; try assumption; try lia.
    destruct (_ =? 0)%Z; lia.
  - rewrite (cs_search_above (keys cs) e kfirst klast Hinc Hfirst Hlast);
      try reflexivity; try assumption; try lia.
    destruct (_ =? 0)%Z; lia.
Qed.

Lemma microscopic_cs_for_energy_binary_outside_witness :
  microscopic_cs_for_energy_binary 10 sample_table 5 = Undefined.
Proof.
  apply (microscopic_cs_for_energy_binary_outside sample_table 5 1 5 10).
  - reflexivity.
  - exact sample_table_increasing.
  - reflexivity.
  - reflexivity.
  - right. lra.
  - simpl. lia.
Defined.

(** ** Particle injection *)

(** X18.  When the position lies between the first and the last edge of the
    [n] cells that are searched, the search of the cell stops at the first
    cell whose edges hold the position, [edge[j + pad] <= pos < edge[j + pad
    + 1]], and returns its index shifted by the offset of the mesh; the
    edges need not be sorted. *)
Theorem find_cell_finds (n : nat) (i pad off : Z) (edge : list R)
    (pos lo hi : R) :
  (forall k, (i <= k <= i + Z.of_nat n)%Z ->
             exists e, read edge (k + pad) = Ok e) ->
  read edge (i + pad) = Ok lo ->
  read edge (i + Z.of_nat n + pad) = Ok hi ->
  lo <= pos < hi ->
  exists j e0 e1,
    (i <= j < i + Z.of_nat n)%Z /\
    find_cell n i edge pad off pos = Ok (off + j)%Z /\
    read edge (j + pad) = Ok e0 /\ read edge (j + pad + 1) = Ok e1 /\
    e0 <= pos < e1 /\
    (forall k a b, (i <= k < j)%Z ->
       read edge (k + pad) = Ok a -> read edge (k + pad + 1) = Ok b ->
       ~ a <= pos < b).
Proof.
  revert i lo. induction n as [| n IH]; intros i lo Hall Hlo Hhi Hpos.
  - rewrite Z.add_0_r in Hhi. rewrite Hlo in Hhi. injection Hhi as <-. lra.
  - cbn [find_cell]. rewrite Hlo. cbn [bind]. rewrite Rgeb_true by lra.
    destruct (Hall (i + 1)%Z ltac:(lia)) as (e1 & He1).
    replace (i + 1 + pad)%Z with (i + pad + 1)%Z in He1 by lia.
    rewrite He1. cbn [bind].
    destruct (Rltb pos e1) eqn:E.
    + apply Rltb_iff in E. exists i, lo, e1.
      repeat split; try assumption; try lia; try lra.
    + apply Rltb_iff_false in E.
      destruct (IH (i + 1)%Z e1)
        as (j & e0' & e1' & Hj & Hf & H0 & H1 & Hb & Hfirst).
      * intros k Hk. apply Hall. lia.
      * replace (i + 1 + pad)%Z with (i + pad + 1)%Z by lia. exact He1.
      * replace (i + 1 + Z.of_nat n + pad)%Z with (i + Z.of_nat (S n) + pad)%Z
          by lia.
        exact Hhi.
      * lra.
      * exists j, e0', e1'. repeat split; try assumption; try lia; try lra.
        intros k a b Hk Ha Hb'.
        destruct (Z.eq_dec k i) as [-> | Hne].
        -- rewrite He1 in Hb'. injection Hb' as <-. lra.
        -- apply (Hfirst k a b); auto. lia.
Qed.

Lemma find_cell_finds_witness :
  exists j e0 e1,
    (0 <= j < 0 + Z.of_nat 2)%Z /\
    find_cell 2 0 [0; 1; 2] 0 10 (3 / 2) = Ok (10 + j)%Z /\
    read [0; 1; 2] (j + 0) = Ok e0 /\ read [0; 1; 2] (j + 0 + 1) = Ok e1 /\
    e0 <= 3 / 2 < e1 /\
    (forall k a b, (0 <= k < j)%Z ->
       read [0; 1; 2] (k + 0) = Ok a -> read [0; 1; 2] (k + 0 + 1) = Ok b ->
       ~ a <= 3 / 2 < b).
Proof.
  apply (find_cell_finds 2 0 0 10 [0; 1; 2] (3 / 2) 0 2).
  - intros k Hk. apply read_in_range. simpl. lia.
  - reflexivity.
  - reflexivity.
  - lra.
Defined.

(** X19.  When no cell of the [n] cells that are searched holds the
    position, the search returns cell 0 of the global mesh, whatever the
    offset of the local mesh. *)
Theorem find_cell_outside (n : nat) (i pad off : Z) (edge : list R) (pos : R) :
  (forall k, (i <= k < i + Z.of_nat n)%Z ->
             exists e0 e1,
               read edge (k + pad) = Ok e0 /\ read edge (k + pad + 1) = Ok e1 /\
               (pos < e0 \/ e1 <= pos)) ->
  find_cell n i edge pad off pos = Ok 0%Z.
Proof.
  revert i. induction n as [| n IH]; intros i Hall; [reflexivity |].
  cbn [find_cell].
  destruct (Hall i ltac:(lia)) as (e0 & e1 & H0 & H1 & Hout).
  rewrite H0. cbn [bind].
  assert (Hnext : find_cell n (i + 1) edge pad off pos = Ok 0%Z).
  { apply IH. intros k Hk. apply Hall. lia. }
  destruct (Rgeb pos e0) eqn:E.
  - apply Rgeb_iff in E. rewrite H1. cbn [bind].
    rewrite Rltb_false by lra. exact Hnext.
  - cbn [bind]. exact Hnext.
Qed.

Lemma find_cell_outside_witness :
  find_cell 2 0 [0; 1; 2] 0 10 (5 / 2) = Ok 0%Z.
Proof.
  apply (find_cell_outside 2 0 0 10 [0; 1; 2] (5 / 2)).
  intros k Hk. assert (Hk' : k = 0%Z \/ k = 1%Z) by lia.
  destruct Hk' as [-> | ->].
  - exists 0, 1. repeat split; try reflexivity. right. lra.
  - exists 1, 2. repeat split; try reflexivity. right. lra.
Defined.

Lemma inject_lanes_shape (K : Headers) (inject : Z -> result Particle)
    (P : Particle -> Prop) (b k : Z) (n : nat) (ps : list Particle) :
  (forall pid p, inject pid = Ok p -> P p) ->
  inject_lanes K inject b k n = Ok ps ->
  length ps = n /\ Forall P ps.
Proof.
  intros HP. revert k ps. induction n as [| n IH]; intros k ps H; simpl in H.
  - injection H as <-. split; [reflexivity | constructor].
  - destruct (inject _) as [p | | |] eqn:Ep; simpl in H; try discriminate.
    destruct (inject_lanes K inject b (k + 1) n) as [ps' | | |] eqn:E;
      simpl in H; try discriminate.
    injection H as <-. destruct (IH _ _ E) as [Hl Hf].
    split; [simpl; congruence |]. constructor; eauto.
Qed.

Lemma inject_blocks_shape (K : Headers) (inject : Z -> result Particle)
    (P : Particle -> Prop) (b : Z) (n : nat) (blocks : list (list Particle)) :
  (forall pid p, inject pid = Ok p -> P p) ->
  inject_blocks K inject b n = Ok blocks ->
  length blocks = n /\
  Forall (fun blk => length blk = Z.to_nat (BLOCK_SIZE K) /\ Forall P blk) blocks.
Proof.
  intros HP. revert b blocks. induction n as [| n IH]; intros b blocks H;
    simpl in H.
  - injection H as <-. split; [reflexivity | constructor].
  - destruct (inject_lanes K inject b 0 _) as [blk | | |] eqn:Eb; simpl in H;
      try discriminate.
    destruct (inject_blocks K inject (b + 1) n) as [blks | | |] eqn:E;
      simpl in H; try discriminate.
    injection H as <-. destruct (IH _ _ E) as [Hl Hf].
    split; [simpl; congruence |]. constructor; [| exact Hf].
    exact (inject_lanes_shape K inject P b 0 _ blk HP Eb).
Qed.

(** X20.  When [inject_particles] returns, the particle count is a multiple
    of [BLOCK_SIZE], the store holds [nparticles / BLOCK_SIZE] blocks of
    [BLOCK_SIZE] particles, and every particle is alive, of weight 1, of the
    initial energy, with the whole time step to go and no distance to a
    collision sampled yet. *)
Theorem inject_particles_shape (K : Headers) (nparticles lnx lny pad : Z)
    (lo bo w h : R) (xo yo : Z) (dt : R) (ex ey : list R) (e0 : R)
    (blocks : list (list Particle)) :
  inject_particles K nparticles lnx lny pad lo bo w h xo yo dt ex ey e0
  = Ok blocks ->
  Z.rem nparticles (BLOCK_SIZE K) = 0%Z /\
  length blocks = Z.to_nat (Z.quot nparticles (BLOCK_SIZE K)) /\
  Forall (fun blk =>
            length blk = Z.to_nat (BLOCK_SIZE K) /\
            Forall (fun p => p_dead p = false /\ p_weight p = 1 /\
                             p_energy p = e0 /\ p_dt_to_census p = dt /\
                             p_mfp_to_collision p = 0) blk) blocks.
Proof.
  unfold inject_particles. intros H.
  destruct (Z.rem nparticles (BLOCK_SIZE K) =? 0)%Z eqn:Er; simpl in H;
    [| discriminate].
  apply Z.eqb_eq in Er. split; [exact Er |].
  apply (inject_blocks_shape K _ _ 0 _ blocks) with (2 := H).
  intros pid p Hp. unfold inject_particle in Hp.
  destruct (generate_random_numbers K pid 0 0) as [[[r0 r1] r2] r3].
  destruct (find_cell _ _ _ _ _ _) as [cx | | |]; simpl in Hp; try discriminate.
  destruct (find_cell _ _ _ _ _ _) as [cy | | |]; simpl in Hp; try discriminate.
  injection Hp as <-. simpl. repeat split; reflexivity.
Qed.

Lemma inject_particles_sample :
  exists blocks,
    inject_particles sample_headers 4 1 1 0 0 0 1 1 0 0 1 [0; 1] [0; 1] 1
    = Ok blocks.
Proof.
  unfold inject_particles. simpl.
  unfold inject_particle, generate_random_numbers. simpl.
  Rcompare. simpl. Rcompare. simpl. eauto.
Qed.

Lemma inject_particles_shape_witness :
  exists blocks,
    inject_particles sample_headers 4 1 1 0 0 0 1 1 0 0 1 [0; 1] [0; 1] 1
    = Ok blocks /\
    length blocks = 2%nat.
Proof.
  destruct inject_particles_sample as (blocks & H). exists blocks.
  split; [exact H |].
  exact (proj1 (proj2 (inject_particles_shape sample_headers 4 1 1 0 0 0 1 1
                         0 0 1 [0; 1] [0; 1] 1 blocks H))).
Defined.

(** ** The random numbers *)

Lemma generate_random_numbers_range_witness :
  exists r0 r1 r2 r3,
    generate_random_numbers threefry_headers 7 0 1 = (r0, r1, r2, r3) /\
    0 < r0 < 1 /\ 0 < r1 < 1 /\ 0 < r2 < 1 /\ 0 < r3 < 1.
Proof.
  do 4 eexists. split; [reflexivity |].
  apply (generate_random_numbers_range threefry_headers) with (pkey := 7%Z)
    (mk := 0%Z) (ctr := 1%Z).
  - simpl. lra.
  - simpl. lra.
  - simpl. lra.
  - intros c k r0 r1 r2 r3 H. simpl in H. injection H as <- <- <- <-. lia.
  - reflexivity.
Defined.

(** ** The facet kernel at the boundary of the mesh *)

(** Decides the integer comparisons of the goal. *)
Ltac Zcompare :=
  rewrite ?Z.geb_leb, ?Z.gtb_ltb;
  repeat match goal with
  | |- context [(?a <? ?b)%Z] =>
      first [ rewrite (proj2 (Z.ltb_lt a b)) by lia
            | rewrite (proj2 (Z.ltb_ge a b)) by lia ]
  | |- context [(?a <=? ?b)%Z] =>
      first [ rewrite (proj2 (Z.leb_le a b)) by lia
            | rewrite (proj2 (Z.leb_gt a b)) by lia ]
  | |- context [(?a =? ?b)%Z] =>
      first [ rewrite (proj2 (Z.eqb_eq a b)) by lia
            | rewrite (proj2 (Z.eqb_neq a b)) by lia ]
  end.

(** X22.  On an x-facet of a mesh of at least two columns, the facet kernel
    keeps the direction and steps to the next column along it in an inner
    column; in the first and in the last column it negates [omega_x]
    whatever its sign, leaves the column of a particle that was moving into
    the mesh and moves a particle that was moving out of the mesh to the
    next column inwards.  The same holds along [y] on a y-facet. *)
Theorem facet_cross_cases (gnx gny : Z) (ox oy : R) (cx cy : Z) :
  (2 <= gnx)%Z -> (0 <= cx < gnx)%Z -> ox <> 0 ->
  (2 <= gny)%Z -> (0 <= cy < gny)%Z -> oy <> 0 ->
  facet_cross gnx gny true ox oy cx cy
  = (if (0 <? cx)%Z && (cx <? gnx - 1)%Z
     then (ox, oy, if Rgtb ox 0 then (cx + 1)%Z else (cx - 1)%Z, cy)
     else if (cx =? 0)%Z
     then (- ox, oy, if Rgtb ox 0 then 0%Z else 1%Z, cy)
     else (- ox, oy, if Rgtb ox 0 then (gnx - 2)%Z else (gnx - 1)%Z, cy)) /\
  facet_cross gnx gny false ox oy cx cy
  = (if (0 <? cy)%Z && (cy <? gny - 1)%Z
     then (ox, oy, cx, if Rgtb oy 0 then (cy + 1)%Z else (cy - 1)%Z)
     else if (cy =? 0)%Z
     then (ox, - oy, cx, if Rgtb oy 0 then 0%Z else 1%Z)
     else (ox, - oy, cx, if Rgtb oy 0 then (gny - 2)%Z else (gny - 1)%Z)).
Proof.
  intros Hgx Hcx Hox Hgy Hcy Hoy. unfold facet_cross. split.
  - assert (Hc : (cx = 0 \/ 0 < cx < gnx - 1 \/ cx = gnx - 1)%Z) by lia.
    destruct (Rlt_le_dec 0 ox) as [Hpos | Hneg];
      destruct Hc as [Hc | [Hc | Hc]];
      Zcompare; cbn [orb andb]; Rcompare; cbn [orb andb]; Zcompare;
      cbn [orb andb]; Rcompare; cbn [orb andb]; do 2 f_equal; lia.
  - assert (Hc : (cy = 0 \/ 0 < cy < gny - 1 \/ cy = gny - 1)%Z) by lia.
    destruct (Rlt_le_dec 0 oy) as [Hpos | Hneg];
      destruct Hc as [Hc | [Hc | Hc]];
      Zcompare; cbn [orb andb]; Rcompare; cbn [orb andb]; Zcompare;
      cbn [orb andb]; Rcompare; cbn [orb andb]; f_equal; lia.
Qed.

Lemma facet_cross_cases_witness :
  facet_cross 4 4 true 1 (-1) 3 0 = (- 1, -1, (4 - 2)%Z, 0%Z) /\
  facet_cross 4 4 false 1 (-1) 3 0 = (1, - -1, 3%Z, 1%Z).
Proof.
  assert (H1 : Rgtb 1 0 = true) by (apply Rgtb_true; lra).
  assert (H2 : Rgtb (-1) 0 = false) by (apply Rgtb_false; lra).
  pose proof (facet_cross_cases 4 4 1 (-1) 3 0) as H.
  cbn [Z.ltb Z.eqb Z.compare Z.sub Z.add Z.opp Z.pos_sub Pos.compare
       Pos.compare_cont Pos.pred_double andb] in H.
  rewrite H1, H2 in H. apply H; try lia; lra.
Defined.

(** ** The keys of the random number streams *)

Lemma init_pass_keys (K : Headers) (fuel : nat) (nx pad xo yo : Z)
    (initial : bool) (dt : R) (dens : list R) (cs ca : CrossSection)
    (mk ctr bid : Z) (ls ls' : list Lane) (ip np ip' np' : Z) :
  for_lanes (init_lane K fuel nx pad xo yo initial dt dens cs ca mk ctr bid)
    (ip, np) ls = Ok (ls', (ip', np')) ->
  np' = (np + Z.of_nat (length (filter (fun l => negb (p_dead (fst l))) ls)))%Z /\
  forall (i : nat) (l : Lane),
    nth_error ls' i = Some l -> p_dead (fst l) = false ->
    c_key (snd l) = (bid * BLOCK_SIZE K + (ip + Z.of_nat i))%Z.
Proof.
  revert ls' ip np ip' np'.
  induction ls as [| l0 ls IH]; intros ls' ip np ip' np' H;
    cbn [for_lanes] in H.
  - injection H as <- _ <-. split; [simpl; lia |].
    intros i l Hi. destruct i; discriminate.
  - destruct (init_lane _ _ _ _ _ _ _ _ _ _ _ _ _ _ _ l0)
      as [[l1 [ip1 np1]] | | |] eqn:E1; cbn [bind] in H; try discriminate.
    destruct (for_lanes _ (ip1, np1) ls) as [[ls1 [ip2 np2]] | | |] eqn:E2;
      cbn [bind] in H; try discriminate.
    injection H as <- <- <-.
    destruct (IH _ _ _ _ _ E2) as [Hnp Hkeys].
    unfold init_lane in E1. destruct l0 as [p c]. cbn [filter fst].
    destruct (p_dead p) eqn:Hdead.
    + injection E1 as <- <- <-. cbn [negb]. split; [exact Hnp |].
      intros i l Hi Hlive. destruct i as [| i]; simpl in Hi.
      * injection Hi as <-. simpl in Hlive. congruence.
      * rewrite (Hkeys i l Hi Hlive). lia.
    + destruct (read dens _) as [ld | | |]; simpl in E1; try discriminate.
      destruct (microscopic_cs_for_energy_binary fuel cs _)
        as [[ss si] | | |]; simpl in E1; try discriminate.
      destruct (microscopic_cs_for_energy_binary fuel ca _)
        as [[sa ai] | | |]; simpl in E1; try discriminate.
      assert (Hk : c_key (snd l1) = (bid * BLOCK_SIZE K + ip)%Z /\
                   ip1 = (ip + 1)%Z /\ np1 = (np + 1)%Z).
      { destruct initial.
        - destruct (generate_random_numbers K _ _ _) as [[[r0 r1] r2] r3].
          injection E1 as <- <- <-. simpl. auto.
        - injection E1 as <- <- <-. simpl. auto. }
      destruct Hk as (Hk & -> & ->). cbn [negb length].
      split; [lia |].
      intros i l Hi Hlive. destruct i as [| i]; simpl in Hi.
      * injection Hi as <-. rewrite Hk. lia.
      * rewrite (Hkeys i l Hi Hlive). lia.
Qed.

(** X23.  The cache initialisation counts the live particles of the block,
    and keys the random number stream of the live lane [ip] of block [bid]
    with the index of its particle in the store, [bid * BLOCK_SIZE + ip];
    the loop starts with the counter of the streams at 1. *)
Theorem init_block_keys (K : Headers) (fuel : nat) (m : Problem)
    (initial : bool) (dt : R) (bid : Z) (tally0 : list R) (nf nc np np' : Z)
    (lanes0 : list Lane) (st0 : BlockState) :
  init_block K fuel m initial dt bid tally0 nf nc np lanes0 = Ok (st0, np') ->
  np' = (np + Z.of_nat (length (filter (fun l => negb (p_dead (fst l)))
                                  lanes0)))%Z /\
  counter st0 = 1%Z /\
  forall (ip : nat) (l : Lane),
    nth_error (lanes st0) ip = Some l -> p_dead (fst l) = false ->
    c_key (snd l) = (bid * BLOCK_SIZE K + Z.of_nat ip)%Z.
Proof.
  intros H. unfold init_block in H.
  destruct (for_lanes _ _ _) as [[lanes1 [ip1 np1]] | | |] eqn:E;
    simpl in H; try discriminate.
  injection H as <- <-. simpl.
  destruct (init_pass_keys _ _ _ _ _ _ _ _ _ _ _ _ _ _ _ _ _ _ _ _ E)
    as [Hnp Hkeys].
  repeat split; auto.
Qed.

Lemma init_block_keys_witness :
  exists st0 np',
    init_block sample_headers 10 sample_problem true 1 0 [0] 0 0 0 sample_lanes
    = Ok (st0, np') /\
    np' = 1%Z /\ counter st0 = 1%Z.
Proof.
  destruct sample_init_block as (st0 & np' & H).
  exists st0, np'. split; [exact H |].
  destruct (init_block_keys sample_headers 10 sample_problem true 1 0 [0]
              0 0 0 np' sample_lanes st0 H) as (H1 & H2 & _).
  split; assumption.
Defined.

(** ** A time step, block by block *)

Lemma store_block_same (ps ps' : list (list Particle)) (n : nat)
    (blk : list Particle) :
  store_block ps n blk = Ok ps' -> read ps' (Z.of_nat n) = Ok blk.
Proof.
  revert n ps'. induction ps as [| h t IH]; intros n ps' H; simpl in H.
  - destruct n; discriminate.
  - destruct n as [| n].
    + injection H as <-. reflexivity.
    + destruct (store_block t n blk) as [t' | | |] eqn:E; simpl in H;
        try discriminate.
      injection H as <-. rewrite read_cons_pos by lia.
      replace (Z.of_nat (S n) - 1)%Z with (Z.of_nat n) by lia. eauto.
Qed.

Lemma combine_fst_length {A B : Type} (xs : list A) (ys : list B) :
  length xs = length ys -> length (combine xs ys) = length xs.
Proof. intros H. rewrite length_combine. lia. Qed.

Section Census.
Variable K : Headers.
Variables n fuel : nat.
Variable m : Problem.
Variable found : positive.
Variable initial : bool.
Variable dt : R.

(** A block of [BLOCK_SIZE] particles. *)
Let full (blk : list Particle) : Prop :=
  Z.of_nat (length blk) = BLOCK_SIZE K.

(** A block whose live particles have reached census. *)
Let at_census (blk : list Particle) : Prop :=
  Forall (fun p => p_dead p = false -> p_dt_to_census p = 0) blk.

Lemma thread_loop_census (bids : list Z) :
  forall (cache : list Cache) (sh sh' : Shared),
    thread_loop K n fuel m found initial dt bids cache sh = Ok sh' ->
    NoDup bids ->
    Z.of_nat (length cache) = BLOCK_SIZE K ->
    (forall b blk, read (particles sh) b = Ok blk -> full blk) ->
    forall b blk,
      read (particles sh') b = Ok blk ->
      full blk /\
      (In b bids -> at_census blk) /\
      (~ In b bids -> read (particles sh) b = Ok blk).
Proof.
  induction bids as [| bid rest IH]; intros cache sh sh' H Hnd Hcache Hfull b blk Hb.
  - simpl in H. injection H as <-. repeat split; eauto. intros [].
  - cbn [thread_loop] in H.
    destruct (read (particles sh) bid) as [block | | |] eqn:Eblock;
      cbn [bind] in H; try discriminate.
    destruct (handle_block _ _ _ _ _ _ _ _ _ _ _ _ _)
      as [[st np1] | | |] eqn:Eh; cbn [bind] in H; try discriminate.
    destruct (store_block _ _ _) as [ps1 | | |] eqn:Es; cbn [bind] in H;
      try discriminate.
    pose proof (read_Ok_range _ _ _ Eblock) as Rbid.
    pose proof (Hfull _ _ Eblock) as Hblock. unfold full in Hblock.
    assert (Hlanes : Z.of_nat (length (combine block cache)) = BLOCK_SIZE K).
    { rewrite combine_fst_length; [exact Hblock | lia]. }
    destruct (handle_block_final_lanes _ _ _ _ _ _ _ _ _ _ _ _ _ _ _ Hlanes Eh)
      as [Hlen Hfinal].
    pose proof (store_block_same _ _ _ _ Es) as Hsame.
    rewrite Z2Nat.id in Hsame by lia.
    inversion Hnd as [| ? ? Hnotin Hnd']; subst.
    destruct (IH _ _ _ H Hnd') with (b := b) (blk := blk)
      as (Hf & Hin & Hout); auto.
    + rewrite length_map. exact Hlen.
    + cbn [particles]. intros b' blk' Hb'.
      destruct (Z.eq_dec b' bid) as [-> | Hne].
      * rewrite Hsame in Hb'. injection Hb' as <-. unfold full.
        rewrite length_map. exact Hlen.
      * rewrite (store_block_other _ _ _ _ b' Es) in Hb' by lia. eauto.
    + cbn [particles] in Hout. split; [exact Hf |]. split.
      * intros [<- | Hr]; [| auto].
        pose proof (Hout Hnotin) as Hb1. rewrite Hsame in Hb1.
        injection Hb1 as <-. unfold at_census.
        apply Forall_map. apply Forall_impl with (2 := Hfinal).
        intros l Hl Hlive. rewrite Hlive in Hl. apply Hl.
      * intros Hn. assert (Hb1 : read ps1 b = Ok blk).
        { apply Hout. intros Hr. apply Hn. right. exact Hr. }
        rewrite (store_block_other _ _ _ _ b Es) in Hb1; [exact Hb1 |].
        intros ->. apply Hn. left. lia.
Qed.

Lemma run_threads_census (nthreads nb : Z) (cache0 : Z -> list Cache)
    (tids : list Z) :
  forall (sh sh' : Shared),
    run_threads K n fuel m found initial dt nthreads nb cache0 tids sh = Ok sh' ->
    NoDup (flat_map (thread_blocks nthreads nb) tids) ->
    (forall tid, Z.of_nat (length (cache0 tid)) = BLOCK_SIZE K) ->
    (forall b blk, read (particles sh) b = Ok blk -> full blk) ->
    forall b blk,
      read (particles sh') b = Ok blk ->
      full blk /\
      (In b (flat_map (thread_blocks nthreads nb) tids) -> at_census blk) /\
      (~ In b (flat_map (thread_blocks nthreads nb) tids) ->
       read (particles sh) b = Ok blk).
Proof.
  induction tids as [| tid rest IH]; intros sh sh' H Hnd Hcache Hfull b blk Hb.
  - simpl in H. injection H as <-. repeat split; eauto. intros [].
  - cbn [run_threads] in H.
    destruct (thread_loop _ _ _ _ _ _ _ _ _ _) as [sh1 | | |] eqn:Et;
      cbn [bind] in H; try discriminate.
    cbn [flat_map] in *.
    pose proof (NoDup_app_remove_r _ _ Hnd) as Hnd1.
    pose proof (NoDup_app_remove_l _ _ Hnd) as Hnd2.
    pose proof (thread_loop_census _ _ _ _ Et Hnd1 (Hcache tid) Hfull) as Hth.
    destruct (IH _ _ H Hnd2 Hcache) with (b := b) (blk := blk)
      as (Hf & Hin & Hout); auto.
    + intros b' blk' Hb'. exact (proj1 (Hth b' blk' Hb')).
    + split; [exact Hf |]. split.
      * intros Hi. apply in_app_or in Hi.
        destruct (in_dec Z.eq_dec b (flat_map (thread_blocks nthreads nb) rest))
          as [Hr | Hr]; [auto |].
        destruct Hi as [Hi | Hi]; [| contradiction].
        exact (proj1 (proj2 (Hth b blk (Hout Hr))) Hi).
      * intros Hn.
        assert (Hr : ~ In b (flat_map (thread_blocks nthreads nb) rest))
          by (intros Hr; apply Hn; apply in_or_app; right; exact Hr).
        apply (proj2 (proj2 (Hth b blk (Hout Hr)))).
        intros Hi. apply Hn. apply in_or_app. left. exact Hi.
Qed.

End Census.

(** X28.  When a time step returns for a particle store of blocks of
    [BLOCK_SIZE] particles, every block that a thread has worked on still
    has [BLOCK_SIZE] particles, and each of its particles that is alive has
    reached census: its time to census is exactly 0. *)
Theorem solve_transport_2d_reaches_census (K : Headers) (n fuel : nat)
    (m : Problem) (found : positive) (dt : R) (nthreads : Z)
    (cache0 : Z -> list Cache) (nparticles : Z)
    (ps ps' : list (list Particle)) (t t' : list R) (nf nc nf' nc' : Z) :
  (forall tid, Z.of_nat (length (cache0 tid)) = BLOCK_SIZE K) ->
  Forall (fun blk => Z.of_nat (length blk) = BLOCK_SIZE K) ps ->
  solve_transport_2d K n fuel m found dt nthreads cache0 nparticles ps t nf nc
  = Ok (ps', t', nf', nc') ->
  forall b blk,
    In b (processed_blocks K nthreads nparticles) ->
    read ps' b = Ok blk ->
    Z.of_nat (length blk) = BLOCK_SIZE K /\
    Forall (fun p => p_dead p = false -> p_dt_to_census p = 0) blk.
Proof.
  intros Hcache Hfull H b blk Hin Hb.
  unfold solve_transport_2d in H.
  destruct (nparticles =? 0)%Z eqn:E0.
  - apply Z.eqb_eq in E0. subst nparticles. exfalso.
    unfold processed_blocks in Hin. rewrite flat_map_thread_blocks in Hin.
    change (Z.quot 0 (BLOCK_SIZE K)) with 0%Z in Hin.
    change (Z.quot 0 nthreads) with 0%Z in Hin.
    change (Z.to_nat 0) with 0%nat in Hin.
    replace (Z.to_nat nthreads * 0)%nat with 0%nat in Hin by lia.
    exact Hin.
  - unfold handle_particles in H.
    destruct (run_threads _ _ _ _ _ _ _ _ _ _ _ _) as [sh | | |] eqn:Er;
      cbn [bind] in H; try discriminate.
    injection H as <- _ _ _.
    destruct (run_threads_census K n fuel m found true dt nthreads _ cache0 _
                _ _ Er) with (b := b) (blk := blk) as (Hf & Hc & _); auto.
    + apply thread_blocks_NoDup.
    + cbn [particles]. intros b' blk' Hb'. exact (read_Forall _ _ _ _ Hfull Hb').
Qed.

Lemma solve_transport_2d_reaches_census_witness :
  exists ps' t' nf' nc' blk,
    solve_transport_2d sample_headers 1 10 sample_problem 1%positive 0 2
      (fun _ => [sample_cache; sample_cache]) 6 census_store [0] 0 0
    = Ok (ps', t', nf', nc') /\
    read ps' 1 = Ok blk /\
    Z.of_nat (length blk) = BLOCK_SIZE sample_headers /\
    Forall (fun p => p_dead p = false -> p_dt_to_census p = 0) blk.
Proof.
  destruct sample_solve_transport_2d as (ps' & t' & nf' & nc' & H & Hlen).
  destruct (read_in_range ps' 1) as (blk & Hblk); [rewrite Hlen; lia |].
  exists ps', t', nf', nc', blk. split; [exact H |]. split; [exact Hblk |].
  apply (solve_transport_2d_reaches_census sample_headers 1 10 sample_problem
           1%positive 0 2 (fun _ => [sample_cache; sample_cache]) 6
           census_store ps' [0] t' 0 0 nf' nc') with (b := 1%Z).
  - intros tid. reflexivity.
  - unfold census_store. repeat constructor.
  - exact H.
  - vm_compute. right. left. reflexivity.
  - exact Hblk.
Defined.

(** ** The kernels stay inside their arrays *)

(** X29.  On a single rank without halo ([pad = 0], no offsets, [nx =
    global_nx]), with [global_nx + 1] and [global_ny + 1] edges and one
    density and one tally entry for each cell, the classification, facet and
    census kernels of a particle in the mesh read and write inside the
    arrays only; the tally keeps its length and the facet kernel leaves the
    particle in the mesh. *)
Theorem kernels_in_bounds (K : Headers) (m : Problem) (t : list R) (l : Lane) :
  pad m = 0%Z -> x_off m = 0%Z -> y_off m = 0%Z -> nx m = global_nx m ->
  Z.of_nat (length (edgex m)) = (global_nx m + 1)%Z ->
  Z.of_nat (length (edgey m)) = (global_ny m + 1)%Z ->
  Z.of_nat (length (density m)) = (global_nx m * global_ny m)%Z ->
  Z.of_nat (length t) = (global_nx m * global_ny m)%Z ->
  in_mesh m (fst l) ->
  (exists l1,
     calc_event K (global_nx m) (pad m) (x_off m) (y_off m) (edgex m) (edgey m) l
     = Ok l1) /\
  (exists l' t',
     facet_event K (global_nx m) (global_ny m) (nx m) (x_off m) (y_off m)
       (inv_ntotal_particles m) (density m) t l = Ok (l', t') /\
     length t' = length t /\ in_mesh m (fst l')) /\
  (forall dn cell_mfp, exists l' t',
     census_event K (nx m) (x_off m) (y_off m) (inv_ntotal_particles m) dn
       cell_mfp t l = Ok (l', t') /\
     length t' = length t).
Proof.
  intros Hpad Hxo Hyo Hnx Hex Hey Hdens Ht [Hcx Hcy].
  destruct l as [p c]. cbn [fst] in Hcx, Hcy.
  rewrite Hpad, Hxo, Hyo, Hnx.
  assert (Hidx : forall cx cy, (0 <= cx < global_nx m)%Z ->
                   (0 <= cy < global_ny m)%Z ->
                   (0 <= (cy - 0) * global_nx m + (cx - 0)
                    < global_nx m * global_ny m)%Z) by (intros; nia).
  split; [| split].
  - unfold calc_event. destruct (p_dead p); [eauto |].
    unfold calc_distance_to_facet, facet_times. cbn [d0 d1 dsub dmul ddiv dlt dge R_arith].
    destruct (read_in_range (edgex m) (p_cellx p - 0 + 0)) as [ex0 Hex0]; [lia |].
    destruct (read_in_range (edgex m) (p_cellx p - 0 + 0 + 1)) as [ex1 Hex1];
      [lia |].
    destruct (read_in_range (edgey m) (p_celly p - 0 + 0)) as [ey0 Hey0]; [lia |].
    destruct (read_in_range (edgey m) (p_celly p - 0 + 0 + 1)) as [ey1 Hey1];
      [lia |].
    rewrite Hex0, Hex1, Hey0, Hey1.
    destruct (Rgeb (p_omega_x p) 0); destruct (Rgeb (p_omega_y p) 0);
      cbn [bind]; eauto.
  - unfold facet_event.
    destruct (update_tallies_spec (global_nx m) 0 0 (inv_ntotal_particles m)
                (c_energy_deposition c +
                 calculate_energy_deposition K (c_distance_to_facet c)
                   (c_number_density c) (c_microscopic_cs_absorb c)
                   (c_microscopic_cs_scatter c + c_microscopic_cs_absorb c)
                   (p_energy p) (p_weight p)) t (p_cellx p) (p_celly p))
      as (t' & u & Hup & Hlen & _).
    { rewrite Ht. apply Hidx; assumption. }
    rewrite Hup. cbn [bind].
    destruct (facet_cross _ _ _ _ _ _ _) as [[[ox oy] cx'] cy'] eqn:Ec.
    destruct (facet_cross_in_mesh _ _ _ _ _ _ _ _ _ _ _ Ec Hcx Hcy) as [Hcx' Hcy'].
    destruct (read_in_range (density m)
                ((cy' - 0) * global_nx m + (cx' - 0))) as [ld Hld].
    { rewrite Hdens. apply Hidx; assumption. }
    rewrite Hld. cbn [bind]. do 2 eexists. split; [reflexivity |].
    split; [exact Hlen |]. split; assumption.
  - intros dn cm. unfold census_event.
    destruct (update_tallies_spec (global_nx m) 0 0 (inv_ntotal_particles m)
                (c_energy_deposition c +
                 calculate_energy_deposition K dn
                   (c_number_density c) (c_microscopic_cs_absorb c)
                   (c_microscopic_cs_scatter c + c_microscopic_cs_absorb c)
                   (p_energy p) (p_weight p)) t (p_cellx p) (p_celly p))
      as (t' & u & Hup & Hlen & _).
    { rewrite Ht. apply Hidx; assumption. }
    rewrite Hup. cbn [bind]. do 2 eexists. split; [reflexivity | exact Hlen].
Qed.

Lemma kernels_in_bounds_witness :
  (exists l1,
     calc_event sample_headers 1 0 0 0 [0; 1] [0; 1]
       (sample_particle, sample_cache) = Ok l1) /\
  (exists l' t',
     facet_event sample_headers 1 1 1 0 0 (inv_ntotal_particles sample_problem)
       [1] [0] (sample_particle, sample_cache) = Ok (l', t') /\
     length t' = length [0] /\ in_mesh sample_problem (fst l')) /\
  (forall dn cell_mfp, exists l' t',
     census_event sample_headers 1 0 0 (inv_ntotal_particles sample_problem) dn
       cell_mfp [0] (sample_particle, sample_cache) = Ok (l', t') /\
     length t' = length [0]).
Proof.
  apply (kernels_in_bounds sample_headers sample_problem [0]
           (sample_particle, sample_cache)); try reflexivity.
  unfold in_mesh. simpl. lia.
Defined.

(** * The kernels of bright.c *)

(** ** The collision kernel *)

(** X24.  In [handle_collision] of bright.c the new energy is stored in the
    particle before the scattering angle is computed from the ratio of the
    new energy to the stored one: the cosine is 1 whatever the random
    numbers, and a collision never changes the direction of the particle. *)
Theorem bright_handle_collision_keeps_direction {G : Type}
    (K : Bright.Headers G) (p p' : Bright.Particle) (gnx nx xo yo : Z)
    (ca ct dc : R) (t t' : list R) (g g' : G) :
  Bright.handle_collision K p gnx nx xo yo ca ct dc t g = Ok (p', t', g') ->
  Bright.e p' <> 0 ->
  Bright.omega_x p' = Bright.omega_x p /\
  Bright.omega_y p' = Bright.omega_y p.
Proof.
  unfold Bright.handle_collision. intros H He.
  destruct (Bright.genrand K g) as [r g1].
  destruct (Rltb r (ca / ct)).
  - cbn [Bright.x Bright.y Bright.omega_x Bright.omega_y Bright.e
         Bright.weight Bright.cell Bright.dead] in H.
    destruct (_ <? 0)%Z; [discriminate |].
    destruct (Bright.sub_at _ _ _) as [t1 | | |]; simpl in H; try discriminate.
    injection H as <- _ _. simpl. split; reflexivity.
  - destruct (Bright.genrand K g1) as [r1 g2].
    cbn [Bright.x Bright.y Bright.omega_x Bright.omega_y Bright.e
         Bright.weight Bright.cell Bright.dead] in H.
    destruct (_ <? 0)%Z; [discriminate |].
    destruct (Bright.sub_at _ _ _) as [t1 | | |]; simpl in H; try discriminate.
    injection H as <- _ _. simpl in *.
    set (e_new := Bright.e p *
                  (Bright.MASS_NO K * Bright.MASS_NO K +
                   2 * Bright.MASS_NO K * (1 - 2 * r1) + 1) /
                  ((Bright.MASS_NO K + 1) * (Bright.MASS_NO K + 1))) in *.
    assert (H1 : e_new / e_new = 1) by (field; exact He).
    rewrite H1, sqrt_1.
    replace (1 / 2 * ((Bright.MASS_NO K + 1) * 1 - (Bright.MASS_NO K - 1) * 1))
      with 1 by lra.
    rewrite acos_1, sin_0. split; ring.
Qed.

Lemma bright_handle_collision_sample :
  exists p' t' g',
    Bright.handle_collision bright_headers bright_particle 2 2 0 0 0 1 (1 / 10)
      [0; 0] tt = Ok (p', t', g') /\
    Bright.e p' = 4 * (100 * 100 + 2 * 100 * (1 - 2 * (1 / 2)) + 1) /
                  ((100 + 1) * (100 + 1)).
Proof.
  unfold Bright.handle_collision, bright_headers, bright_particle. simpl.
  Rcompare. simpl. do 3 eexists. split; reflexivity.
Qed.

Lemma bright_handle_collision_keeps_direction_witness :
  exists p' t' g',
    Bright.handle_collision bright_headers bright_particle 2 2 0 0 0 1 (1 / 10)
      [0; 0] tt = Ok (p', t', g') /\
    Bright.omega_x p' = Bright.omega_x bright_particle /\
    Bright.omega_y p' = Bright.omega_y bright_particle.
Proof.
  destruct bright_handle_collision_sample as (p' & t' & g' & H & He).
  exists p', t', g'. split; [exact H |].
  apply (bright_handle_collision_keeps_direction bright_headers
           bright_particle p' 2 2 0 0 0 1 (1 / 10) [0; 0] t' tt g' H).
  rewrite He. apply Rgt_not_eq. lra.
Defined.

(** ** The facet kernel *)

(** Settles the cases of a statement on the facet kernel once the branch
    that the kernel takes is known. *)
Ltac facet_cases :=
  simpl; repeat split; try reflexivity; intros; try lra; try lia;
  repeat split; try reflexivity; try assumption.


(** X25.  [handle_facet_encounter] of bright.c moves the particle to the
    facet and, along the axis of the crossing, negates the direction
    cosine exactly when the particle is in the last cell moving up or in the
    first cell moving down, keeping the cell; otherwise it keeps the
    direction and steps to the next cell along it.  The other axis is left
    alone. *)
Theorem bright_handle_facet_encounter_rule (gnx gny nx ny xo yo : Z) (d : R)
    (xf : bool) (p : Bright.Particle) (cx cy : Z) :
  (0 <= cx < gnx)%Z -> (0 <= cy)%Z -> Bright.cell p = (cy * gnx + cx)%Z ->
  let r := Bright.handle_facet_encounter gnx gny nx ny xo yo d xf p in
  Bright.x (fst r) = Bright.x p + d * Bright.omega_x p /\
  Bright.y (fst r) = Bright.y p + d * Bright.omega_y p /\
  exists cx' cy',
    Bright.cell (fst r) = (cy' * gnx + cx')%Z /\
    if xf
    then reflects_or_steps gnx cx (Bright.omega_x p) (Bright.omega_x (fst r))
           cx' /\
         cy' = cy /\ Bright.omega_y (fst r) = Bright.omega_y p
    else reflects_or_steps gny cy (Bright.omega_y p) (Bright.omega_y (fst r))
           cy' /\
         cx' = cx /\ Bright.omega_x (fst r) = Bright.omega_x p.
Proof.
  intros Hcx Hcy Hcell r.
  destruct (cell_index_split gnx cx cy Hcx Hcy) as [Hrem Hquot].
  unfold r, Bright.handle_facet_encounter, reflects_or_steps.
  rewrite Hcell, Hrem, Hquot.
  destruct xf.
  - destruct (Rtotal_order (Bright.omega_x p) 0) as [Hneg | [Hzero | Hpos]].
    + rewrite (Rgtb_false _ 0) by lra. rewrite (Rltb_true _ 0) by lra.
      destruct (Z_le_gt_dec cx 0) as [Hb | Hi]; Zcompare.
      * cbn [fst]. facet_cases. exists cx, cy. facet_cases.
      * destruct (cx - 1 <? xo)%Z; cbn [fst]; facet_cases;
          exists (cx - 1)%Z, cy; facet_cases.
    + rewrite (Rgtb_false _ 0) by lra. rewrite (Rltb_false _ 0) by lra.
      cbn [fst]. facet_cases. exists cx, cy. facet_cases.
    + rewrite (Rgtb_true _ 0) by lra.
      destruct (Z_le_gt_dec (gnx - 1) cx) as [Hb | Hi]; Zcompare.
      * cbn [fst]. facet_cases. exists cx, cy. facet_cases.
      * destruct (nx + xo <=? cx + 1)%Z; cbn [fst]; facet_cases;
          exists (cx + 1)%Z, cy; facet_cases.
  - destruct (Rtotal_order (Bright.omega_y p) 0) as [Hneg | [Hzero | Hpos]].
    + rewrite (Rgtb_false _ 0) by lra. rewrite (Rltb_true _ 0) by lra.
      destruct (Z_le_gt_dec cy 0) as [Hb | Hi]; Zcompare.
      * cbn [fst]. facet_cases. exists cx, cy. facet_cases.
      * destruct (cy - 1 <? yo)%Z; cbn [fst]; facet_cases;
          exists cx, (cy - 1)%Z; facet_cases.
    + rewrite (Rgtb_false _ 0) by lra. rewrite (Rltb_false _ 0) by lra.
      cbn [fst]. facet_cases. exists cx, cy. facet_cases.
    + rewrite (Rgtb_true _ 0) by lra.
      destruct (Z_le_gt_dec (gny - 1) cy) as [Hb | Hi]; Zcompare.
      * cbn [fst]. facet_cases. exists cx, cy. facet_cases.
      * destruct (ny + yo <=? cy + 1)%Z; cbn [fst]; facet_cases;
          exists cx, (cy + 1)%Z; facet_cases.
Qed.

Lemma bright_handle_facet_encounter_rule_witness :
  let r := Bright.handle_facet_encounter 2 2 2 2 0 0 (1 / 2) true
             bright_particle in
  Bright.x (fst r) = Bright.x bright_particle
                     + 1 / 2 * Bright.omega_x bright_particle /\
  Bright.y (fst r) = Bright.y bright_particle
                     + 1 / 2 * Bright.omega_y bright_particle /\
  exists cx' cy',
    Bright.cell (fst r) = (cy' * 2 + cx')%Z /\
    reflects_or_steps 2 1 (Bright.omega_x bright_particle)
      (Bright.omega_x (fst r)) cx' /\
    cy' = 0%Z /\ Bright.omega_y (fst r) = Bright.omega_y bright_particle.
Proof.
  apply (bright_handle_facet_encounter_rule 2 2 2 2 0 0 (1 / 2) true
           bright_particle 1 0); try lia; reflexivity.
Defined.

(** X26.  When the local mesh is the whole mesh, [handle_facet_encounter]
    of bright.c hands no particle to a neighbour: it returns [FALSE], and
    the particle, reflected or moved by one cell, is still in a cell of the
    mesh with a direction of the same norm. *)
Theorem bright_handle_facet_encounter_single_rank (gnx gny : Z) (d : R)
    (xf : bool) (p : Bright.Particle) (cx cy : Z) :
  (0 <= cx < gnx)%Z -> (0 <= cy < gny)%Z ->
  Bright.cell p = (cy * gnx + cx)%Z ->
  let r := Bright.handle_facet_encounter gnx gny gnx gny 0 0 d xf p in
  snd r = None /\
  (exists cx' cy',
     Bright.cell (fst r) = (cy' * gnx + cx')%Z /\
     (0 <= cx' < gnx)%Z /\ (0 <= cy' < gny)%Z) /\
  Bright.omega_x (fst r) * Bright.omega_x (fst r) +
  Bright.omega_y (fst r) * Bright.omega_y (fst r)
  = Bright.omega_x p * Bright.omega_x p + Bright.omega_y p * Bright.omega_y p.
Proof.
  intros Hcx Hcy Hcell r.
  destruct (cell_index_split gnx cx cy Hcx ltac:(lia)) as [Hrem Hquot].
  unfold r, Bright.handle_facet_encounter.
  rewrite Hcell, Hrem, Hquot.
  destruct xf.
  - destruct (Rgtb (Bright.omega_x p) 0); [| destruct (Rltb (Bright.omega_x p) 0)].
    + destruct (Z_le_gt_dec (gnx - 1) cx); Zcompare; cbn [fst snd];
        (split; [reflexivity |]); split; try (simpl; ring).
      * exists cx, cy. simpl. auto.
      * exists (cx + 1)%Z, cy. simpl. repeat split; lia.
    + destruct (Z_le_gt_dec cx 0); Zcompare; cbn [fst snd];
        (split; [reflexivity |]); split; try (simpl; ring).
      * exists cx, cy. simpl. auto.
      * exists (cx - 1)%Z, cy. simpl. repeat split; lia.
    + cbn [fst snd]. split; [reflexivity |]. split; [| simpl; ring].
      exists cx, cy. simpl. auto.
  - destruct (Rgtb (Bright.omega_y p) 0); [| destruct (Rltb (Bright.omega_y p) 0)].
    + destruct (Z_le_gt_dec (gny - 1) cy); Zcompare; cbn [fst snd];
        (split; [reflexivity |]); split; try (simpl; ring).
      * exists cx, cy. simpl. auto.
      * exists cx, (cy + 1)%Z. simpl. repeat split; lia.
    + destruct (Z_le_gt_dec cy 0); Zcompare; cbn [fst snd];
        (split; [reflexivity |]); split; try (simpl; ring).
      * exists cx, cy. simpl. auto.
      * exists cx, (cy - 1)%Z. simpl. repeat split; lia.
    + cbn [fst snd]. split; [reflexivity |]. split; [| simpl; ring].
      exists cx, cy. simpl. auto.
Qed.

Lemma bright_handle_facet_encounter_single_rank_witness :
  let r := Bright.handle_facet_encounter 2 2 2 2 0 0 (1 / 2) true
             bright_particle in
  snd r = None /\
  (exists cx' cy',
     Bright.cell (fst r) = (cy' * 2 + cx')%Z /\
     (0 <= cx' < 2)%Z /\ (0 <= cy' < 2)%Z) /\
  Bright.omega_x (fst r) * Bright.omega_x (fst r) +
  Bright.omega_y (fst r) * Bright.omega_y (fst r)
  = Bright.omega_x bright_particle * Bright.omega_x bright_particle +
    Bright.omega_y bright_particle * Bright.omega_y bright_particle.
Proof.
  apply (bright_handle_facet_encounter_single_rank 2 2 (1 / 2) true
           bright_particle 1 0); try lia; reflexivity.
Defined.

(** ** The cross-section lookup of bright.c *)

Section BrightSearch.
Variable ks : list R.
Variable e : R.
Variable t : Z.
Variables kt0 kt : R.
Hypothesis Hinc : strictly_increasing ks.
Hypothesis Ht0 : read ks (t - 1) = Ok kt0.
Hypothesis Ht : read ks t = Ok kt.
Hypothesis Hbr : kt0 <= e <= kt.

Let N : Z := Z.of_nat (length ks).

Lemma key_order (i j : Z) (ki kj : R) :
  read ks i = Ok ki -> read ks j = Ok kj -> ki < kj -> (i < j)%Z.
Proof.
  intros Hi Hj Hlt. destruct (Z.lt_ge_cases i j) as [| Hge]; [assumption |].
  exfalso. destruct (Z.eq_dec i j) as [-> | Hne].
  - rewrite Hi in Hj. injection Hj as <-. lra.
  - assert (kj < ki) by (apply (Hinc j i); auto; lia). lra.
Qed.

Lemma bright_cs_search_reaches (fuel : nat) (ind w : Z) :
  (0 <= w)%Z ->
  (1 + jump_room (Z.max 1 (Z.quot w 2)) <= ind)%Z ->
  (ind + jump_room (Z.max 1 (Z.quot w 2)) <= N - 1)%Z ->
  (search_measure N t ind (Z.max 1 (Z.quot w 2)) < Z.of_nat fuel)%Z ->
  exists i k0 k,
    Bright.cs_search fuel ks e ind w = Ok i /\
    read ks (i - 1) = Ok k0 /\ read ks i = Ok k /\ k0 <= e <= k.
Proof.
  pose proof (read_Ok_range _ _ _ Ht0) as Rt0.
  pose proof (read_Ok_range _ _ _ Ht) as Rt. fold N in Rt0, Rt.
  revert ind w. induction fuel as [| f IH]; intros ind w Hw Hlo Hhi Hm.
  - unfold search_measure in Hm. destruct (Z.eqb_spec (Z.max 1 (Z.quot w 2)) 1); lia.
  - set (w' := Z.max 1 (Z.quot w 2)) in *.
    assert (Hw' : (1 <= w')%Z) by (unfold w'; lia).
    assert (Hind : (1 <= ind <= N - 1)%Z).
    { unfold jump_room in Hlo, Hhi. destruct (Z.leb_spec w' 1); lia. }
    destruct (read_in_range ks (ind - 1)%Z) as [k0 Hk0]; [fold N; lia |].
    destruct (read_in_range ks ind) as [k Hk]; [fold N; lia |].
    assert (Hkk : k0 < k) by (apply (Hinc (ind - 1)%Z ind); auto; lia).
    cbn [Bright.cs_search]. rewrite Hk0. cbn [bind].
    assert (Hnext : forall ind',
      (if (w' <=? 1)%Z
       then Z.abs (ind' - t) < Z.abs (ind - t) /\ 1 <= ind' <= N - 1
       else ind - w' <= ind' <= ind + w')%Z ->
      exists i k0 k,
        Bright.cs_search f ks e ind' w' = Ok i /\
        read ks (i - 1) = Ok k0 /\ read ks i = Ok k /\ k0 <= e <= k).
    { intros ind' Hstep. apply IH.
      - lia.
      - unfold jump_room in *.
        destruct (Z.leb_spec w' 1); destruct (Z.leb_spec (Z.max 1 (Z.quot w' 2)) 1);
          zdiv.
      - unfold jump_room in *.
        destruct (Z.leb_spec w' 1); destruct (Z.leb_spec (Z.max 1 (Z.quot w' 2)) 1);
          zdiv.
      - unfold search_measure, jump_room in *.
        destruct (Z.leb_spec w' 1); destruct (Z.eqb_spec w' 1);
          destruct (Z.eqb_spec (Z.max 1 (Z.quot w' 2)) 1); zdiv. }
    destruct (Rlt_dec e k0) as [Hlt | Hge].
    + rewrite Rgtb_true by lra. cbn [bind]. rewrite Hk. cbn [bind].
      rewrite Rgtb_true by lra.
      assert (Hti : (t - 1 < ind - 1)%Z)
        by (apply (key_order _ _ kt0 k0); auto; lra).
      apply Hnext. destruct (Z.leb_spec w' 1); lia.
    + rewrite Rgtb_false by lra. rewrite Hk. cbn [bind].
      destruct (Rlt_dec k e) as [Hlt1 | Hge1].
      * rewrite Rltb_true by lra. rewrite Rgtb_false by lra.
        assert (Hti : (ind < t)%Z) by (apply (key_order _ _ k kt); auto; lra).
        apply Hnext. destruct (Z.leb_spec w' 1); lia.
      * rewrite Rltb_false by lra.
        exists ind, k0, k. repeat split; auto; lra.
Qed.

End BrightSearch.

(** A sorted table holds, for an energy between its first and its last key,
    two neighbouring keys around the energy. *)
Lemma closed_bracket_exists (ks : list R) (e kfirst klast : R) :
  strictly_increasing ks ->
  (2 <= Z.of_nat (length ks))%Z ->
  read ks 0 = Ok kfirst ->
  read ks (Z.of_nat (length ks) - 1) = Ok klast ->
  kfirst <= e <= klast ->
  exists t kt0 kt,
    read ks (t - 1) = Ok kt0 /\ read ks t = Ok kt /\ kt0 <= e <= kt.
Proof.
  intros Hinc Hlen H0 Hlast He.
  destruct (Rlt_dec e klast) as [Hlt | Hge].
  - destruct (bracket_exists ks e kfirst klast H0 Hlast ltac:(lra))
      as (t & kt & kt1 & Ht & Ht1 & Hbr).
    exists (t + 1)%Z, kt, kt1.
    replace (t + 1 - 1)%Z with t by lia. repeat split; auto; lra.
  - destruct (read_in_range ks (Z.of_nat (length ks) - 1 - 1)) as [k Hk];
      [lia |].
    assert (Hk' : k < klast).
    { apply (Hinc (Z.of_nat (length ks) - 1 - 1)%Z
                  (Z.of_nat (length ks) - 1)%Z); auto. lia. }
    exists (Z.of_nat (length ks) - 1)%Z, k, klast.
    repeat split; auto; lra.
Qed.

(** X27.  For a table of at least two strictly increasing keys and an
    energy between the first and the last key, both included, the lookup of
    bright.c, given fuel for [2 * nentries] iterations, ends at an index [i]
    with [key[i-1] <= E <= key[i]], having read inside the table only, and
    returns the macroscopic cross section of the mean of [value[i-1]] and
    [value[i]]. *)
Theorem bright_total_cs_for_energy_finds {G : Type} (K : Bright.Headers G)
    (cs : Bright.CrossSection) (e kfirst klast ld : R) (fuel : nat) :
  Bright.nentries cs = Z.of_nat (length (Bright.key cs)) ->
  length (Bright.value cs) = length (Bright.key cs) ->
  strictly_increasing (Bright.key cs) ->
  (2 <= Bright.nentries cs)%Z ->
  read (Bright.key cs) 0 = Ok kfirst ->
  read (Bright.key cs) (Bright.nentries cs - 1) = Ok klast ->
  kfirst <= e <= klast ->
  (2 * Bright.nentries cs <= Z.of_nat fuel)%Z ->
  exists i k0 k1 v0 v1,
    read (Bright.key cs) (i - 1) = Ok k0 /\ read (Bright.key cs) i = Ok k1 /\
    k0 <= e <= k1 /\
    read (Bright.value cs) (i - 1) = Ok v0 /\ read (Bright.value cs) i = Ok v1 /\
    Bright.total_cs_for_energy K fuel cs e ld
    = Ok ((ld * Bright.AVOGADROS K / Bright.MOLAR_MASS K) *
          ((v0 + v1) / 2 * Bright.BARNS K)).
Proof.
  intros HN Hlen Hinc H2 H0 Hlast He Hfuel.
  rewrite HN in Hlast, H2.
  destruct (closed_bracket_exists _ _ _ _ Hinc H2 H0 Hlast He)
    as (t & kt0 & kt & Ht0 & Ht & Hbr).
  pose proof (read_Ok_range _ _ _ Ht0) as Rt0.
  pose proof (read_Ok_range _ _ _ Ht) as Rt.
  destruct (bright_cs_search_reaches (Bright.key cs) e t kt0 kt Hinc Ht0 Ht Hbr
              fuel (Z.quot (Bright.nentries cs) 2)
              (Z.quot (Z.quot (Bright.nentries cs) 2) 2))
    as (i & k0 & k1 & Hs & Hk0 & Hk1 & Hb).
  - zdiv.
  - unfold jump_room.
    destruct (Z.leb_spec
                (Z.max 1 (Z.quot (Z.quot (Z.quot (Bright.nentries cs) 2) 2) 2)) 1);
      zdiv.
  - unfold jump_room.
    destruct (Z.leb_spec
                (Z.max 1 (Z.quot (Z.quot (Z.quot (Bright.nentries cs) 2) 2) 2)) 1);
      zdiv.
  - unfold search_measure.
    destruct (Z.eqb_spec
                (Z.max 1 (Z.quot (Z.quot (Z.quot (Bright.nentries cs) 2) 2) 2)) 1);
      zdiv.
  - pose proof (read_Ok_range _ _ _ Hk0) as Ri0.
    pose proof (read_Ok_range _ _ _ Hk1) as Ri1.
    destruct (read_in_range (Bright.value cs) (i - 1)%Z) as [v0 Hv0];
      [rewrite Hlen; lia |].
    destruct (read_in_range (Bright.value cs) i) as [v1 Hv1];
      [rewrite Hlen; lia |].
    exists i, k0, k1, v0, v1. repeat split; try assumption; try lra.
    unfold Bright.total_cs_for_energy. rewrite Hs. cbn [bind].
    rewrite Hv0, Hv1. reflexivity.
Qed.

Lemma bright_total_cs_for_energy_finds_witness :
  exists i k0 k1 v0 v1,
    read (Bright.key bright_table) (i - 1) = Ok k0 /\
    read (Bright.key bright_table) i = Ok k1 /\
    k0 <= 5 <= k1 /\
    read (Bright.value bright_table) (i - 1) = Ok v0 /\
    read (Bright.value bright_table) i = Ok v1 /\
    Bright.total_cs_for_energy bright_headers 10 bright_table 5 1
    = Ok ((1 * Bright.AVOGADROS bright_headers / Bright.MOLAR_MASS bright_headers) *
          ((v0 + v1) / 2 * Bright.BARNS bright_headers)).
Proof.
  apply (bright_total_cs_for_energy_finds bright_headers bright_table 5 1 5 1 10).
  - reflexivity.
  - reflexivity.
  - exact sample_table_increasing.
  - simpl. lia.
  - reflexivity.
  - reflexivity.
  - lra.
  - simpl. lia.
Defined.

(** * The driver of main.c *)

(** ** The time step loop *)

Section DriverLoop.
Context {State : Type}.
Variable solve : State -> result State.
Hypothesis solve_returns : forall s, exists s', solve s = Ok s'.

Lemma timestep_loop_spec (dt sim_end : R) (n : nat) :
  forall (tt : Z) (s : State),
  exists tt' s',
    timestep_loop solve n tt dt sim_end (IZR (tt - 1) * dt) s
    = Ok (tt', IZR (Z.min tt' (tt + Z.of_nat n - 1) ) * dt, s') /\
    (tt <= tt' <= tt + Z.of_nat n)%Z /\
    (forall j, (tt <= j < tt')%Z -> IZR j * dt < sim_end) /\
    ((tt' < tt + Z.of_nat n)%Z -> sim_end <= IZR tt' * dt).
Proof.
  induction n as [| n IH]; intros tt s.
  - exists tt, s. cbn [timestep_loop].
    replace (Z.min tt (tt + Z.of_nat 0 - 1)) with (tt - 1)%Z by lia.
    repeat split; try reflexivity; intros; lia.
  - cbn [timestep_loop]. destruct (solve_returns s) as [s1 Hs1].
    rewrite Hs1. cbn [bind dadd dge R_arith R_sqrt].
    assert (Hel : IZR (tt - 1) * dt + dt = IZR tt * dt).
    { rewrite minus_IZR. ring. }
    rewrite Hel.
    destruct (Rgeb (IZR tt * dt) sim_end) eqn:E.
    + apply Rgeb_iff in E. exists tt, s1.
      replace (Z.min tt (tt + Z.of_nat (S n) - 1)) with tt by lia.
      repeat split; try reflexivity; intros; try lia. exact E.
    + assert (Hlt : IZR tt * dt < sim_end).
      { destruct (Rlt_le_dec (IZR tt * dt) sim_end) as [H | H]; [exact H |].
        rewrite Rgeb_true in E by exact H. discriminate. }
      destruct (IH (tt + 1)%Z s1) as (tt' & s' & Hrun & Hr & Hbefore & Hstop).
      replace (tt + 1 - 1)%Z with tt in Hrun by lia.
      exists tt', s'. rewrite Hrun.
      replace (tt + 1 + Z.of_nat n - 1)%Z with (tt + Z.of_nat (S n) - 1)%Z by lia.
      repeat split; try reflexivity; try lia.
      * intros j Hj. destruct (Z.eq_dec j tt) as [-> | Hne]; [exact Hlt |].
        apply Hbefore. lia.
      * intros Hlt'. apply Hstop. lia.
Qed.

End DriverLoop.

(** X30.  In exact arithmetic, when every solve returns, the time step loop
    of the driver makes [tt] steps, where [tt] is the first step from 1 on
    with [sim_end <= tt * dt], or all the [niters] steps when there is none;
    it leaves [elapsed_sim_time] at the number of steps made times [dt], and
    [tt] at [niters + 1] when it was not left by [break].  The clock of the
    program is a sum of doubles, whose rounding can move the step at which
    the loop is left ([main_loop_binary64_clock]). *)
Theorem main_loop_steps {State : Type} (solve : State -> result State)
    (niters : Z) (dt sim_end : R) (s : State) :
  (forall s, exists s', solve s = Ok s') ->
  (0 <= niters)%Z ->
  exists tt s',
    main_loop solve niters dt sim_end s
    = Ok (tt, IZR (Z.min tt niters) * dt, s') /\
    (1 <= tt <= niters + 1)%Z /\
    (forall j, (1 <= j < tt)%Z -> IZR j * dt < sim_end) /\
    ((tt <= niters)%Z -> sim_end <= IZR tt * dt).
Proof.
  intros Hsolve Hn. unfold main_loop.
  destruct (timestep_loop_spec solve Hsolve dt sim_end (Z.to_nat niters) 1 s)
    as (tt & s' & Hrun & Hr & Hbefore & Hstop).
  exists tt, s'.
  replace (IZR (1 - 1) * dt) with 0 in Hrun by (simpl; ring).
  replace (1 + Z.of_nat (Z.to_nat niters) - 1)%Z with niters in Hrun by lia.
  repeat split; try assumption; try lia.
  intros Hle. apply Hstop. lia.
Qed.

Lemma main_loop_steps_witness :
  exists tt s',
    main_loop (fun s : nat => Ok (1 + s)%nat) 5 (1 / 2) 1 0%nat
    = Ok (tt, IZR (Z.min tt 5) * (1 / 2), s') /\
    (1 <= tt <= 5 + 1)%Z /\
    (forall j, (1 <= j < tt)%Z -> IZR j * (1 / 2) < 1) /\
    ((tt <= 5)%Z -> 1 <= IZR tt * (1 / 2)).
Proof.
  apply (main_loop_steps (fun s : nat => Ok (1 + s)%nat) 5 (1 / 2) 1 0%nat).
  - intros s. eauto.
  - lia.
Defined.

(** The same loop in binary64 arithmetic, for [dt = 0.1] and [sim_end = 1]:
    ten additions of [dt] leave the clock just below 1, so the loop makes an
    eleventh step when [niters] allows it, and is not left by [break] when
    [niters = 10]. *)
Lemma main_loop_binary64_clock :
  main_loop (fun s : nat => Ok (S s)) 20 0x1.999999999999ap-4%float 1%float 0%nat
  = Ok (11%Z, 0x1.1999999999999p+0%float, 11%nat) /\
  main_loop (fun s : nat => Ok (S s)) 10 0x1.999999999999ap-4%float 1%float 0%nat
  = Ok (11%Z, 0x1.fffffffffffffp-1%float, 10%nat).
Proof. split; vm_compute; reflexivity. Qed.
